(** * Grid pathfinding: BFS, Dijkstra and A* over a weighted square grid.

    Shallow embedding of [priorityQueue.js], of the utility and search
    functions of [pathfinder.js], and of the part of the grid object
    ([mapSize], [startCell], [endCell], [grid], [validate]) they query.

    Numbers are mathematical integers ([Z]): coordinates come from
    [parseInt] and weights from [Math.round].  A coordinate is the
    two-element array [[x, y]].  The visited and cumulated-cost maps are the
    JavaScript [Map]s keyed by the string [[x,y].toString()], modelled as
    [gmap string _].  The [toggleCell] calls only repaint the page and are
    left out, as are [front] and [rear], which no search calls.  A search
    is the callback it hands to [setInterval], applied until it clears the
    interval; what [bfs], [dijkstra] and [astar] denote here is what the
    last callback leaves in [pathfinder.endPath], or the exception it
    raises.

    The file has three parts: the embedding, the vocabulary of the
    properties, and the properties with their proofs. *)

From Stdlib Require Import ZArith Lia Ascii.
From stdpp Require Import base tactics option list sorting strings pretty gmap.

Local Open Scope Z_scope.

(* [set_solver] of stdpp 1.13 clears hypotheses that are already gone. *)
#[local] Set Warnings "-clear-no-such-hyp".

(* ================================================================== *)
(** ** Completion values                                                *)
(* ================================================================== *)

(** What a JavaScript call can raise in this code: a thrown string, or the
    [TypeError] of reading an index of [undefined]. *)
Inductive Exn : Type :=
  | ThrownString (msg : string)
  | TypeError.

Inductive Completion (A : Type) : Type :=
  | Return (v : A)
  | Throw (e : Exn).
Arguments Return {A} v.
Arguments Throw {A} e.

(** The string both [dequeue], [front] and [rear] throw on an empty queue. *)
Definition EmptyQueue : Exn := ThrownString "Error: No elements in Queue".

(* ================================================================== *)
(** ** priorityQueue.js                                                 *)
(* ================================================================== *)

Module PQ.
Section Queue.
Context {A : Type}.

Record QueueElement : Type := mkElement { element : A; priority : Z }.

(** [this.queue]: the array, index 0 first. *)
Record PriorityQueue : Type := mkQueue { queue : list QueueElement }.

(** [new PriorityQueue()] *)
Definition empty : PriorityQueue := mkQueue [].

(** The [for] loop of [enqueue]: splice [item] in front of the first
    stored element of strictly greater priority; push at the end when the
    loop finds none. *)
Fixpoint insert_item (item : QueueElement) (q : list QueueElement)
  : list QueueElement :=
  match q with
  | [] => [item]
  | e :: rest =>
      if priority e >? priority item then item :: e :: rest
      else e :: insert_item item rest
  end.

Definition enqueue (q : PriorityQueue) (a : A) (p : Z) : PriorityQueue :=
  mkQueue (insert_item (mkElement a p) (queue q)).

Definition isEmpty (q : PriorityQueue) : bool :=
  (Z.of_nat (length (queue q)) =? 0).

(** [dequeue]: throws on an empty queue, otherwise [shift]s.  The result
    pairs the returned element with the queue after the call. *)
Definition dequeue (q : PriorityQueue)
  : Completion QueueElement * PriorityQueue :=
  if isEmpty q then (Throw EmptyQueue, q)
  else match queue q with
       | e :: rest => (Return e, mkQueue rest)
       | [] => (Throw TypeError, q) (* not reached: the queue is not empty *)
       end.

(** [front]: throws on an empty queue, otherwise reads the last entry of
    the array. *)
Definition front (q : PriorityQueue) : Completion QueueElement :=
  if isEmpty q then Throw EmptyQueue
  else match queue q !! (length (queue q) - 1)%nat with
       | Some e => Return e
       | None => Throw TypeError (* not reached: the index is in range *)
       end.

(** [rear]: throws on an empty queue, otherwise reads the first entry. *)
Definition rear (q : PriorityQueue) : Completion QueueElement :=
  if isEmpty q then Throw EmptyQueue
  else match queue q !! 0%nat with
       | Some e => Return e
       | None => Throw TypeError (* not reached: the index is in range *)
       end.

(** A call of the interface, and a sequence of calls run from a queue.
    The trace lists what each [dequeue] answered. *)
Inductive Call : Type :=
  | Enqueue (a : A) (p : Z)
  | Dequeue.

Fixpoint run (calls : list Call) (q : PriorityQueue)
  : list (Completion QueueElement) * PriorityQueue :=
  match calls with
  | [] => ([], q)
  | Enqueue a p :: cs => run cs (enqueue q a p)
  | Dequeue :: cs =>
      let '(r, q') := dequeue q in
      let '(rs, q'') := run cs q' in
      (r :: rs, q'')
  end.

End Queue.
Arguments QueueElement A : clear implicits.
Arguments PriorityQueue A : clear implicits.
Arguments Call A : clear implicits.
End PQ.

(* ================================================================== *)
(** ** The grid object ([map])                                          *)
(* ================================================================== *)

(** A coordinate is the array [[x, y]]. *)
Definition Coord : Type := Z * Z.

(** The array a coordinate is in the JavaScript code. *)
Definition arr (c : Coord) : list Z := [c.1; c.2].

(** [Array.prototype.toString] on an array of integers: the decimal
    numerals joined by commas; the empty array gives the empty string. *)
Definition toString (a : list Z) : string := String.concat "," (pretty <$> a).

(** [[x,y].toString()], the key of a coordinate in both maps. *)
Definition key (c : Coord) : string := toString (arr c).

(** One entry [{ type, weight }] of [map.grid]. *)
Record Cell : Type := mkCell { type : string; weight : Z }.

Record Map : Type := mkMap {
  mapSize : Z;
  startCell : Coord;
  endCell : Coord;
  grid : list (list Cell)
}.

(** [map.grid[x][y]]; [None] stands for [undefined]. *)
Definition gridAt (g : list (list Cell)) (x y : Z) : option Cell :=
  if (0 <=? x) && (0 <=? y)
  then row ← g !! Z.to_nat x; row !! Z.to_nat y
  else None.

(** [resetGrid] fills [mapSize] rows of [mapSize] cells, so that every
    coordinate accepted by [isBound] has an entry. *)
Definition wf_map (m : Map) : bool :=
  bool_decide (Z.of_nat (length (grid m)) = mapSize m)
  && forallb (λ row, bool_decide (Z.of_nat (length row) = mapSize m)) (grid m).

Definition isBound (m : Map) (x y : Z) : bool :=
  (x >=? 0) && (y >=? 0) && (x <? mapSize m) && (y <? mapSize m).

(** [validate].  On a well-formed map the entry read after [isBound]
    exists ([gridAt_wf] below); the [None] branch is never taken there. *)
Definition validate (m : Map) (x y : Z) : bool :=
  isBound m x y &&
  match gridAt (grid m) x y with
  | Some c => negb (String.eqb (type c) "obstacle")
  | None => false
  end.

(** [map.grid[x][y] = f(map.grid[x][y])]: one entry changed in place. *)
Definition gridUpdate (f : Cell → Cell) (g : list (list Cell)) (x y : Z)
  : list (list Cell) :=
  alter (alter f (Z.to_nat y)) (Z.to_nat x) g.

Definition withGrid (m : Map) (g : list (list Cell)) : Map :=
  mkMap (mapSize m) (startCell m) (endCell m) g.

(** [setTerrain], without the repainting.  The page holds one element per
    coordinate [isBound] accepts; for any other coordinate the jQuery
    selection is empty and the assignment to [className] of [undefined]
    throws before the grid is touched.  Reading [map.grid[x][y]] throws
    where there is no entry. *)
Definition setTerrain (m : Map) (x y : Z) (terrain : string) : Completion Map :=
  if isBound m x y
  then match gridAt (grid m) x y with
       | Some _ =>
           Return (withGrid m (gridUpdate (λ c, mkCell terrain (weight c)) (grid m) x y))
       | None => Throw TypeError
       end
  else Throw TypeError.

(** [setWeight], without the repainting: the jQuery [html] call on an empty
    selection does nothing, so only the read of [map.grid[x][y]] can
    throw. *)
Definition setWeight (m : Map) (x y : Z) (w : Z) : Completion Map :=
  match gridAt (grid m) x y with
  | Some _ => Return (withGrid m (gridUpdate (λ c, mkCell (type c) w) (grid m) x y))
  | None => Throw TypeError
  end.

(* ================================================================== *)
(** ** pathfinder.js: utility functions                                 *)
(* ================================================================== *)

(** [visited.has(k)] / [cumulatedCost.has(k)] *)
Definition has {V : Type} (mp : gmap string V) (k : string) : bool :=
  bool_decide (is_Some (mp !! k)).

Definition visitCell (m : Map) (x y : Z) (visited : gmap string (list Z)) : bool :=
  validate m x y && negb (has visited (key (x, y))).

(** [c1[0] === c2[0] && c1[1] === c2[1]] on arrays of integers; a missing
    index reads [undefined], which is [===] to itself only. *)
Definition equals (c1 c2 : list Z) : bool :=
  bool_decide (c1 !! 0%nat = c2 !! 0%nat) && bool_decide (c1 !! 1%nat = c2 !! 1%nat).

(** Manhattan distance. *)
Definition heuristic (c1 c2 : Coord) : Z :=
  Z.abs (c2.1 - c1.1) + Z.abs (c2.2 - c1.2).

(** [grid[neighbor[0]][neighbor[1]].weight]; only called on neighbours that
    passed [validate]. *)
Definition findCost (g : list (list Cell)) (neighbor : Coord) : Z :=
  match gridAt g neighbor.1 neighbor.2 with
  | Some c => weight c
  | None => 0
  end.

Definition findNeighbors (m : Map) (x y : Z) (visited : gmap string (list Z))
  : list Coord :=
  let neighbors := [] in
  let neighbors :=
    if visitCell m (x - 1) y visited then neighbors ++ [(x - 1, y)] else neighbors in
  let neighbors :=
    if visitCell m (x + 1) y visited then neighbors ++ [(x + 1, y)] else neighbors in
  let neighbors :=
    if visitCell m x (y - 1) visited then neighbors ++ [(x, y - 1)] else neighbors in
  let neighbors :=
    if visitCell m x (y + 1) visited then neighbors ++ [(x, y + 1)] else neighbors in
  if Z.rem (x + y) 2 =? 0 then reverse neighbors else neighbors.

(** The [while] loop of [pathReconstruct].  [current] is an array: a
    coordinate, or whatever the visited map stores ([[]] for the start
    cell).  When [visited.get] answers [undefined] the next loop test reads
    [undefined[0]] and throws.  [None] means the loop is still running
    after [fuel] iterations. *)
Fixpoint pathReconstruct_loop (fuel : nat) (visited : gmap string (list Z))
    (m : Map) (current : list Z) (endPath : list (list Z))
  : option (Completion (list (list Z))) :=
  match fuel with
  | O => None
  | S n =>
      if equals current (arr (startCell m))
      then Some (Return (endPath ++ [arr (startCell m)]))
      else
        match visited !! toString current with
        | Some previous => pathReconstruct_loop n visited m previous (endPath ++ [current])
        | None => Some (Throw TypeError)
        end
  end.

Definition pathReconstruct (fuel : nat) (visited : gmap string (list Z)) (m : Map)
  : option (Completion (list (list Z))) :=
  pathReconstruct_loop fuel visited m (arr (endCell m)) [].

(* ================================================================== *)
(** ** pathfinder.js: the three searches                                *)
(* ================================================================== *)

(** What one run of the [setInterval] callback did: it found the frontier
    empty and cleared the interval ([Exit]; [pathReconstruct] is called
    next), it popped the exit cell and emptied the frontier ([GoalPopped]),
    or it popped another cell and pushed its neighbours ([Expanded]). *)
Inductive Tick (St : Type) : Type :=
  | Exit
  | GoalPopped (st : St)
  | Expanded (st : St)
  | Crashed (e : Exn).
Arguments Exit {St}.
Arguments GoalPopped {St} st.
Arguments Expanded {St} st.
Arguments Crashed {St} e.

(** The two ways a search ends: the exit cell was popped, or the frontier
    ran dry before that. *)
Inductive Terminal : Type := Found | Exhausted.

(** [ticks tick fuel st t]: the callback runs until it clears the interval;
    the answer is the state it cleared it in and whether the exit cell was
    popped on the way ([t] is [Exhausted] until then).  [None]: still
    scheduled after [fuel] runs. *)
Fixpoint ticks {St : Type} (tick : St → Tick St) (fuel : nat) (st : St) (t : Terminal)
  : option (Completion (Terminal * St)) :=
  match fuel with
  | O => None
  | S n =>
      match tick st with
      | Exit => Some (Return (t, st))
      | GoalPopped st' => ticks tick n st' Found
      | Expanded st' => ticks tick n st' t
      | Crashed e => Some (Throw e)
      end
  end.

(** The state after [n] runs of the callback (unchanged once it has
    cleared the interval). *)
Fixpoint after {St : Type} (tick : St → Tick St) (n : nat) (st : St) : St :=
  match n with
  | O => st
  | S k =>
      match tick st with
      | GoalPopped st' | Expanded st' => after tick k st'
      | Exit | Crashed _ => st
      end
  end.

(** *** Breadth-first search *)

Record BfsState : Type := mkBfs {
  bfs_frontier : list Coord;
  bfs_visited : gmap string (list Z)
}.

Definition bfs_init (m : Map) : BfsState :=
  mkBfs [startCell m] (<[key (startCell m) := []]> ∅).

(** Body of the [for] loop over [neighbors]. *)
Definition bfs_push (currentCell : Coord) (st : BfsState) (n : Coord) : BfsState :=
  mkBfs (bfs_frontier st ++ [n]) (<[key n := arr currentCell]> (bfs_visited st)).

Definition bfs_tick (m : Map) (st : BfsState) : Tick BfsState :=
  match bfs_frontier st with
  | [] => Exit
  | currentCell :: rest =>
      if equals (arr currentCell) (arr (endCell m))
      then GoalPopped (mkBfs [] (bfs_visited st))
      else
        let x := currentCell.1 in
        let y := currentCell.2 in
        let neighbors := findNeighbors m x y (bfs_visited st) in
        Expanded (foldl (bfs_push currentCell) (mkBfs rest (bfs_visited st)) neighbors)
  end.

(** *** Dijkstra and A* *)

Record PqState : Type := mkPq {
  frontier : PQ.PriorityQueue Coord;
  visited : gmap string (list Z);
  cumulatedCost : gmap string Z
}.

(** Both searches start the same way. *)
Definition pq_init (m : Map) : PqState :=
  mkPq (PQ.enqueue PQ.empty (startCell m) 0)
       (<[key (startCell m) := []]> ∅)
       (<[key (startCell m) := 0]> ∅).

(** [cumulatedCost.get(k)] where the code adds to it or compares with it.
    Every key read this way was set before ([PqInv] below). *)
Definition costOf (cumulatedCost : gmap string Z) (k : string) : Z :=
  default 0 (cumulatedCost !! k).

(** Body of the [for] loop of [dijkstra]. *)
Definition dijkstra_relax (m : Map) (currentCell : Coord) (st : PqState) (n : Coord)
  : PqState :=
  let neighbor := key n in
  let newCost := costOf (cumulatedCost st) (key currentCell) + findCost (grid m) n in
  if negb (has (cumulatedCost st) neighbor)
     || (newCost <? costOf (cumulatedCost st) neighbor)
  then mkPq (PQ.enqueue (frontier st) n newCost)
            (<[neighbor := arr currentCell]> (visited st))
            (<[neighbor := newCost]> (cumulatedCost st))
  else st.

(** Body of the [for] loop of [astar]. *)
Definition astar_relax (m : Map) (currentCell : Coord) (st : PqState) (n : Coord)
  : PqState :=
  let neighbor := key n in
  let newCost := costOf (cumulatedCost st) (key currentCell) + findCost (grid m) n in
  if negb (has (cumulatedCost st) neighbor)
     || (newCost <? costOf (cumulatedCost st) neighbor)
  then
    let priority := newCost + heuristic (endCell m) n in
    mkPq (PQ.enqueue (frontier st) n priority)
         (<[neighbor := arr currentCell]> (visited st))
         (<[neighbor := newCost]> (cumulatedCost st))
  else st.

(** The callback of [dijkstra] and [astar], which differ in the loop body
    only. *)
Definition pq_tick (relax : Map → Coord → PqState → Coord → PqState)
    (m : Map) (st : PqState) : Tick PqState :=
  if PQ.isEmpty (frontier st) then Exit
  else
    match PQ.dequeue (frontier st) with
    | (Throw e, _) => Crashed e
    | (Return item, rest) =>
        let currentCell := PQ.element item in
        if equals (arr currentCell) (arr (endCell m))
        then GoalPopped (mkPq PQ.empty (visited st) (cumulatedCost st))
        else
          let x := currentCell.1 in
          let y := currentCell.2 in
          let neighbors := findNeighbors m x y (visited st) in
          Expanded (foldl (relax m currentCell)
                          (mkPq rest (visited st) (cumulatedCost st)) neighbors)
    end.

Definition dijkstra_tick : Map → PqState → Tick PqState := pq_tick dijkstra_relax.
Definition astar_tick : Map → PqState → Tick PqState := pq_tick astar_relax.

(** *** The whole calls *)

(** What a search leaves in [pathfinder.endPath], or the exception its
    last callback raised.  [None]: not finished within [fuel] callbacks and
    loop iterations. *)
Definition finish {St : Type} (visitedOf : St → gmap string (list Z)) (fuel : nat)
    (m : Map) (r : option (Completion (Terminal * St)))
  : option (Completion (list (list Z))) :=
  match r with
  | None => None
  | Some (Throw e) => Some (Throw e)
  | Some (Return (_, st)) => pathReconstruct fuel (visitedOf st) m
  end.

Definition bfs (fuel : nat) (m : Map) : option (Completion (list (list Z))) :=
  finish bfs_visited fuel m (ticks (bfs_tick m) fuel (bfs_init m) Exhausted).

Definition dijkstra (fuel : nat) (m : Map) : option (Completion (list (list Z))) :=
  finish visited fuel m (ticks (dijkstra_tick m) fuel (pq_init m) Exhausted).

Definition astar (fuel : nat) (m : Map) : option (Completion (list (list Z))) :=
  finish visited fuel m (ticks (astar_tick m) fuel (pq_init m) Exhausted).

(** The terminal state alone. *)
Definition terminal {St : Type} (r : option (Completion (Terminal * St))) : option Terminal :=
  match r with
  | Some (Return (t, _)) => Some t
  | _ => None
  end.

(* ================================================================== *)
(** * Vocabulary of the properties                                      *)
(* ================================================================== *)

(** Nothing below is in the source: these are the notions the properties
    are stated with, and the concrete grids they are tried on. *)

(* ================================================================== *)
(** ** Breadth-first search *)
(* ================================================================== *)

(** The coordinates the next [n] runs of the callback of [bfs] push, in
    order. *)
Fixpoint bfs_pushes (m : Map) (n : nat) (st : BfsState) : list Coord :=
  match n with
  | O => []
  | S k =>
      match bfs_frontier st, bfs_tick m st with
      | currentCell :: _, Expanded st' =>
          findNeighbors m currentCell.1 currentCell.2 (bfs_visited st)
          ++ bfs_pushes m k st'
      | _, GoalPopped st' => bfs_pushes m k st'
      | _, _ => []
      end
  end.

(** The frontier holds no cell twice, and only visited cells. *)
Definition bfs_inv (st : BfsState) : Prop :=
  NoDup (bfs_frontier st) ∧ ∀ c, c ∈ bfs_frontier st → key c ∈ dom (bfs_visited st).

(* ================================================================== *)
(** ** Keys *)
(* ================================================================== *)

(** No comma in the string. *)
Fixpoint comma_free (s : string) : bool :=
  match s with
  | EmptyString => true
  | String a s' => negb (Ascii.eqb a ","%char) && comma_free s'
  end.

(* ================================================================== *)
(** ** The priority queue *)
(* ================================================================== *)

(** To speak of the order in which elements were enqueued, every [Enqueue]
    of a sequence of calls is numbered: the element [a] of the [k]-th
    enqueue becomes [(k, a)].  The queue never looks at the element, so the
    numbering does not change what it does ([run_number_erase]). *)
Fixpoint number {A : Type} (k : nat) (calls : list (PQ.Call A)) : list (PQ.Call (nat * A)) :=
  match calls with
  | [] => []
  | PQ.Enqueue a p :: cs => PQ.Enqueue (k, a) p :: number (S k) cs
  | PQ.Dequeue :: cs => PQ.Dequeue :: number k cs
  end.

(** The element as it was enqueued. *)
Definition unnumber {A : Type} (e : PQ.QueueElement (nat * A)) : PQ.QueueElement A :=
  PQ.mkElement (PQ.element e).2 (PQ.priority e).

(** Position of an element in enqueue order. *)
Definition enqueuedAt {A : Type} (e : PQ.QueueElement (nat * A)) : nat := (PQ.element e).1.

(** [e1] leaves the queue before [e2]: lower priority, or equal priority
    and enqueued earlier. *)
Definition before {A : Type} (e1 e2 : PQ.QueueElement (nat * A)) : Prop :=
  PQ.priority e1 < PQ.priority e2
  ∨ (PQ.priority e1 = PQ.priority e2 ∧ (enqueuedAt e1 < enqueuedAt e2)%nat).

(** The queue invariant when the next enqueue gets number [k]. *)
Definition ordered {A : Type} (k : nat) (q : PQ.PriorityQueue (nat * A)) : Prop :=
  StronglySorted before (PQ.queue q) ∧ Forall (λ e, (enqueuedAt e < k)%nat) (PQ.queue q).

(** Applies [f] to a returned value. *)
Definition completion_map {A B : Type} (f : A → B) (c : Completion A) : Completion B :=
  match c with
  | Return v => Return (f v)
  | Throw e => Throw e
  end.

(* ================================================================== *)
(** ** Neighbour expansion *)
(* ================================================================== *)

(** The four neighbours in the order left, right, up, down. *)
Definition canonical (x y : Z) : list Coord :=
  [(x - 1, y); (x + 1, y); (x, y - 1); (x, y + 1)].

(** The cell is not an obstacle. *)
Definition passable (m : Map) (c : Coord) : bool :=
  match gridAt (grid m) c.1 c.2 with
  | Some cell => negb (String.eqb (type cell) "obstacle")
  | None => false
  end.

(** In bounds, passable and not a key of the visited map. *)
Definition admits (m : Map) (visited : gmap string (list Z)) (c : Coord) : bool :=
  isBound m c.1 c.2 && passable m c && bool_decide (key c ∉ dom visited).

(** Two cells that share a side. *)
Definition adjacent (c c' : Coord) : Prop := c' ∈ canonical c.1 c.2.

#[global] Instance adjacent_dec (c c' : Coord) : Decision (adjacent c c').
Proof. unfold adjacent. apply _. Defined.

(* ================================================================== *)
(** ** Path reconstruction *)
(* ================================================================== *)

(** [Chain visited start current l]: following the links of [visited] from
    [current] reaches [start], after passing through the arrays [l]
    ([current] first, [start] not included). *)
Inductive Chain (visited : gmap string (list Z)) (start : list Z)
  : list Z → list (list Z) → Prop :=
  | Chain_start current :
      equals current start = true → Chain visited start current []
  | Chain_link current previous l :
      equals current start = false →
      visited !! toString current = Some previous →
      Chain visited start previous l →
      Chain visited start current (current :: l).

(** A set of arrays the links never leave, none of which is the start. *)
Definition Trapped (visited : gmap string (list Z)) (start : list Z)
    (P : list Z → Prop) : Prop :=
  ∀ c, P c → equals c start = false
             ∧ ∃ previous, visited !! toString c = Some previous ∧ P previous.

(** A row of [n] plain cells of weight 1, as [resetGrid] makes them. *)
Definition plainRow (n : nat) : list Cell := replicate n (mkCell "plain" 1).

(** A 2 × 2 grid and a visited map that links its exit cell [(1,1)] and
    the cell [(1,0)] to each other. *)
Definition loopMap : Map := mkMap 2 (0, 0) (1, 1) (replicate 2 (plainRow 2)).

Definition loopVisited : gmap string (list Z) :=
  <[key (1, 1) := [1; 0]]> (<[key (1, 0) := [1; 1]]> (<[key (0, 0) := []]> ∅)).

(** The two arrays on that cycle. *)
Definition onLoop (c : list Z) : Prop := c = [1; 1] ∨ c = [1; 0].

(** A visited map whose links lead from [(0,2)] to the start in two steps,
    read against a 1 × 1 grid. *)
Definition lineVisited : gmap string (list Z) :=
  <[key (0, 2) := [0; 1]]> (<[key (0, 1) := [0; 0]]> (<[key (0, 0) := []]> ∅)).

Definition lineMap : Map := mkMap 1 (0, 0) (0, 2) [plainRow 1].

(* ================================================================== *)
(** ** Walks, costs and the frontier of a search *)
(* ================================================================== *)

(** [Walk m a l b]: from [a], entering the cells [l] one after the other,
    each adjacent to the one before and accepted by [validate], one ends
    in [b]. *)
Inductive Walk (m : Map) (a : Coord) : list Coord → Coord → Prop :=
  | Walk_here : Walk m a [] a
  | Walk_step l b c :
      Walk m a l b → adjacent b c → validate m c.1 c.2 = true →
      Walk m a (l ++ [c]) c.

(** Some walk leads from [a] to [b]. *)
Definition Reachable (m : Map) (a b : Coord) : Prop := ∃ l, Walk m a l b.

(** Sum of the weights of the cells entered. *)
Definition pathCost (m : Map) (l : list Coord) : Z :=
  foldr (λ c s, findCost (grid m) c + s) 0 l.

(** All coordinates [isBound] accepts, and their keys. *)
Definition cells (m : Map) : list Coord :=
  cprod (seqZ 0 (mapSize m)) (seqZ 0 (mapSize m)).

Definition allKeys (m : Map) : gset string := list_to_set (key <$> cells m).

(** Cells still to be visited plus cells waiting in the frontier. *)
Definition measure (m : Map) (fr : list Coord) (D : gset string) : nat :=
  (size (allKeys m ∖ D) + length fr)%nat.

(** Callbacks that are enough for any search on [m]. *)
Definition enoughFuel (m : Map) : nat := S (S (length (cells m))).

(** What all three searches keep true of the cells [fr] in the frontier
    and the keys [D] of the visited map. *)
Record SearchInv (m : Map) (fr : list Coord) (D : gset string) : Prop := mkSearchInv {
  inv_NoDup : NoDup fr;
  inv_frontier : ∀ c, c ∈ fr → key c ∈ D;
  inv_start : key (startCell m) ∈ D;
  inv_reach : ∀ c, key c ∈ D → Reachable m (startCell m) c
}.

(** Until the exit cell is popped, a visited cell that has left the
    frontier is not the exit cell and has all its valid neighbours
    visited. *)
Definition Closed (m : Map) (fr : list Coord) (D : gset string) : Prop :=
  ∀ c, key c ∈ D →
    c ∈ fr ∨ (c ≠ endCell m
              ∧ ∀ c', adjacent c c' → validate m c'.1 c'.2 = true → key c' ∈ D).

(** One expansion: a cell other than the exit leaves the frontier and its
    valid unvisited neighbours enter it and the visited map. *)
Definition Step (m : Map) (fr : list Coord) (D : gset string)
    (fr' : list Coord) (D' : gset string) : Prop :=
  ∃ cur rest ns,
    fr ≡ₚ cur :: rest ∧ cur ≠ endCell m ∧ NoDup ns
    ∧ (∀ c, c ∈ ns ↔ adjacent cur c ∧ validate m c.1 c.2 = true ∧ key c ∉ D)
    ∧ fr' ≡ₚ rest ++ ns ∧ D' = D ∪ list_to_set (key <$> ns).

(** A state of a search from which the driver can go on: what the search
    keeps true of its own state ([J]), and the frontier and visited keys
    in order. *)
Definition Good (m : Map) {St : Type} (cellsOf : St → list Coord)
    (visitedOf : St → gmap string (list Z)) (J : St → Prop) (st : St) : Prop :=
  J st ∧ SearchInv m (cellsOf st) (dom (visitedOf st))
  ∧ Closed m (cellsOf st) (dom (visitedOf st)).

(* ================================================================== *)
(** ** Dijkstra and A* *)
(* ================================================================== *)

(** The cells waiting in the priority queue, lowest priority first. *)
Definition cellsOf (st : PqState) : list Coord := PQ.element <$> PQ.queue (frontier st).

(** The keys of a list of coordinates. *)
Definition keysOf (ns : list Coord) : gset string := list_to_set (key <$> ns).

(** The order the queue is sorted in. *)
Definition leq_priority (e e' : PQ.QueueElement Coord) : Prop :=
  PQ.priority e ≤ PQ.priority e'.

(** The [then] branch of the loop body, for a search that enqueues with
    priority [prio newCost n]. *)
Definition admit_with (prio : Z → Coord → Z) (m : Map) (currentCell : Coord)
    (st : PqState) (n : Coord) : PqState :=
  let newCost := costOf (cumulatedCost st) (key currentCell) + findCost (grid m) n in
  mkPq (PQ.enqueue (frontier st) n (prio newCost n))
       (<[key n := arr currentCell]> (visited st))
       (<[key n := newCost]> (cumulatedCost st)).

(** The priority each search enqueues a neighbour with. *)
Definition dijkstra_prio (newCost : Z) (n : Coord) : Z := newCost.

Definition astar_prio (m : Map) (newCost : Z) (n : Coord) : Z :=
  newCost + heuristic (endCell m) n.

(** What [dijkstra] and [astar] keep true of their state: both maps have
    the same keys, the queue is sorted, every queued cell has a recorded
    cost, and every recorded cost is the cost of a walk from the start
    cell. *)
Definition PqInv (m : Map) (st : PqState) : Prop :=
  dom (cumulatedCost st) = dom (visited st)
  ∧ StronglySorted leq_priority (PQ.queue (frontier st))
  ∧ (∀ c, c ∈ cellsOf st → key c ∈ dom (cumulatedCost st))
  ∧ (∀ c d, cumulatedCost st !! key c = Some d →
       ∃ l, Walk m (startCell m) l c ∧ pathCost m l = d).

(** [SearchInv] of the cells in the queue and the keys of the visited map. *)
Definition PqView (m : Map) (st : PqState) : Prop :=
  SearchInv m (cellsOf st) (dom (visited st)).

(** The state the callback's loop starts from once [item] is dequeued. *)
Definition popped (st : PqState) (rest : list (PQ.QueueElement Coord)) : PqState :=
  mkPq (PQ.mkQueue rest) (visited st) (cumulatedCost st).

(** What [dijkstra] keeps true besides [PqInv]: a queued cell waits with
    its recorded cost as priority, and no walk from the start cell is
    cheaper than a recorded cost. *)
Definition DijkstraInv (m : Map) (st : PqState) : Prop :=
  (∀ e, e ∈ PQ.queue (frontier st) →
     cumulatedCost st !! key (PQ.element e) = Some (PQ.priority e))
  ∧ (∀ c d, cumulatedCost st !! key c = Some d →
       ∀ l, Walk m (startCell m) l c → d ≤ pathCost m l).

(** The cost recorded for the exit cell is the least cost of a walk from
    the start cell to it. *)
Definition costMinimal (m : Map) (st : PqState) : Prop :=
  ∃ d, cumulatedCost st !! key (endCell m) = Some d
       ∧ (∃ l, Walk m (startCell m) l (endCell m) ∧ pathCost m l = d)
       ∧ (∀ l, Walk m (startCell m) l (endCell m) → d ≤ pathCost m l).

(** In state [st] the queue holds no cell twice, and every neighbour the
    loop of the next callback goes through is a key of neither map. *)
Definition admitsOnlyFresh (m : Map) (st : PqState) : Prop :=
  NoDup (cellsOf st)
  ∧ ∀ item rest, PQ.queue (frontier st) = item :: rest →
      ∀ c, c ∈ findNeighbors m (PQ.element item).1 (PQ.element item).2 (visited st) →
        has (visited st) (key c) = false ∧ has (cumulatedCost st) (key c) = false.

(** What [st] records for a coordinate, cost and origin, [st'] records
    too, unchanged. *)
Definition keepsRecords (st st' : PqState) : Prop :=
  (∀ k d, cumulatedCost st !! k = Some d → cumulatedCost st' !! k = Some d)
  ∧ (∀ k origin, visited st !! k = Some origin → visited st' !! k = Some origin).

(* ================================================================== *)
(** ** Checks on a concrete grid, and the grids used *)
(* ================================================================== *)

(** Every passable cell of the grid weighs at least [w]. *)
Definition weightsAtLeast (w : Z) (m : Map) : bool :=
  forallb (λ c, negb (validate m c.1 c.2) || (w <=? findCost (grid m) c)) (cells m).

(** [l] is a walk from [a]: the cell it ends in, if so. *)
Fixpoint walkEnd (m : Map) (a : Coord) (l : list Coord) : option Coord :=
  match l with
  | [] => Some a
  | c :: l' =>
      if bool_decide (adjacent a c) && validate m c.1 c.2 then walkEnd m c l' else None
  end.

(** [region] holds the start cell, not the exit cell, and every valid
    neighbour of each of its cells. *)
Definition encloses (m : Map) (region : list Coord) : bool :=
  bool_decide (startCell m ∈ region) && bool_decide (endCell m ∉ region)
  && forallb (λ c, forallb (λ c', negb (validate m c'.1 c'.2) || bool_decide (c' ∈ region))
                     (canonical c.1 c.2)) region.

(** A cell of the given weight: an obstacle when the weight is negative
    (as [setWeights] has it), plain for weight 1, forest otherwise. *)
Definition cellOfWeight (w : Z) : Cell :=
  if w <? 0 then mkCell "obstacle" w
  else if w =? 1 then mkCell "plain" w else mkCell "forest" w.

(** A grid from the weights of its cells, row by row. *)
Definition gridOfWeights (rows : list (list Z)) : list (list Cell) :=
  (λ row : list Z, cellOfWeight <$> row) <$> rows.

(** A 4 × 4 grid with a ridge of weight 3; start [(1,3)], exit [(1,0)]. *)
Definition hills : Map :=
  mkMap 4 (1, 3) (1, 0)
    (gridOfWeights [[1; 1; 1; 1]; [1; 3; 3; 1]; [3; 3; 1; 1]; [1; 1; 1; 1]]).

(** A 3 × 3 grid whose exit cell [(2,2)] is shut in by two obstacles. *)
Definition walled : Map :=
  mkMap 3 (0, 0) (2, 2) (gridOfWeights [[1; 1; 1]; [1; 1; -1]; [1; -1; 1]]).

(** The cells of [walled] one can walk to from its start cell. *)
Definition walledRegion : list Coord :=
  [(0, 0); (0, 1); (0, 2); (1, 0); (1, 1); (2, 0)].

(** Weight of the cell an array of a path names. *)
Definition weightAt (g : list (list Cell)) (a : list Z) : Z :=
  match a with
  | [x; y] => findCost g (x, y)
  | _ => 0
  end.

(** Sum of the weights of the cells entered along a path as
    [pathReconstruct] returns it: all its cells but the last, the start. *)
Definition travelCost (g : list (list Cell)) (path : list (list Z)) : Z :=
  foldr (λ a s, weightAt g a + s) 0 (removelast path).

(* ================================================================== *)
(** ** The priority queue as a whole *)
(* ================================================================== *)

(** The elements a sequence of calls enqueues, in order. *)
Fixpoint enqueued {A : Type} (calls : list (PQ.Call A)) : list (PQ.QueueElement A) :=
  match calls with
  | [] => []
  | PQ.Enqueue a p :: cs => PQ.mkElement a p :: enqueued cs
  | PQ.Dequeue :: cs => enqueued cs
  end.

(** The elements a trace of [dequeue] answers returned, in order. *)
Fixpoint returned {A : Type} (trace : list (Completion (PQ.QueueElement A)))
  : list (PQ.QueueElement A) :=
  match trace with
  | [] => []
  | Return e :: rs => e :: returned rs
  | Throw _ :: rs => returned rs
  end.

(** [enqueue] of every item of a list, first item first. *)
Definition enqueueAll {A : Type} (items : list (PQ.QueueElement A))
    (q : PQ.PriorityQueue A) : PQ.PriorityQueue A :=
  foldl (λ q e, PQ.enqueue q (PQ.element e) (PQ.priority e)) q items.

(** What [n] calls of [dequeue] return, up to the first that throws. *)
Fixpoint drain {A : Type} (n : nat) (q : PQ.PriorityQueue A) : list (PQ.QueueElement A) :=
  match n with
  | O => []
  | S k =>
      match PQ.dequeue q with
      | (Return e, q') => e :: drain k q'
      | (Throw _, _) => []
      end
  end.

(** Lower or equal priority. *)
Definition leq {A : Type} (e e' : PQ.QueueElement A) : Prop :=
  PQ.priority e ≤ PQ.priority e'.

(** The elements of priority [p], in the order of the list. *)
Definition ofPriority {A : Type} (p : Z) (l : list (PQ.QueueElement A))
  : list (PQ.QueueElement A) :=
  filter (λ e, PQ.priority e = p) l.

(* ================================================================== *)
(** ** The tree of origins *)
(* ================================================================== *)

(** [Route m visited l c]: [l] is a walk from the start cell to [c] that
    never comes back to the start cell, and [visited] records for each
    cell entered the cell it was entered from.  These are the links
    [pathReconstruct] follows, read from the other end. *)
Inductive Route (m : Map) (visited : gmap string (list Z)) : list Coord → Coord → Prop :=
  | Route_start : Route m visited [] (startCell m)
  | Route_step l p c :
      Route m visited l p → c ≠ startCell m →
      visited !! key c = Some (arr p) →
      adjacent p c → validate m c.1 c.2 = true →
      Route m visited (l ++ [c]) c.

(** The path of the walk [l] as [pathReconstruct] returns it: last cell
    entered first, start cell last. *)
Definition pathOf (m : Map) (l : list Coord) : list (list Z) :=
  arr <$> reverse (startCell m :: l).

(** Every visited cell has a route that enters no cell twice, of which
    [P] holds. *)
Definition TreeInv (m : Map) (visited : gmap string (list Z))
    (P : list Coord → Coord → Prop) : Prop :=
  ∀ c, key c ∈ dom visited → ∃ l, Route m visited l c ∧ NoDup l ∧ P l c.

(** The cost recorded for [c] is the cost of the walk [l]. *)
Definition recorded (m : Map) (st : PqState) (l : list Coord) (c : Coord) : Prop :=
  cumulatedCost st !! key c = Some (pathCost m l).

(* ================================================================== *)
(** ** Breadth-first search and Dijkstra side by side *)
(* ================================================================== *)

(** The grid of [m] with every weight set to 1 and the terrain kept. *)
Definition unitMap (m : Map) : Map :=
  withGrid m ((λ row : list Cell, (λ c, mkCell (type c) 1) <$> row) <$> grid m).

(** [bfs] in state [sb] and [dijkstra] in state [sp] are at the same
    point: the same cells wait in the same order, the visited maps are
    the same; besides, the queue of [dijkstra] is sorted, every cell
    waits with its recorded cost as priority, and these priorities are
    [b] or [b + 1]. *)
Definition Lockstep (b : Z) (sb : BfsState) (sp : PqState) : Prop :=
  bfs_frontier sb = cellsOf sp ∧ bfs_visited sb = visited sp
  ∧ dom (cumulatedCost sp) = dom (visited sp)
  ∧ StronglySorted leq_priority (PQ.queue (frontier sp))
  ∧ ∀ e, e ∈ PQ.queue (frontier sp) →
      cumulatedCost sp !! key (PQ.element e) = Some (PQ.priority e)
      ∧ b ≤ PQ.priority e ≤ b + 1.

(* ================================================================== *)
(** ** How a search ends *)
(* ================================================================== *)

(** The run [r] ended, and it popped the exit cell exactly if the exit
    cell can be reached from the start cell. *)
Definition foundIffReachable (m : Map) {St : Type}
    (r : option (Completion (Terminal * St))) : Prop :=
  (Reachable m (startCell m) (endCell m) ∧ terminal r = Some Found)
  ∨ (¬ Reachable m (startCell m) (endCell m) ∧ terminal r = Some Exhausted).

(** The keys of [visited] are the cells one can walk to from the start
    cell. *)
Definition floods (m : Map) (visited : gmap string (list Z)) : Prop :=
  ∀ c, key c ∈ dom visited ↔ Reachable m (startCell m) c.

(** Every cell with a key in [visited] can be walked to from the start
    cell; so it is the start cell or a cell [validate] accepts. *)
Definition onlyReachable (m : Map) (visited : gmap string (list Z)) : Prop :=
  ∀ c, key c ∈ dom visited →
    Reachable m (startCell m) c ∧ (c = startCell m ∨ validate m c.1 c.2 = true).

(* ================================================================== *)
(** ** Least costs and the order of the pops *)
(* ================================================================== *)

(** [d] is the least cost of a walk from the start cell to [c]. *)
Definition leastCost (m : Map) (c : Coord) (d : Z) : Prop :=
  (∃ l, Walk m (startCell m) l c ∧ pathCost m l = d)
  ∧ ∀ l, Walk m (startCell m) l c → d ≤ pathCost m l.


(* ================================================================== *)
(** ** Weights as the grid holds them *)
(* ================================================================== *)

(** The weight the grid holds for the cell [c]: the [weight] field of the
    entry in row [c.1], column [c.2]; 0 where the grid has no such entry.
    This is read off the grid, not through [findCost]. *)
Definition weightOf (m : Map) (c : Coord) : Z :=
  match grid m !! Z.to_nat c.1 with
  | Some row =>
      match row !! Z.to_nat c.2 with
      | Some cell => weight cell
      | None => 0
      end
  | None => 0
  end.

(** Sum of the weights the grid holds for the cells a walk enters. *)
Definition walkWeight (m : Map) (l : list Coord) : Z :=
  foldr (λ c s, weightOf m c + s) 0 l.

(** Sum of the weights the grid holds for the cells of a returned path,
    the last one (the start cell) left out. *)
Definition pathWeight (m : Map) (path : list (list Z)) : Z :=
  foldr (λ a s, match a with [x; y] => weightOf m (x, y) + s | _ => s end) 0
        (removelast path).

(** Every cell [validate] accepts has a weight of at least [w] in the
    grid. *)
Definition weighsAtLeast (w : Z) (m : Map) : bool :=
  forallb (λ c, negb (validate m c.1 c.2) || (w <=? weightOf m c)) (cells m).

(** A run of calls whose dequeues return priorities that never
    decrease. *)
Definition dequeuesNonDecreasing {A : Type} (calls : list (PQ.Call A)) : Prop :=
  StronglySorted Z.le (PQ.priority <$> returned (PQ.run calls PQ.empty).1).

(** How a whole call ended, [r] being the run of its callbacks and
    [answer] what the call left: the exit cell was popped and a path is
    returned, when the exit cell can be reached from the start cell; the
    frontier ran dry and the last callback threw a [TypeError], when it
    cannot. *)
Definition endsAsReachable (m : Map) {St : Type}
    (r : option (Completion (Terminal * St)))
    (answer : option (Completion (list (list Z)))) : Prop :=
  (Reachable m (startCell m) (endCell m) ∧ terminal r = Some Found
   ∧ ∃ path, answer = Some (Return path))
  ∨ (¬ Reachable m (startCell m) (endCell m) ∧ terminal r = Some Exhausted
     ∧ answer = Some (Throw TypeError)).

(* ================================================================== *)
(** * Properties                                                        *)
(* ================================================================== *)

(** ** Keys: [[x,y].toString()] identifies the coordinate *)

Section Keys.

Lemma pretty_N_char_no_comma (d : N) : Ascii.eqb (pretty_N_char d) ","%char = false.
Proof. unfold pretty_N_char. by repeat case_match. Qed.

Lemma pretty_N_go_comma_free (x : N) (s : string) :
  comma_free s = true → comma_free (pretty_N_go x s) = true.
Proof.
  revert s. induction (N.lt_wf_0 x) as [x _ IH]; intros s Hs.
  destruct (decide (x = 0%N)) as [->|Hx]; [by rewrite pretty_N_go_0|].
  rewrite pretty_N_go_step by lia.
  apply IH; [apply N.div_lt; lia|].
  simpl. by rewrite pretty_N_char_no_comma.
Qed.

Lemma pretty_N_comma_free (x : N) : comma_free (pretty x) = true.
Proof.
  unfold pretty, pretty_N. case_decide; [done|].
  by apply pretty_N_go_comma_free.
Qed.

Lemma pretty_Z_comma_free (z : Z) : comma_free (pretty z) = true.
Proof.
  destruct z as [|p|p]; unfold pretty, pretty_Z; [done| |].
  - apply pretty_N_comma_free.
  - simpl. apply pretty_N_comma_free.
Qed.

(** Two strings that agree up to their first comma. *)
Lemma comma_split (s1 s2 t1 t2 : string) :
  comma_free s1 = true → comma_free s2 = true →
  s1 +:+ "," +:+ t1 = s2 +:+ "," +:+ t2 → s1 = s2 ∧ t1 = t2.
Proof.
  revert s2. induction s1 as [|a s1 IH]; intros [|b s2] H1 H2 Heq; simpl in *.
  - by inversion Heq.
  - inversion Heq; subst. by rewrite Ascii.eqb_refl in H2.
  - inversion Heq; subst. by rewrite Ascii.eqb_refl in H1.
  - inversion Heq; subst.
    apply andb_true_iff in H1 as [_ H1]. apply andb_true_iff in H2 as [_ H2].
    destruct (IH s2 H1 H2) as [-> ->]; done.
Qed.

Lemma key_unfold (c : Coord) : key c = pretty c.1 +:+ "," +:+ pretty c.2.
Proof. reflexivity. Qed.

Lemma key_inj (c c' : Coord) : key c = key c' → c = c'.
Proof.
  rewrite !key_unfold. intros Heq.
  apply comma_split in Heq as [H1 H2]; auto using pretty_Z_comma_free.
  apply (inj pretty) in H1. apply (inj pretty) in H2.
  destruct c, c'; simpl in *; congruence.
Qed.

Lemma key_ne (c c' : Coord) : c ≠ c' → key c ≠ key c'.
Proof. intros Hne Heq. by apply Hne, key_inj. Qed.

Lemma equals_arr (c c' : Coord) : equals (arr c) (arr c') = true ↔ c = c'.
Proof.
  unfold equals, arr. destruct c as [x y], c' as [x' y']; simpl.
  rewrite andb_true_iff, !bool_decide_eq_true. split.
  - intros [[= ->] [= ->]]. done.
  - intros [= -> ->]. done.
Qed.

Lemma equals_arr_false (c c' : Coord) : equals (arr c) (arr c') = false ↔ c ≠ c'.
Proof. rewrite <- equals_arr. by destruct (equals _ _). Qed.

End Keys.

(* ================================================================== *)
(** ** The priority queue                                               *)
(* ================================================================== *)

Section QueueFacts.
Context {A : Type}.
Implicit Types (q : PQ.PriorityQueue A) (l : list (PQ.QueueElement A)).

Lemma isEmpty_true q : PQ.isEmpty q = true ↔ PQ.queue q = [].
Proof.
  unfold PQ.isEmpty. rewrite Z.eqb_eq. destruct (PQ.queue q); simpl; split; (done || lia).
Qed.

Lemma isEmpty_false q : PQ.isEmpty q = false ↔ PQ.queue q ≠ [].
Proof. rewrite <- isEmpty_true. by destruct (PQ.isEmpty q). Qed.

Lemma dequeue_cons (e : PQ.QueueElement A) l :
  PQ.dequeue (PQ.mkQueue (e :: l)) = (Return e, PQ.mkQueue l).
Proof. reflexivity. Qed.

Lemma dequeue_Return q e q' :
  PQ.dequeue q = (Return e, q') ↔ PQ.queue q = e :: PQ.queue q'.
Proof.
  destruct q as [[|e0 l]], q' as [l']; simpl; split; intros H;
    try discriminate; inversion H; subst; reflexivity.
Qed.

Lemma insert_item_Forall (P : PQ.QueueElement A → Prop) item l :
  Forall P (PQ.insert_item item l) ↔ P item ∧ Forall P l.
Proof.
  induction l as [|e l IH]; simpl.
  - rewrite Forall_singleton. intuition.
  - case_match; rewrite !Forall_cons; [|rewrite IH]; intuition.
Qed.

Lemma insert_item_elem_of (x item : PQ.QueueElement A) l :
  x ∈ PQ.insert_item item l ↔ x = item ∨ x ∈ l.
Proof.
  induction l as [|e l IH]; simpl.
  - set_solver.
  - case_match; rewrite !elem_of_cons; [|rewrite IH]; tauto.
Qed.

Lemma insert_item_length item l :
  length (PQ.insert_item item l) = S (length l).
Proof. induction l as [|e l IH]; simpl; [done|]. case_match; simpl; congruence. Qed.

Lemma insert_item_Permutation item l : PQ.insert_item item l ≡ₚ item :: l.
Proof.
  induction l as [|e l IH]; simpl; [done|]. case_match; [done|].
  rewrite IH. apply Permutation_swap.
Qed.

(** Insertion keeps any order that agrees with the priorities, as long
    as the new item may follow what was stored with a priority not above
    its own. *)
Lemma insert_item_sorted (R : relation (PQ.QueueElement A)) item l :
  (∀ e e', R e e' → PQ.priority e ≤ PQ.priority e') →
  (∀ e e', PQ.priority e < PQ.priority e' → R e e') →
  (∀ e, e ∈ l → PQ.priority e ≤ PQ.priority item → R e item) →
  StronglySorted R l → StronglySorted R (PQ.insert_item item l).
Proof.
  intros Hle Hlt. induction l as [|e l IH]; intros Hitem Hs; simpl.
  - repeat constructor.
  - apply StronglySorted_inv in Hs as [Hs He].
    destruct (Z.gtb_spec (PQ.priority e) (PQ.priority item)) as [Hgt|Hngt].
    + constructor; [by constructor|].
      constructor; [by apply Hlt|].
      eapply Forall_impl; [exact He|]. intros e' HR. apply Hlt.
      specialize (Hle _ _ HR). lia.
    + constructor.
      * apply IH; [|done]. intros e' ? ?. apply Hitem; [set_solver|done].
      * apply insert_item_Forall. split; [|done].
        apply Hitem; [set_solver|lia].
Qed.

End QueueFacts.

Section NumberedQueue.
Context {A : Type}.
Implicit Types (q : PQ.PriorityQueue (nat * A)).

Lemma before_le (e e' : PQ.QueueElement (nat * A)) :
  before e e' → PQ.priority e ≤ PQ.priority e'.
Proof. unfold before. lia. Qed.

Lemma ordered_empty k : ordered (A:=A) k PQ.empty.
Proof. split; constructor. Qed.

Lemma ordered_enqueue k q a p :
  ordered k q → ordered (S k) (PQ.enqueue q (k, a) p).
Proof.
  intros [Hs Hk]. split; simpl.
  - apply insert_item_sorted; [apply before_le|by left| |done].
    intros e He Hp. rewrite Forall_forall in Hk. specialize (Hk e He).
    unfold before, enqueuedAt in *. simpl in *. lia.
  - apply insert_item_Forall. split; [unfold enqueuedAt; simpl; lia|].
    eapply Forall_impl; [exact Hk|]. simpl. lia.
Qed.

Lemma ordered_dequeue k q :
  ordered k q → ordered k (PQ.dequeue q).2.
Proof.
  intros [Hs Hk]. destruct q as [[|e l]]; [by split|].
  rewrite dequeue_cons. simpl in *.
  apply StronglySorted_inv in Hs as [Hs _]. apply Forall_cons in Hk as [_ Hk].
  by split.
Qed.

(** Whatever calls were made, the queue is ordered by priority and, among
    equal priorities, by enqueue number. *)
Lemma ordered_run (calls : list (PQ.Call A)) k q :
  ordered k q → ∃ k', ordered k' (PQ.run (number k calls) q).2.
Proof.
  revert k q. induction calls as [|[a p|] cs IH]; intros k q Hq; simpl.
  - by exists k.
  - apply (IH (S k)). by apply ordered_enqueue.
  - pose proof (ordered_dequeue k q Hq) as Hq'.
    destruct (PQ.dequeue q) as [r q'] eqn:Hd. simpl in Hq'.
    destruct (IH k q' Hq') as [k' Hk'].
    destruct (PQ.run (number k cs) q') as [rs q''] eqn:Hr.
    by exists k'.
Qed.

Lemma insert_item_unnumber (item : PQ.QueueElement (nat * A)) l :
  unnumber <$> PQ.insert_item item l = PQ.insert_item (unnumber item) (unnumber <$> l).
Proof.
  induction l as [|e l IH]; simpl; [done|].
  change (PQ.priority (unnumber e)) with (PQ.priority e).
  change (PQ.priority (unnumber item)) with (PQ.priority item).
  destruct (PQ.priority e >? PQ.priority item); [done|].
  rewrite fmap_cons. f_equal. exact IH.
Qed.

End NumberedQueue.

Section QueueClaims.
Context {A : Type}.

(** Numbering the enqueues is invisible: erasing the numbers from the
    trace and from the final queue gives the run of the calls as made. *)
Lemma run_number_erase (calls : list (PQ.Call A)) k (q : PQ.PriorityQueue (nat * A)) :
  PQ.run calls (PQ.mkQueue (unnumber <$> PQ.queue q))
  = (completion_map unnumber <$> (PQ.run (number k calls) q).1,
     PQ.mkQueue (unnumber <$> PQ.queue (PQ.run (number k calls) q).2)).
Proof.
  revert k q. induction calls as [|[a p|] cs IH]; intros k q; simpl.
  - done.
  - rewrite <- (IH (S k)). unfold PQ.enqueue at 1. simpl.
    by rewrite insert_item_unnumber.
  - destruct q as [[|e l]].
    + specialize (IH k (PQ.mkQueue [])).
      change (PQ.dequeue (PQ.mkQueue (unnumber <$> PQ.queue (PQ.mkQueue (A:=nat * A) []))))
        with (Throw (A:=PQ.QueueElement A) EmptyQueue, PQ.mkQueue (A:=A) []).
      change (PQ.dequeue (PQ.mkQueue (A:=nat * A) []))
        with (Throw (A:=PQ.QueueElement (nat * A)) EmptyQueue, PQ.mkQueue (A:=nat * A) []).
      simpl in IH. cbv iota beta. rewrite IH.
      by destruct (PQ.run (number k cs) (PQ.mkQueue [])).
    + specialize (IH k (PQ.mkQueue l)).
      change (PQ.dequeue (PQ.mkQueue (unnumber <$> PQ.queue (PQ.mkQueue (e :: l)))))
        with (Return (unnumber e), PQ.mkQueue (unnumber <$> l)).
      rewrite dequeue_cons. simpl in IH. cbv iota beta. rewrite IH.
      by destruct (PQ.run (number k cs) (PQ.mkQueue l)).
Qed.

(** C3.  After every sequence of [enqueue] and [dequeue] calls on a new
    queue, the next [dequeue] returns an element whose priority is
    minimal among the stored ones; every stored element of the same
    priority was enqueued after it (ties leave in enqueue order); and a
    [dequeue] made directly after it returns a priority that is not
    lower. *)
Theorem dequeue_order (calls : list (PQ.Call A)) q e q1 :
  q = (PQ.run (number 0 calls) PQ.empty).2 →
  PQ.dequeue q = (Return e, q1) →
  (∀ e', e' ∈ PQ.queue q → PQ.priority e ≤ PQ.priority e')
  ∧ (∀ e', e' ∈ PQ.queue q1 → PQ.priority e' = PQ.priority e →
       (enqueuedAt e < enqueuedAt e')%nat)
  ∧ (∀ e2 q2, PQ.dequeue q1 = (Return e2, q2) → PQ.priority e ≤ PQ.priority e2).
Proof.
  intros -> Hd.
  destruct (ordered_run calls 0 PQ.empty (ordered_empty 0)) as [k [Hs _]].
  apply dequeue_Return in Hd. rewrite Hd in Hs |- *.
  apply StronglySorted_inv in Hs as [_ He]. rewrite Forall_forall in He.
  split; [|split].
  - intros e' [->|Hin]%elem_of_cons; [lia|]. by apply before_le, He.
  - intros e' Hin Hp. destruct (He e' Hin) as [?|[_ ?]]; [lia|done].
  - intros e2 q2 Hd2. apply dequeue_Return in Hd2.
    apply before_le, He. rewrite Hd2. by left.
Qed.

(** C4.  On an empty queue [dequeue] throws and returns nothing, and the
    queue is as it was. *)
Theorem dequeue_empty (q : PQ.PriorityQueue A) :
  PQ.isEmpty q = true → PQ.dequeue q = (Throw EmptyQueue, q).
Proof. intros H. unfold PQ.dequeue. by rewrite H. Qed.

End QueueClaims.

Lemma dequeue_order_witness :
  let calls := [PQ.Enqueue "a" 2; PQ.Enqueue "b" 1; PQ.Enqueue "c" 2;
                PQ.Enqueue "d" 7; PQ.Dequeue] in
  let q := PQ.mkQueue [PQ.mkElement (0%nat, "a") 2; PQ.mkElement (2%nat, "c") 2;
                       PQ.mkElement (3%nat, "d") 7] in
  let e := PQ.mkElement (0%nat, "a") 2 in
  let q1 := PQ.mkQueue [PQ.mkElement (2%nat, "c") 2; PQ.mkElement (3%nat, "d") 7] in
  (∀ e', e' ∈ PQ.queue q → PQ.priority e ≤ PQ.priority e')
  ∧ (∀ e', e' ∈ PQ.queue q1 → PQ.priority e' = PQ.priority e →
       (enqueuedAt e < enqueuedAt e')%nat)
  ∧ (∀ e2 q2, PQ.dequeue q1 = (Return e2, q2) → PQ.priority e ≤ PQ.priority e2).
Proof.
  intros calls q e q1.
  apply (dequeue_order calls q e q1); reflexivity.
Defined.

(** C3, counterexample.  With an [enqueue] between two [dequeue] calls
    the priorities returned can decrease: [enqueue(a, 5)], [dequeue],
    [enqueue(b, 1)], [dequeue] returns [a] with priority 5 and then [b]
    with priority 1. *)
Lemma dequeue_order_enqueue_between :
  let calls := [PQ.Enqueue "a" 5; PQ.Dequeue; PQ.Enqueue "b" 1; PQ.Dequeue] in
  PQ.run calls PQ.empty
  = ([Return (PQ.mkElement "a" 5); Return (PQ.mkElement "b" 1)], PQ.empty)
  ∧ ¬ dequeuesNonDecreasing calls.
Proof.
  intros calls. split; [reflexivity|].
  unfold dequeuesNonDecreasing. simpl. intros Hs.
  apply StronglySorted_inv in Hs as [_ Hhead].
  apply Forall_cons in Hhead as [Hle _]. lia.
Qed.

Lemma dequeue_empty_witness :
  PQ.dequeue (PQ.empty (A:=Coord)) = (Throw EmptyQueue, PQ.empty).
Proof. apply (dequeue_empty PQ.empty). reflexivity. Defined.

(* ================================================================== *)
(** ** Neighbour expansion                                              *)
(* ================================================================== *)

Section Neighbours.
Implicit Types (m : Map) (visited : gmap string (list Z)) (c : Coord).

Lemma has_true {V} (mp : gmap string V) k : has mp k = true ↔ k ∈ dom mp.
Proof. unfold has. by rewrite bool_decide_eq_true, elem_of_dom. Qed.

Lemma has_false {V} (mp : gmap string V) k : has mp k = false ↔ mp !! k = None.
Proof.
  unfold has. rewrite bool_decide_eq_false, <- eq_None_not_Some. done.
Qed.

Lemma validate_passable m c :
  validate m c.1 c.2 = (isBound m c.1 c.2 && passable m c).
Proof. reflexivity. Qed.

Lemma visitCell_admits m visited x y :
  visitCell m x y visited = admits m visited (x, y).
Proof.
  unfold visitCell, admits, validate, passable. simpl. f_equal.
  destruct (has visited (key (x, y))) eqn:Hh; symmetry.
  - apply has_true in Hh. by apply bool_decide_eq_false; intros [].
  - apply bool_decide_eq_true. rewrite has_false in Hh. by apply not_elem_of_dom.
Qed.

Lemma rem2_even (a : Z) : (Z.rem a 2 =? 0) = Z.even a.
Proof.
  destruct (Z.even a) eqn:He.
  - apply Z.eqb_eq. apply Z.even_spec in He as [k ->].
    rewrite Z.mul_comm. apply Z.rem_mul. lia.
  - apply Z.eqb_neq. intros Hr.
    assert (Z.even a = true) as Hc; [|congruence].
    apply Z.even_spec. exists (Z.quot a 2).
    pose proof (Z.quot_rem' a 2). lia.
Qed.

(** Up to their order, the neighbours returned are the admitted ones among
    the four. *)
Lemma findNeighbors_Permutation m x y visited :
  findNeighbors m x y visited ≡ₚ filter (λ c, admits m visited c = true) (canonical x y).
Proof.
  unfold findNeighbors. rewrite !visitCell_admits.
  unfold canonical. rewrite !filter_cons, filter_nil.
  destruct (Z.rem (x + y) 2 =? 0); [rewrite reverse_Permutation|];
    destruct (admits m visited (x - 1, y)), (admits m visited (x + 1, y)),
      (admits m visited (x, y - 1)), (admits m visited (x, y + 1)); reflexivity.
Qed.

(** C5.  [findNeighbors] returns those of the four neighbours that are in
    bounds, passable and not yet keys of the visited map, in the order
    left, right, up, down when [x + y] is odd and in the reverse order
    when it is even. *)
Theorem findNeighbors_order m x y visited :
  findNeighbors m x y visited =
    if Z.odd (x + y)
    then filter (λ c, admits m visited c = true) (canonical x y)
    else reverse (filter (λ c, admits m visited c = true) (canonical x y)).
Proof.
  unfold findNeighbors. rewrite rem2_even, <- Z.negb_odd, !visitCell_admits.
  unfold canonical. rewrite !filter_cons, filter_nil.
  destruct (admits m visited (x - 1, y)), (admits m visited (x + 1, y)),
    (admits m visited (x, y - 1)), (admits m visited (x, y + 1)),
    (Z.odd (x + y)); reflexivity.
Qed.

Lemma findNeighbors_elem_of m x y visited c :
  c ∈ findNeighbors m x y visited ↔
  adjacent (x, y) c ∧ validate m c.1 c.2 = true ∧ key c ∉ dom visited.
Proof.
  rewrite findNeighbors_Permutation, list_elem_of_filter.
  unfold admits, adjacent. rewrite validate_passable.
  rewrite andb_true_iff, bool_decide_eq_true. simpl. tauto.
Qed.

Lemma canonical_NoDup x y : NoDup (canonical x y).
Proof.
  unfold canonical. repeat (apply NoDup_cons; split); try apply NoDup_nil_2;
    rewrite ?elem_of_cons, ?elem_of_nil; intros H;
    repeat (destruct H as [H|H]); try done; inversion H; lia.
Qed.

Lemma findNeighbors_NoDup m x y visited : NoDup (findNeighbors m x y visited).
Proof.
  rewrite findNeighbors_Permutation. apply NoDup_filter, canonical_NoDup.
Qed.

Lemma adjacent_sym c c' : adjacent c c' → adjacent c' c.
Proof.
  unfold adjacent, canonical. destruct c as [x y], c' as [x' y']; simpl.
  rewrite !elem_of_cons, !elem_of_nil.
  intros [H|[H|[H|[H|[]]]]]; inversion H; subst.
  - right; left; f_equal; lia.
  - left; f_equal; lia.
  - right; right; right; left; f_equal; lia.
  - right; right; left; f_equal; lia.
Qed.

(** A well-formed grid has an entry wherever [isBound] holds. *)
Lemma gridAt_wf m x y :
  wf_map m = true → isBound m x y = true → is_Some (gridAt (grid m) x y).
Proof.
  unfold wf_map, isBound, gridAt.
  rewrite !andb_true_iff, bool_decide_eq_true, forallb_forall.
  intros [Hlen Hrows] [[[Hx Hy] Hx'] Hy'].
  assert (0 ≤ x < mapSize m ∧ 0 ≤ y < mapSize m) as [??] by lia.
  rewrite (proj2 (Z.leb_le 0 x)), (proj2 (Z.leb_le 0 y)) by lia. simpl.
  destruct (lookup_lt_is_Some_2 (grid m) (Z.to_nat x)) as [row Hrow]; [lia|].
  rewrite Hrow. simpl. apply lookup_lt_is_Some_2.
  assert (In row (grid m)) as Hin.
  { apply list_elem_of_In, list_elem_of_lookup. eauto. }
  specialize (Hrows row Hin). apply bool_decide_eq_true in Hrows. lia.
Qed.

End Neighbours.

(* ================================================================== *)
(** ** Path reconstruction                                              *)
(* ================================================================== *)

Section PathReconstruct.
Implicit Types (visited : gmap string (list Z)) (m : Map).

Lemma pathReconstruct_loop_Chain visited m current l :
  Chain visited (arr (startCell m)) current l →
  ∀ fuel endPath, (length l < fuel)%nat →
    pathReconstruct_loop fuel visited m current endPath
    = Some (Return (endPath ++ l ++ [arr (startCell m)])).
Proof.
  induction 1 as [current Heq|current previous l Hne Hlk _ IH];
    intros [|fuel] endPath Hfuel; simpl in *; try lia.
  - by rewrite Heq.
  - rewrite Hne, Hlk, IH by lia. by rewrite <- app_assoc.
Qed.

Lemma pathReconstruct_loop_Return visited m fuel :
  ∀ current endPath p,
    pathReconstruct_loop fuel visited m current endPath = Some (Return p) →
    ∃ l, p = endPath ++ l ++ [arr (startCell m)]
         ∧ Chain visited (arr (startCell m)) current l.
Proof.
  induction fuel as [|fuel IH]; intros current endPath p; simpl; [done|].
  destruct (equals current (arr (startCell m))) eqn:Heq.
  - intros [= <-]. exists []. split; [done|by constructor].
  - destruct (visited !! toString current) as [previous|] eqn:Hlk; [|done].
    intros (l & -> & Hl)%IH. exists (current :: l).
    split; [by rewrite <- app_assoc|]. by econstructor.
Qed.

Lemma pathReconstruct_loop_Trapped visited m P :
  Trapped visited (arr (startCell m)) P →
  ∀ fuel current endPath, P current →
    pathReconstruct_loop fuel visited m current endPath = None.
Proof.
  intros HP. induction fuel as [|fuel IH]; intros current endPath Hc; [done|].
  simpl. destruct (HP _ Hc) as (-> & previous & -> & Hprev). by apply IH.
Qed.

Lemma pathReconstruct_loop_Throw visited m fuel :
  ∀ current endPath e,
    pathReconstruct_loop fuel visited m current endPath = Some (Throw e) →
    e = TypeError.
Proof.
  induction fuel as [|fuel IH]; intros current endPath e; simpl; [done|].
  repeat case_match; try done; [apply IH|congruence].
Qed.

(** Enough fuel: more fuel does not change an answer. *)
Lemma pathReconstruct_loop_mono visited m fuel :
  ∀ current endPath r,
    pathReconstruct_loop fuel visited m current endPath = Some r →
    pathReconstruct_loop (S fuel) visited m current endPath = Some r.
Proof.
  induction fuel as [|fuel IH]; intros current endPath r; [done|].
  intros H. simpl in H. change (pathReconstruct_loop (S (S fuel)) visited m current endPath)
    with (if equals current (arr (startCell m))
          then Some (Return (endPath ++ [arr (startCell m)]))
          else match visited !! toString current with
               | Some previous =>
                   pathReconstruct_loop (S fuel) visited m previous (endPath ++ [current])
               | None => Some (Throw TypeError)
               end).
  repeat case_match; try done. by apply IH.
Qed.

(** C6 as the code has it.  [pathReconstruct] follows the links without
    any bound on their number: when they reach the start, after however
    many steps, it returns the cells passed followed by the start; when
    they stay for ever among cells that are not the start, it never
    returns and raises nothing. *)
Theorem pathReconstruct_unbounded visited m :
  (∀ l, Chain visited (arr (startCell m)) (arr (endCell m)) l →
     ∀ fuel, (length l < fuel)%nat →
       pathReconstruct fuel visited m = Some (Return (l ++ [arr (startCell m)])))
  ∧ (∀ P, Trapped visited (arr (startCell m)) P → P (arr (endCell m)) →
       ∀ fuel, pathReconstruct fuel visited m = None).
Proof.
  split.
  - intros l Hl fuel Hfuel. unfold pathReconstruct.
    by rewrite (pathReconstruct_loop_Chain _ _ _ _ Hl).
  - intros P HP Hgoal fuel. by eapply pathReconstruct_loop_Trapped.
Qed.

End PathReconstruct.

Lemma loopVisited_Trapped : Trapped loopVisited (arr (startCell loopMap)) onLoop.
Proof.
  intros c [->| ->]; (split; [reflexivity|]).
  - exists [1; 0]. split; [reflexivity|by right].
  - exists [1; 1]. split; [reflexivity|by left].
Qed.

(** C6, counterexample.  On [loopVisited] the links from the exit cell
    never reach the start, within 2 × 2 steps or later, and yet the
    reconstruction neither returns nor fails: it is still looping after any
    number of iterations. *)
Lemma pathReconstruct_no_bound :
  (∀ l, ¬ Chain loopVisited (arr (startCell loopMap)) (arr (endCell loopMap)) l)
  ∧ ∀ fuel, pathReconstruct fuel loopVisited loopMap = None.
Proof.
  assert (∀ fuel, pathReconstruct fuel loopVisited loopMap = None) as Hloop.
  { intros fuel. eapply pathReconstruct_loop_Trapped; [apply loopVisited_Trapped|by left]. }
  split; [|done]. intros l Hl.
  pose proof (pathReconstruct_loop_Chain _ _ _ _ Hl (S (length l)) [] (Nat.lt_succ_diag_r _)) as H.
  unfold pathReconstruct in Hloop. rewrite Hloop in H. discriminate.
Qed.

Lemma pathReconstruct_unbounded_witness :
  pathReconstruct 3 lineVisited lineMap = Some (Return [[0; 2]; [0; 1]; [0; 0]])
  ∧ ∀ fuel, pathReconstruct fuel loopVisited loopMap = None.
Proof.
  split.
  - apply (proj1 (pathReconstruct_unbounded lineVisited lineMap) [[0; 2]; [0; 1]]).
    + eapply Chain_link; [reflexivity|reflexivity|].
      eapply Chain_link; [reflexivity|reflexivity|].
      apply Chain_start. reflexivity.
    + simpl. lia.
  - apply (proj2 (pathReconstruct_unbounded loopVisited loopMap) onLoop).
    + apply loopVisited_Trapped.
    + by left.
Defined.

(* ================================================================== *)
(** ** Breadth-first search                                             *)
(* ================================================================== *)

Section Bfs.
Implicit Types (m : Map) (st : BfsState) (c : Coord).

Lemma bfs_fold_frontier cur ns st :
  bfs_frontier (foldl (bfs_push cur) st ns) = bfs_frontier st ++ ns.
Proof.
  revert st. induction ns as [|n ns IH]; intros st; simpl.
  - by rewrite app_nil_r.
  - rewrite IH. simpl. by rewrite <- app_assoc.
Qed.

Lemma bfs_fold_visited cur ns st :
  dom (bfs_visited (foldl (bfs_push cur) st ns))
  = dom (bfs_visited st) ∪ list_to_set (key <$> ns).
Proof.
  revert st. induction ns as [|n ns IH]; intros st; simpl.
  - set_solver.
  - rewrite IH. simpl. rewrite dom_insert_L. set_solver.
Qed.

(** The three branches of the callback. *)
Lemma bfs_tick_Exit m st : bfs_frontier st = [] → bfs_tick m st = Exit.
Proof. unfold bfs_tick. by intros ->. Qed.

Lemma bfs_tick_GoalPopped m st rest :
  bfs_frontier st = endCell m :: rest →
  bfs_tick m st = GoalPopped (mkBfs [] (bfs_visited st)).
Proof.
  unfold bfs_tick. intros ->. by rewrite (proj2 (equals_arr _ _) eq_refl).
Qed.

Lemma bfs_tick_Expanded m st cur rest :
  bfs_frontier st = cur :: rest → cur ≠ endCell m →
  bfs_tick m st
  = Expanded (foldl (bfs_push cur) (mkBfs rest (bfs_visited st))
                (findNeighbors m cur.1 cur.2 (bfs_visited st))).
Proof.
  unfold bfs_tick. intros -> Hne. by rewrite (proj2 (equals_arr_false _ _) Hne).
Qed.

Lemma bfs_visited_mono m st st' :
  bfs_tick m st = GoalPopped st' ∨ bfs_tick m st = Expanded st' →
  dom (bfs_visited st) ⊆ dom (bfs_visited st').
Proof.
  unfold bfs_tick. destruct (bfs_frontier st) as [|cur rest]; [by intros [|]|].
  destruct (equals _ _); intros [[= <-]|[= <-]]; simpl; [done|].
  rewrite bfs_fold_visited. set_solver.
Qed.

Lemma findNeighbors_keys m x y visited c :
  c ∈ findNeighbors m x y visited →
  key c ∈ (list_to_set (key <$> findNeighbors m x y visited) : gset string).
Proof. intros H. apply elem_of_list_to_set, list_elem_of_fmap. eauto. Qed.

(** Nothing pushed later is a key of the visited map now, and nothing is
    pushed twice. *)
Lemma bfs_pushes_fresh m n :
  ∀ st, NoDup (bfs_pushes m n st)
        ∧ ∀ c, c ∈ bfs_pushes m n st → key c ∉ dom (bfs_visited st).
Proof.
  induction n as [|n IH]; intros st; simpl; [split; [constructor|set_solver]|].
  destruct (bfs_frontier st) as [|cur rest] eqn:Hfr.
  { rewrite (bfs_tick_Exit m st Hfr). split; [constructor|set_solver]. }
  destruct (decide (cur = endCell m)) as [->|Hne].
  - rewrite (bfs_tick_GoalPopped m st rest Hfr).
    apply (IH (mkBfs [] (bfs_visited st))).
  - rewrite (bfs_tick_Expanded m st cur rest Hfr Hne).
    set (ns := findNeighbors m cur.1 cur.2 (bfs_visited st)).
    set (st' := foldl (bfs_push cur) (mkBfs rest (bfs_visited st)) ns).
    destruct (IH st') as [Hnd Hfresh].
    assert (dom (bfs_visited st') = dom (bfs_visited st) ∪ list_to_set (key <$> ns)) as Hdom.
    { unfold st'. by rewrite bfs_fold_visited. }
    split.
    + apply NoDup_app. split; [apply findNeighbors_NoDup|]. split; [|done].
      intros c Hc Hc'. apply (Hfresh c Hc'). rewrite Hdom.
      apply elem_of_union_r. by apply findNeighbors_keys.
    + intros c [Hc|Hc]%elem_of_app.
      * by apply findNeighbors_elem_of in Hc as (_ & _ & ?).
      * intros Hin. apply (Hfresh c Hc). rewrite Hdom. set_solver.
Qed.

Lemma bfs_inv_init m : bfs_inv (bfs_init m).
Proof.
  split; simpl.
  - apply NoDup_singleton.
  - intros c ->%list_elem_of_singleton. rewrite dom_insert_L. set_solver.
Qed.

Lemma bfs_inv_tick m st st' :
  bfs_inv st →
  bfs_tick m st = GoalPopped st' ∨ bfs_tick m st = Expanded st' →
  bfs_inv st'.
Proof.
  intros [Hnd Hvis]. unfold bfs_tick.
  destruct (bfs_frontier st) as [|cur rest] eqn:Hfr; [by intros [|]|].
  destruct (equals _ _); intros [[= <-]|[= <-]]; split; simpl;
    try (by constructor); try set_solver.
  - rewrite bfs_fold_frontier. simpl.
    apply NoDup_cons in Hnd as [_ Hnd].
    apply NoDup_app. split; [done|]. split; [|apply findNeighbors_NoDup].
    intros c Hc (_ & _ & Hfresh)%findNeighbors_elem_of.
    apply Hfresh, Hvis. by right.
  - intros c. rewrite bfs_fold_frontier, bfs_fold_visited. simpl.
    intros [Hc|Hc]%elem_of_app.
    + apply elem_of_union_l, Hvis. by right.
    + apply elem_of_union_r. by apply findNeighbors_keys.
Qed.

Lemma bfs_inv_after m n : ∀ st, bfs_inv st → bfs_inv (after (bfs_tick m) n st).
Proof.
  induction n as [|n IH]; intros st Hst; simpl; [done|].
  destruct (bfs_tick m st) as [|st'|st'|e] eqn:Ht; try done;
    apply IH; eapply bfs_inv_tick; eauto.
Qed.

(** C10.  Over a whole run of [bfs] no coordinate is pushed into the
    frontier twice (the start cell, pushed first, included), and at no
    moment does the frontier hold a coordinate twice. *)
Theorem bfs_pushes_once m n :
  NoDup (startCell m :: bfs_pushes m n (bfs_init m))
  ∧ NoDup (bfs_frontier (after (bfs_tick m) n (bfs_init m))).
Proof.
  split.
  - destruct (bfs_pushes_fresh m n (bfs_init m)) as [Hnd Hfresh].
    apply NoDup_cons. split; [|done].
    intros Hin. apply (Hfresh _ Hin). simpl. rewrite dom_insert_L. set_solver.
  - apply bfs_inv_after, bfs_inv_init.
Qed.

End Bfs.

(* ================================================================== *)
(** ** Frontier searches in general                                     *)
(* ================================================================== *)

Section Search.
Variable m : Map.
Implicit Types (fr : list Coord) (D : gset string) (c : Coord).

Lemma Walk_app a l b l' c : Walk m a l b → Walk m b l' c → Walk m a (l ++ l') c.
Proof.
  intros Hab Hbc. induction Hbc as [|l' b' c Hw IH Hadj Hv].
  - by rewrite app_nil_r.
  - rewrite app_assoc. by econstructor.
Qed.

Lemma pathCost_app l l' : pathCost m (l ++ l') = pathCost m l + pathCost m l'.
Proof. unfold pathCost. induction l as [|c l IH]; simpl; [done|]. rewrite IH. lia. Qed.

Lemma pathCost_snoc l c : pathCost m (l ++ [c]) = pathCost m l + findCost (grid m) c.
Proof. rewrite pathCost_app. unfold pathCost. simpl. lia. Qed.

Lemma isBound_cells c : isBound m c.1 c.2 = true → c ∈ cells m.
Proof.
  unfold isBound, cells. rewrite !andb_true_iff. intros [[[??]?]?].
  apply list_elem_of_cprod. rewrite !elem_of_seqZ. lia.
Qed.

Lemma validate_allKeys c : validate m c.1 c.2 = true → key c ∈ allKeys m.
Proof.
  unfold validate. rewrite andb_true_iff. intros [Hb _].
  apply elem_of_list_to_set, list_elem_of_fmap. eauto using isBound_cells.
Qed.

Lemma size_list_to_set_le (l : list string) :
  (size (list_to_set l : gset string) ≤ length l)%nat.
Proof.
  induction l as [|x l IH]; [by rewrite list_to_set_nil, size_empty|].
  rewrite list_to_set_cons, size_union_alt, size_singleton. simpl.
  pose proof (subseteq_size (list_to_set l ∖ {[x]}) (list_to_set l : gset string)) as H.
  assert ((list_to_set l ∖ {[x]} : gset string) ⊆ list_to_set l) as Hsub by set_solver.
  specialize (H Hsub). lia.
Qed.

Lemma measure_init : (measure m [startCell m] {[key (startCell m)]} < enoughFuel m)%nat.
Proof.
  unfold measure, enoughFuel. simpl.
  pose proof (subseteq_size (allKeys m ∖ {[key (startCell m)]}) (allKeys m)) as H.
  assert (allKeys m ∖ {[key (startCell m)]} ⊆ allKeys m) as Hsub by set_solver.
  specialize (H Hsub).
  pose proof (size_list_to_set_le (key <$> cells m)) as H'.
  rewrite length_fmap in H'. unfold allKeys in *. lia.
Qed.

Lemma keys_size (ns : list Coord) :
  NoDup ns → size (list_to_set (key <$> ns) : gset string) = length ns.
Proof.
  intros Hnd. rewrite size_list_to_set, length_fmap; [done|].
  apply NoDup_fmap_2_strong; [|done]. intros ? ? _ _. apply key_inj.
Qed.

Lemma key_elem_of (ns : list Coord) c :
  key c ∈ (list_to_set (key <$> ns) : gset string) ↔ c ∈ ns.
Proof.
  rewrite elem_of_list_to_set, list_elem_of_fmap. split.
  - intros (c' & Hk & Hc'). by rewrite (key_inj _ _ Hk).
  - eauto.
Qed.

Lemma Step_measure fr D fr' D' :
  Step m fr D fr' D' → S (measure m fr' D') = measure m fr D.
Proof.
  intros (cur & rest & ns & Hfr & _ & Hnd & Hns & Hfr' & ->).
  unfold measure. rewrite Hfr, Hfr', length_app. simpl.
  set (K := list_to_set (key <$> ns) : gset string).
  assert (K ⊆ allKeys m ∖ D) as HK.
  { intros k (c & -> & Hc)%elem_of_list_to_set%list_elem_of_fmap.
    apply Hns in Hc as (_ & Hv & Hfresh).
    apply elem_of_difference. split; [by apply validate_allKeys|done]. }
  assert (allKeys m ∖ (D ∪ K) = (allKeys m ∖ D) ∖ K) as -> by set_solver.
  rewrite size_difference by done.
  pose proof (subseteq_size _ _ HK) as Hle.
  unfold K in *. rewrite keys_size in * by done. lia.
Qed.

Lemma Step_SearchInv fr D fr' D' :
  SearchInv m fr D → Step m fr D fr' D' → SearchInv m fr' D'.
Proof.
  intros [Hnd Hfr Hstart Hreach] (cur & rest & ns & Hp & _ & Hndns & Hns & Hp' & ->).
  rewrite Hp in Hnd. apply NoDup_cons in Hnd as [_ Hnd].
  assert (∀ c, c ∈ rest → key c ∈ D) as Hrest.
  { intros c Hc. apply Hfr. rewrite Hp. by right. }
  split.
  - rewrite Hp'. apply NoDup_app. split; [done|]. split; [|done].
    intros c Hc (_ & _ & Hfresh)%Hns. by apply Hfresh, Hrest.
  - intros c. rewrite Hp'. intros [Hc|Hc]%elem_of_app.
    + by apply elem_of_union_l, Hrest.
    + by apply elem_of_union_r, key_elem_of.
  - by apply elem_of_union_l.
  - intros c [Hc|Hc]%elem_of_union; [by apply Hreach|].
    apply key_elem_of, Hns in Hc as (Hadj & Hv & _).
    destruct (Hreach cur) as [l Hl]. { apply Hfr. rewrite Hp. by left. }
    exists (l ++ [c]). by econstructor.
Qed.

Lemma Step_Closed fr D fr' D' :
  Closed m fr D → Step m fr D fr' D' → Closed m fr' D'.
Proof.
  intros Hcl (cur & rest & ns & Hp & Hne & Hndns & Hns & Hp' & ->) c.
  intros [Hc|Hc]%elem_of_union.
  - destruct (Hcl c Hc) as [Hin|[Hcne Hnb]].
    + rewrite Hp in Hin. apply elem_of_cons in Hin as [->|Hin].
      * right. split; [done|]. intros c' Hadj Hv.
        destruct (decide (key c' ∈ D)); [by apply elem_of_union_l|].
        apply elem_of_union_r, key_elem_of, Hns. done.
      * left. rewrite Hp'. apply elem_of_app. by left.
    + right. split; [done|]. intros c' Hadj Hv. by apply elem_of_union_l, Hnb.
  - left. rewrite Hp'. apply elem_of_app. right. by apply key_elem_of.
Qed.

(** With an empty frontier every cell one can walk to is visited; so the
    exit cell cannot be reached. *)
Lemma Closed_nil_Walk D :
  Closed m [] D → key (startCell m) ∈ D →
  ∀ l c, Walk m (startCell m) l c → key c ∈ D.
Proof.
  intros Hcl Hstart l c Hw. induction Hw as [|l b c Hw IH Hadj Hv]; [done|].
  destruct (Hcl b IH) as [Hin|[_ Hnb]]; [by apply elem_of_nil in Hin|].
  by apply Hnb.
Qed.

Lemma Closed_nil_unreachable D :
  Closed m [] D → key (startCell m) ∈ D → ¬ Reachable m (startCell m) (endCell m).
Proof.
  intros Hcl Hstart [l Hl].
  pose proof (Closed_nil_Walk D Hcl Hstart l _ Hl) as Hgoal.
  destruct (Hcl _ Hgoal) as [Hin|[Hne _]]; [by apply elem_of_nil in Hin|done].
Qed.

End Search.

(** A search seen through its frontier cells and visited keys.  [J] is
    what the search keeps true of its own state and [Q] what it has
    established when it pops the exit cell. *)
Section Driver.
Variable m : Map.
Context {St : Type}.
Variables (tick : St → Tick St) (cellsOf : St → list Coord)
  (visitedOf : St → gmap string (list Z)) (J Q : St → Prop).

Hypothesis tick_spec : ∀ st, Good m cellsOf visitedOf J st →
  match tick st with
  | Exit => cellsOf st = []
  | GoalPopped st' =>
      endCell m ∈ cellsOf st ∧ visitedOf st' = visitedOf st ∧ tick st' = Exit ∧ Q st'
  | Expanded st' =>
      J st' ∧ Step m (cellsOf st) (dom (visitedOf st)) (cellsOf st') (dom (visitedOf st'))
  | Crashed _ => False
  end.

Lemma Good_Expanded st st' : Good m cellsOf visitedOf J st → tick st = Expanded st' → Good m cellsOf visitedOf J st'.
Proof.
  intros Hg Ht. pose proof (tick_spec st Hg) as Hs. rewrite Ht in Hs.
  destruct Hg as (_ & Hinv & Hcl), Hs as [HJ Hstep].
  split; [done|]. split; [by eapply Step_SearchInv|by eapply Step_Closed].
Qed.

Lemma Good_nonempty_measure st :
  cellsOf st ≠ [] →
  (0 < measure m (cellsOf st) (dom (visitedOf st)))%nat.
Proof. unfold measure. destruct (cellsOf st); simpl; [done|lia]. Qed.

(** The search ends, in [Found] exactly when the exit cell can be reached
    from the start cell. *)
Lemma ticks_ends fuel : ∀ st t,
  Good m cellsOf visitedOf J st →
  (measure m (cellsOf st) (dom (visitedOf st)) < fuel)%nat →
  (Reachable m (startCell m) (endCell m)
   ∧ ∃ st', ticks tick fuel st t = Some (Return (Found, st')) ∧ Q st')
  ∨ (¬ Reachable m (startCell m) (endCell m)
     ∧ ∃ st', ticks tick fuel st t = Some (Return (t, st'))
              ∧ key (endCell m) ∉ dom (visitedOf st')).
Proof.
  induction fuel as [|fuel IH]; intros st t Hg Hfuel; [lia|].
  pose proof (tick_spec st Hg) as Hs. simpl.
  destruct (tick st) as [|st'|st'|e] eqn:Ht; [| | |done].
  - destruct Hg as (_ & Hinv & Hcl). rewrite Hs in Hinv, Hcl.
    assert (¬ Reachable m (startCell m) (endCell m)) as Hun.
    { apply (Closed_nil_unreachable m (dom (visitedOf st)));
        [done|apply (inv_start _ _ _ Hinv)]. }
    right. split; [done|]. exists st. split; [done|].
    intros Hin. by apply Hun, (inv_reach _ _ _ Hinv).
  - destruct Hs as (Hin & Hvis & Hexit & HQ).
    left. split.
    { destruct Hg as (_ & Hinv & _).
      apply (inv_reach _ _ _ Hinv), (inv_frontier _ _ _ Hinv), Hin. }
    exists st'. split; [|done].
    assert (cellsOf st ≠ []) as Hne by (intros Hnil; rewrite Hnil in Hin; by apply elem_of_nil in Hin).
    pose proof (Good_nonempty_measure st Hne).
    destruct fuel as [|fuel]; [lia|]. simpl. by rewrite Hexit.
  - destruct Hs as [HJ Hstep].
    apply IH; [by eapply Good_Expanded|].
    apply Step_measure in Hstep. lia.
Qed.

End Driver.

(* ================================================================== *)
(** ** Dijkstra and A*: what both do                                    *)
(* ================================================================== *)

Lemma dijkstra_relax_fresh m cur st n :
  key n ∉ dom (cumulatedCost st) →
  dijkstra_relax m cur st n = admit_with dijkstra_prio m cur st n.
Proof.
  intros Hn. unfold dijkstra_relax.
  assert (has (cumulatedCost st) (key n) = false) as ->; [|done].
  apply has_false. by apply not_elem_of_dom.
Qed.

Lemma astar_relax_fresh m cur st n :
  key n ∉ dom (cumulatedCost st) →
  astar_relax m cur st n = admit_with (astar_prio m) m cur st n.
Proof.
  intros Hn. unfold astar_relax.
  assert (has (cumulatedCost st) (key n) = false) as ->; [|done].
  apply has_false. by apply not_elem_of_dom.
Qed.

Section PqSearch.
Variables (m : Map) (prio : Z → Coord → Z)
  (relax : Map → Coord → PqState → Coord → PqState).
Hypothesis relax_fresh : ∀ cur st n,
  key n ∉ dom (cumulatedCost st) → relax m cur st n = admit_with prio m cur st n.
Implicit Types (st : PqState) (c n cur : Coord).

Lemma keysOf_cons n ns : keysOf (n :: ns) = {[key n]} ∪ keysOf ns.
Proof. unfold keysOf. by rewrite fmap_cons, list_to_set_cons. Qed.

Lemma keysOf_elem_of c ns : key c ∈ keysOf ns ↔ c ∈ ns.
Proof. apply key_elem_of. Qed.

Lemma costOf_Some (cm : gmap string Z) k d : cm !! k = Some d → costOf cm k = d.
Proof. unfold costOf. by intros ->. Qed.

(** The whole [for] loop over fresh neighbours. *)
Lemma admit_fold cur ns : ∀ st,
  NoDup ns → cur ∉ ns →
  (∀ n, n ∈ ns → key n ∉ dom (cumulatedCost st)) →
  dom (cumulatedCost st) = dom (visited st) →
  let base := costOf (cumulatedCost st) (key cur) in
  let st' := foldl (relax m cur) st ns in
  cellsOf st' ≡ₚ cellsOf st ++ ns
  ∧ dom (visited st') = dom (visited st) ∪ keysOf ns
  ∧ dom (cumulatedCost st') = dom (cumulatedCost st) ∪ keysOf ns
  ∧ (∀ n, n ∈ ns → cumulatedCost st' !! key n = Some (base + findCost (grid m) n))
  ∧ (∀ k, k ∉ keysOf ns → cumulatedCost st' !! k = cumulatedCost st !! k)
  ∧ (∀ e, e ∈ PQ.queue (frontier st') ↔
          e ∈ PQ.queue (frontier st)
          ∨ ∃ n, n ∈ ns ∧ e = PQ.mkElement n (prio (base + findCost (grid m) n) n))
  ∧ (StronglySorted leq_priority (PQ.queue (frontier st)) →
     StronglySorted leq_priority (PQ.queue (frontier st'))).
Proof.
  induction ns as [|n ns IH]; intros st Hnd Hcur Hfresh Hdom; simpl.
  { rewrite app_nil_r. unfold keysOf. simpl.
    repeat split; try done; set_solver. }
  apply NoDup_cons in Hnd as [Hn Hnd].
  apply not_elem_of_cons in Hcur as [Hcn Hcur].
  rewrite relax_fresh by (apply Hfresh; by left).
  set (st1 := admit_with prio m cur st n).
  assert (costOf (cumulatedCost st1) (key cur) = costOf (cumulatedCost st) (key cur)) as Hbase.
  { unfold st1, admit_with, costOf. simpl.
    by rewrite lookup_insert_ne by (by apply key_ne). }
  destruct (IH st1) as (Hcells & Hvis & Hcost & Hnew & Hold & Hq & Hsort); [done|done| | |].
  { intros n' Hn'. unfold st1, admit_with. simpl. rewrite dom_insert_L.
    apply not_elem_of_union. split.
    - apply not_elem_of_singleton, key_ne. by intros ->.
    - apply Hfresh. by right. }
  { unfold st1, admit_with. simpl. by rewrite !dom_insert_L, Hdom. }
  rewrite Hbase in Hnew, Hq. rewrite keysOf_cons.
  split; [|split; [|split; [|split; [|split; [|split]]]]].
  - rewrite Hcells. unfold st1, admit_with, cellsOf. simpl.
    rewrite insert_item_Permutation, fmap_cons. simpl.
    by rewrite <- Permutation_middle.
  - rewrite Hvis. unfold st1, admit_with. simpl. rewrite dom_insert_L. set_solver.
  - rewrite Hcost. unfold st1, admit_with. simpl. rewrite dom_insert_L. set_solver.
  - intros n' [->|Hn']%elem_of_cons; [|by apply Hnew].
    rewrite Hold by (by rewrite keysOf_elem_of).
    unfold st1, admit_with. simpl. by rewrite lookup_insert_eq.
  - intros k [Hk Hk']%not_elem_of_union. rewrite Hold by done.
    unfold st1, admit_with. simpl. rewrite lookup_insert_ne; set_solver.
  - intros e. rewrite Hq. unfold st1, admit_with. simpl.
    rewrite insert_item_elem_of. split.
    + intros [[->|?]|(n' & ? & ->)]; [right; exists n; split; [by left|done]|by left|].
      right. exists n'. split; [by right|done].
    + intros [?|(n' & [->|?]%elem_of_cons & ->)]; [by left; right|by left; left|].
      right. by exists n'.
  - intros Hs. apply Hsort. unfold st1, admit_with. simpl.
    apply insert_item_sorted; unfold leq_priority; try done; lia.
Qed.

Lemma admit_fold_visited cur ns : ∀ st,
  NoDup ns →
  (∀ n, n ∈ ns → key n ∉ dom (cumulatedCost st)) →
  ∀ k, k ∉ keysOf ns →
    visited (foldl (relax m cur) st ns) !! k = visited st !! k.
Proof.
  induction ns as [|n ns IH]; intros st Hnd Hfresh k Hk; simpl; [done|].
  apply NoDup_cons in Hnd as [Hn Hnd].
  rewrite keysOf_cons in Hk. apply not_elem_of_union in Hk as [Hk Hk'].
  rewrite relax_fresh by (apply Hfresh; by left).
  rewrite IH; [|done| |done].
  - unfold admit_with. simpl. rewrite lookup_insert_ne; [done|set_solver].
  - intros n' Hn'. unfold admit_with. simpl. rewrite dom_insert_L.
    apply not_elem_of_union. split.
    + apply not_elem_of_singleton, key_ne. by intros ->.
    + apply Hfresh. by right.
Qed.

(** The branches of the callback. *)
Lemma pq_tick_Exit st : PQ.queue (frontier st) = [] → pq_tick relax m st = Exit.
Proof.
  intros Hq. unfold pq_tick. by rewrite (proj2 (isEmpty_true _) Hq).
Qed.

Lemma pq_tick_GoalPopped st item rest :
  PQ.queue (frontier st) = item :: rest → PQ.element item = endCell m →
  pq_tick relax m st = GoalPopped (mkPq PQ.empty (visited st) (cumulatedCost st)).
Proof.
  intros Hq Hgoal. unfold pq_tick.
  rewrite (proj2 (isEmpty_false _)) by (by rewrite Hq).
  destruct (frontier st) as [q]. simpl in Hq. subst q. rewrite dequeue_cons.
  by rewrite (proj2 (equals_arr _ _) Hgoal).
Qed.

Lemma pq_tick_Expanded st item rest :
  PQ.queue (frontier st) = item :: rest → PQ.element item ≠ endCell m →
  pq_tick relax m st
  = Expanded (foldl (relax m (PQ.element item))
                (mkPq (PQ.mkQueue rest) (visited st) (cumulatedCost st))
                (findNeighbors m (PQ.element item).1 (PQ.element item).2 (visited st))).
Proof.
  intros Hq Hne. unfold pq_tick.
  rewrite (proj2 (isEmpty_false _)) by (by rewrite Hq).
  destruct (frontier st) as [q]. simpl in Hq. subst q. rewrite dequeue_cons.
  by rewrite (proj2 (equals_arr_false _ _) Hne).
Qed.

End PqSearch.

Lemma PqInv_init (m : Map) : PqInv m (pq_init m) ∧ PqView m (pq_init m).
Proof.
  split; [split; [|split; [|split]]|split]; simpl.
  - by rewrite !dom_insert_L.
  - repeat constructor.
  - intros c ->%list_elem_of_singleton. rewrite dom_insert_L. set_solver.
  - intros c d. destruct (decide (key c = key (startCell m))) as [Hk|Hk].
    + rewrite Hk, lookup_insert_eq. intros [= <-].
      rewrite (key_inj _ _ Hk). exists []. split; [constructor|done].
    + by rewrite lookup_insert_ne.
  - apply NoDup_singleton.
  - intros c ->%list_elem_of_singleton. rewrite dom_insert_L. set_solver.
  - rewrite dom_insert_L. set_solver.
  - intros c. rewrite dom_insert_L, dom_empty_L.
    intros Hc. assert (key c = key (startCell m)) as Hk by set_solver.
    rewrite (key_inj _ _ Hk). exists []. constructor.
Qed.

Section PqInvariants.
Variables (m : Map) (prio : Z → Coord → Z)
  (relax : Map → Coord → PqState → Coord → PqState).
Hypothesis relax_fresh : ∀ cur st n,
  key n ∉ dom (cumulatedCost st) → relax m cur st n = admit_with prio m cur st n.
Implicit Types (st : PqState) (c n cur : Coord).

(** What an expansion does, read off [admit_fold]. *)
Lemma expand_facts st item rest :
  PqInv m st → PqView m st →
  PQ.queue (frontier st) = item :: rest →
  let cur := PQ.element item in
  let ns := findNeighbors m cur.1 cur.2 (visited st) in
  let st' := foldl (relax m cur) (popped st rest) ns in
  ∃ base, cumulatedCost st !! key cur = Some base
  ∧ NoDup ns ∧ (cur ∉ ns)
  ∧ (∀ c, c ∈ ns ↔ adjacent cur c ∧ validate m c.1 c.2 = true ∧ key c ∉ dom (visited st))
  ∧ cellsOf st' ≡ₚ (PQ.element <$> rest) ++ ns
  ∧ dom (visited st') = dom (visited st) ∪ keysOf ns
  ∧ dom (cumulatedCost st') = dom (cumulatedCost st) ∪ keysOf ns
  ∧ (∀ n, n ∈ ns → cumulatedCost st' !! key n = Some (base + findCost (grid m) n))
  ∧ (∀ k, k ∉ keysOf ns → cumulatedCost st' !! k = cumulatedCost st !! k)
  ∧ (∀ e, e ∈ PQ.queue (frontier st') ↔
          e ∈ rest ∨ ∃ n, n ∈ ns ∧ e = PQ.mkElement n (prio (base + findCost (grid m) n) n))
  ∧ StronglySorted leq_priority (PQ.queue (frontier st')).
Proof.
  intros (Hdom & Hsort & Hcost & _) Hview Hq cur ns st'.
  assert (cur ∈ cellsOf st) as Hcur.
  { unfold cellsOf. rewrite Hq, fmap_cons. by left. }
  destruct (proj1 (elem_of_dom _ _) (Hcost cur Hcur)) as [base Hbase].
  assert (∀ c, c ∈ ns ↔ adjacent cur c ∧ validate m c.1 c.2 = true
                         ∧ key c ∉ dom (visited st)) as Hns.
  { intros c. unfold ns. rewrite findNeighbors_elem_of. by destruct cur. }
  assert (cur ∉ ns) as Hfresh.
  { intros (_ & _ & Hn)%Hns. apply Hn. rewrite <- Hdom. by apply Hcost. }
  exists base. split; [done|]. split; [apply findNeighbors_NoDup|].
  split; [done|]. split; [done|].
  destruct (admit_fold m prio relax relax_fresh cur ns (popped st rest))
    as (H1 & H2 & H3 & H4 & H5 & H6 & H7); simpl.
  - apply findNeighbors_NoDup.
  - done.
  - intros n (_ & _ & Hn)%Hns. by rewrite Hdom.
  - done.
  - simpl in *. rewrite (costOf_Some _ _ _ Hbase) in H4, H6.
    repeat (split; [done|]). apply H7. rewrite Hq in Hsort.
    by apply StronglySorted_inv in Hsort as [? _].
Qed.

Lemma expand_Step st item rest :
  PqInv m st → PqView m st →
  PQ.queue (frontier st) = item :: rest → PQ.element item ≠ endCell m →
  let cur := PQ.element item in
  let st' := foldl (relax m cur) (popped st rest)
               (findNeighbors m cur.1 cur.2 (visited st)) in
  PqInv m st'
  ∧ Step m (cellsOf st) (dom (visited st)) (cellsOf st') (dom (visited st')).
Proof.
  intros Hinv Hview Hq Hne cur st'.
  destruct (expand_facts st item rest Hinv Hview Hq)
    as (base & Hbase & Hnd & Hfresh & Hns & Hcells & Hvis & Hcost & Hnew & Hold & Hqueue & Hsorted).
  fold cur in Hbase, Hnd, Hfresh, Hns, Hcells, Hvis, Hcost, Hnew, Hold, Hqueue, Hsorted.
  fold st' in Hcells, Hvis, Hcost, Hnew, Hold, Hqueue, Hsorted.
  set (ns := findNeighbors m cur.1 cur.2 (visited st)) in *.
  destruct Hinv as (Hdom & Hsort & Hhas & Hach).
  split; [split; [|split; [|split]]|].
  - by rewrite Hcost, Hvis, Hdom.
  - done.
  - intros c. rewrite Hcells, Hcost. intros [Hc|Hc]%elem_of_app.
    + apply elem_of_union_l, Hhas. unfold cellsOf. rewrite Hq, fmap_cons. by right.
    + by apply elem_of_union_r, keysOf_elem_of.
  - intros c d Hc. destruct (decide (c ∈ ns)) as [Hin|Hnin].
    + rewrite (Hnew c Hin) in Hc. injection Hc as <-.
      destruct (Hach cur base Hbase) as (l & Hl & Hlc).
      apply Hns in Hin as (Hadj & Hv & _).
      exists (l ++ [c]). split; [by econstructor|].
      rewrite pathCost_snoc. lia.
    + rewrite Hold in Hc by (by rewrite keysOf_elem_of). by apply Hach.
  - exists cur, (PQ.element <$> rest), ns.
    split; [by unfold cellsOf; rewrite Hq, fmap_cons|].
    repeat (split; [done|]). done.
Qed.

End PqInvariants.

(* ================================================================== *)
(** ** Dijkstra                                                         *)
(* ================================================================== *)

Section Dijkstra.
Variable m : Map.
Hypothesis weights : ∀ c, validate m c.1 c.2 = true → 0 ≤ findCost (grid m) c.
Implicit Types (st : PqState) (c n cur : Coord).

Lemma pathCost_nonneg a l b : Walk m a l b → 0 ≤ pathCost m l.
Proof.
  induction 1 as [|l b c Hw IH Hadj Hv]; [done|].
  rewrite pathCost_snoc. specialize (weights c Hv). lia.
Qed.

Lemma DijkstraInv_init : DijkstraInv m (pq_init m).
Proof.
  split; simpl.
  - intros e ->%list_elem_of_singleton. simpl. by rewrite lookup_insert_eq.
  - intros c d. destruct (decide (key c = key (startCell m))) as [Hk|Hk].
    + rewrite Hk, lookup_insert_eq. intros [= <-] l Hl.
      apply (pathCost_nonneg _ _ _ Hl).
    + by rewrite lookup_insert_ne.
Qed.

Lemma queued_cell st c :
  c ∈ cellsOf st → ∃ e, e ∈ PQ.queue (frontier st) ∧ PQ.element e = c.
Proof.
  unfold cellsOf. intros (e & -> & He)%list_elem_of_fmap. eauto.
Qed.

(** A walk that ends on a cell still in the queue, or not visited yet,
    costs at least the priority of some queued cell. *)
Lemma frontier_bound st :
  PqView m st → Closed m (cellsOf st) (dom (visited st)) → DijkstraInv m st →
  ∀ l b, Walk m (startCell m) l b →
    b ∈ cellsOf st ∨ key b ∉ dom (visited st) →
    ∃ e, e ∈ PQ.queue (frontier st) ∧ PQ.priority e ≤ pathCost m l.
Proof.
  intros Hview Hcl [Hprio Hopt].
  assert (∀ l b, Walk m (startCell m) l b → b ∈ cellsOf st →
            ∃ e, e ∈ PQ.queue (frontier st) ∧ PQ.priority e ≤ pathCost m l) as Hqueued.
  { intros l b Hl (e & He & <-)%queued_cell. exists e. split; [done|].
    apply (Hopt (PQ.element e) _ (Hprio e He) _ Hl). }
  intros l b Hl. induction Hl as [|l b c Hl IH Hadj Hv]; intros Hb.
  - destruct Hb as [Hb|Hb]; [apply (Hqueued [] _ (Walk_here _ _) Hb)|].
    destruct Hb. apply (inv_start _ _ _ Hview).
  - assert (Walk m (startCell m) (l ++ [c]) c) as Hlc by (by econstructor).
    destruct Hb as [Hc|Hc]; [by apply (Hqueued _ c)|].
    assert (∃ e, e ∈ PQ.queue (frontier st) ∧ PQ.priority e ≤ pathCost m l)
      as (e & He & Hle).
    { destruct (decide (key b ∈ dom (visited st))) as [Hb|Hb]; [|by apply IH; right].
      destruct (Hcl b Hb) as [Hin|[_ Hnb]]; [by apply IH; left|].
      destruct Hc. by apply Hnb. }
    exists e. split; [done|]. rewrite pathCost_snoc. specialize (weights c Hv). lia.
Qed.

Lemma dijkstra_expand st item rest :
  PqInv m st → PqView m st → Closed m (cellsOf st) (dom (visited st)) →
  DijkstraInv m st →
  PQ.queue (frontier st) = item :: rest →
  let cur := PQ.element item in
  DijkstraInv m (foldl (dijkstra_relax m cur) (popped st rest)
                   (findNeighbors m cur.1 cur.2 (visited st))).
Proof.
  intros Hinv Hview Hcl Hd Hq cur.
  destruct (expand_facts m dijkstra_prio dijkstra_relax (dijkstra_relax_fresh m)
              st item rest Hinv Hview Hq)
    as (base & Hbase & Hnd & Hfresh & Hns & Hcells & Hvis & Hcost & Hnew & Hold & Hqueue & Hsorted).
  fold cur in Hbase, Hnd, Hfresh, Hns, Hcells, Hvis, Hcost, Hnew, Hold, Hqueue, Hsorted.
  set (ns := findNeighbors m cur.1 cur.2 (visited st)) in *.
  set (st' := foldl (dijkstra_relax m cur) (popped st rest) ns) in *.
  pose proof Hd as [Hprio Hopt]. destruct Hinv as (Hdom & Hsort & Hhas & Hach).
  assert (PQ.priority item = base) as Hitem.
  { assert (item ∈ PQ.queue (frontier st)) as Hin by (rewrite Hq; by left).
    specialize (Hprio item Hin). fold cur in Hprio. congruence. }
  split.
  - intros e [He|(n & Hn & ->)]%Hqueue.
    + rewrite Hold; [apply Hprio; rewrite Hq; by right|].
      rewrite keysOf_elem_of. intros (_ & _ & Hfr)%Hns. apply Hfr.
      rewrite <- Hdom. apply Hhas. unfold cellsOf. rewrite Hq, fmap_cons.
      right. apply list_elem_of_fmap. eauto.
    + simpl. by apply Hnew.
  - intros c d Hc l Hl. destruct (decide (c ∈ ns)) as [Hin|Hnin].
    2:{ rewrite Hold in Hc by (by rewrite keysOf_elem_of). by eapply Hopt. }
    rewrite (Hnew c Hin) in Hc. injection Hc as <-.
    apply Hns in Hin as (Hadj & Hv & Hc).
    inversion Hl as [Hnil|l0 b c' Hl0 Hadj' Hv' Heq]; subst.
    { destruct Hc. apply (inv_start _ _ _ Hview). }
    rewrite pathCost_snoc. cut (PQ.priority item ≤ pathCost m l0); [lia|].
    destruct (frontier_bound st Hview Hcl Hd l0 b Hl0) as (e & He & Hle).
    { destruct (decide (key b ∈ dom (visited st))) as [Hb|Hb]; [|by right].
      destruct (Hcl b Hb) as [?|[_ Hnb]]; [by left|]. destruct Hc. by apply Hnb. }
    rewrite Hq in Hsort, He. apply StronglySorted_inv in Hsort as [_ Hhead].
    apply elem_of_cons in He as [->|He]; [lia|].
    rewrite Forall_forall in Hhead. specialize (Hhead e He).
    unfold leq_priority in Hhead. lia.
Qed.

(** The callback of [dijkstra], read as the driver wants it. *)
Lemma dijkstra_tick_spec st :
  Good m cellsOf visited (λ st, PqInv m st ∧ DijkstraInv m st) st →
  match dijkstra_tick m st with
  | Exit => cellsOf st = []
  | GoalPopped st' =>
      endCell m ∈ cellsOf st ∧ visited st' = visited st
      ∧ dijkstra_tick m st' = Exit ∧ costMinimal m st'
  | Expanded st' =>
      (PqInv m st' ∧ DijkstraInv m st')
      ∧ Step m (cellsOf st) (dom (visited st)) (cellsOf st') (dom (visited st'))
  | Crashed _ => False
  end.
Proof.
  intros ([Hinv Hd] & Hview & Hcl). unfold dijkstra_tick.
  destruct (PQ.queue (frontier st)) as [|item rest] eqn:Hq.
  { rewrite pq_tick_Exit by done. unfold cellsOf. by rewrite Hq. }
  destruct (decide (PQ.element item = endCell m)) as [Hgoal|Hne].
  - rewrite (pq_tick_GoalPopped m dijkstra_relax st item rest Hq Hgoal).
    assert (item ∈ PQ.queue (frontier st)) as Hin by (rewrite Hq; by left).
    split; [|split; [done|split; [done|]]].
    { unfold cellsOf. rewrite Hq, fmap_cons, Hgoal. by left. }
    destruct Hd as [Hprio Hopt], Hinv as (_ & _ & _ & Hach).
    specialize (Hprio item Hin). rewrite Hgoal in Hprio.
    exists (PQ.priority item). simpl. split; [done|]. split; [by apply Hach|by apply Hopt].
  - rewrite (pq_tick_Expanded m dijkstra_relax st item rest Hq Hne).
    destruct (expand_Step m dijkstra_prio dijkstra_relax (dijkstra_relax_fresh m)
                st item rest Hinv Hview Hq Hne) as [Hinv' Hstep].
    split; [split; [done|]|done]. by apply dijkstra_expand.
Qed.

End Dijkstra.

(** *** Checking a concrete grid *)

Lemma validate_isBound m c : validate m c.1 c.2 = true → isBound m c.1 c.2 = true.
Proof. unfold validate. by intros [? _]%andb_true_iff. Qed.

Lemma weightsAtLeast_spec w m :
  weightsAtLeast w m = true → ∀ c, validate m c.1 c.2 = true → w ≤ findCost (grid m) c.
Proof.
  unfold weightsAtLeast. rewrite forallb_forall. intros H c Hv.
  specialize (H c). rewrite Hv in H. simpl in H. apply Z.leb_le, H.
  by apply list_elem_of_In, isBound_cells, validate_isBound.
Qed.

Lemma Walk_cons m a c l b :
  adjacent a c → validate m c.1 c.2 = true → Walk m c l b → Walk m a (c :: l) b.
Proof.
  intros Hadj Hv Hw.
  apply (Walk_app m a [c] c l b); [|done].
  apply (Walk_step m a [] a c); [constructor|done|done].
Qed.

Lemma walkEnd_Walk m l : ∀ a b, walkEnd m a l = Some b → Walk m a l b.
Proof.
  induction l as [|c l IH]; intros a b; simpl.
  - intros [= <-]. constructor.
  - destruct (bool_decide (adjacent a c)) eqn:Hadj; [|done].
    destruct (validate m c.1 c.2) eqn:Hv; [|done]. simpl.
    intros Hw. apply bool_decide_eq_true in Hadj. by apply Walk_cons, IH.
Qed.

Lemma encloses_unreachable m region :
  encloses m region = true → ¬ Reachable m (startCell m) (endCell m).
Proof.
  unfold encloses. rewrite !andb_true_iff, !bool_decide_eq_true, forallb_forall.
  intros [[Hstart Hgoal] Hclosed] [l Hl]. apply Hgoal.
  clear Hgoal. induction Hl as [|l b c Hl IH Hadj Hv]; [done|].
  specialize (Hclosed b (proj1 (list_elem_of_In _ _) IH)).
  rewrite forallb_forall in Hclosed.
  specialize (Hclosed c (proj1 (list_elem_of_In _ _) Hadj)).
  rewrite Hv in Hclosed. simpl in Hclosed. by apply bool_decide_eq_true in Hclosed.
Qed.

(** *** The cost recorded for the exit cell *)

Lemma pq_init_Closed m : Closed m (cellsOf (pq_init m)) (dom (visited (pq_init m))).
Proof.
  intros c. simpl. rewrite dom_insert_L, dom_empty_L.
  intros Hc. assert (key c = key (startCell m)) as Hk by set_solver.
  left. rewrite (key_inj _ _ Hk). by left.
Qed.

Lemma pq_init_measure m :
  (measure m (cellsOf (pq_init m)) (dom (visited (pq_init m))) < enoughFuel m)%nat.
Proof.
  simpl. rewrite dom_insert_L, dom_empty_L, union_empty_r_L. apply measure_init.
Qed.

(** The weights as the grid holds them, and as [findCost] reads them. *)
Lemma validate_nonneg m c : validate m c.1 c.2 = true → 0 ≤ c.1 ∧ 0 ≤ c.2.
Proof.
  intros Hb%validate_isBound. unfold isBound in Hb.
  rewrite !andb_true_iff in Hb. lia.
Qed.

Lemma findCost_weightOf m c :
  validate m c.1 c.2 = true → findCost (grid m) c = weightOf m c.
Proof.
  intros [Hx Hy]%validate_nonneg. unfold findCost, weightOf, gridAt.
  rewrite (proj2 (Z.leb_le 0 _) Hx), (proj2 (Z.leb_le 0 _) Hy). simpl.
  by destruct (grid m !! Z.to_nat c.1).
Qed.

Lemma walkWeight_snoc m l c : walkWeight m (l ++ [c]) = walkWeight m l + weightOf m c.
Proof.
  unfold walkWeight. induction l as [|c' l IH]; simpl; [lia|]. rewrite IH. lia.
Qed.

Lemma pathCost_walkWeight m a l b : Walk m a l b → pathCost m l = walkWeight m l.
Proof.
  induction 1 as [|l b c Hw IH Hadj Hv]; [done|].
  by rewrite pathCost_snoc, walkWeight_snoc, IH, findCost_weightOf.
Qed.

Lemma weighsAtLeast_spec w m :
  weighsAtLeast w m = true → ∀ c, validate m c.1 c.2 = true → w ≤ weightOf m c.
Proof.
  unfold weighsAtLeast. rewrite forallb_forall. intros H c Hv.
  specialize (H c). rewrite Hv in H. simpl in H. apply Z.leb_le, H.
  by apply list_elem_of_In, isBound_cells, validate_isBound.
Qed.

(** C1.  On a grid whose passable cells have a weight of at least 1 and
    whose exit cell can be reached from the start cell, [dijkstra] ends
    in [Found], and the cost it has recorded for the exit cell is the
    least sum of the weights the grid holds for the cells entered, over
    all walks from the start cell to the exit cell. *)
Theorem dijkstra_cost_minimal (m : Map) (fuel : nat) :
  wf_map m = true →
  (∀ c, validate m c.1 c.2 = true → 1 ≤ weightOf m c) →
  Reachable m (startCell m) (endCell m) →
  (enoughFuel m ≤ fuel)%nat →
  ∃ st d,
    ticks (dijkstra_tick m) fuel (pq_init m) Exhausted = Some (Return (Found, st))
    ∧ cumulatedCost st !! key (endCell m) = Some d
    ∧ (∃ l, Walk m (startCell m) l (endCell m) ∧ walkWeight m l = d)
    ∧ (∀ l, Walk m (startCell m) l (endCell m) → d ≤ walkWeight m l).
Proof.
  intros _ Hw Hreach Hfuel.
  assert (∀ c, validate m c.1 c.2 = true → 0 ≤ findCost (grid m) c) as Hw0.
  { intros c Hc. rewrite findCost_weightOf by done. specialize (Hw c Hc). lia. }
  destruct (ticks_ends m (dijkstra_tick m) cellsOf visited
              (λ st, PqInv m st ∧ DijkstraInv m st) (costMinimal m)
              (dijkstra_tick_spec m Hw0) fuel (pq_init m) Exhausted)
    as [[_ (st & Hticks & d & Hd & (l & Hl & Hcost) & Hopt)]|[Hun _]].
  - destruct (PqInv_init m) as [Hinv Hview].
    split; [split; [done|by apply DijkstraInv_init]|].
    split; [done|apply pq_init_Closed].
  - pose proof (pq_init_measure m). lia.
  - exists st, d. split; [done|]. split; [done|]. split.
    + exists l. split; [done|]. by rewrite <- (pathCost_walkWeight m _ _ _ Hl).
    + intros l' Hl'. rewrite <- (pathCost_walkWeight m _ _ _ Hl'). by apply Hopt.
  - done.
Qed.

Lemma dijkstra_cost_minimal_witness :
  ∃ st d,
    ticks (dijkstra_tick hills) (enoughFuel hills) (pq_init hills) Exhausted
    = Some (Return (Found, st))
    ∧ cumulatedCost st !! key (endCell hills) = Some d
    ∧ (∃ l, Walk hills (startCell hills) l (endCell hills) ∧ walkWeight hills l = d)
    ∧ (∀ l, Walk hills (startCell hills) l (endCell hills) → d ≤ walkWeight hills l).
Proof.
  apply (dijkstra_cost_minimal hills (enoughFuel hills)).
  - reflexivity.
  - apply weighsAtLeast_spec. reflexivity.
  - exists [(0, 3); (0, 2); (0, 1); (0, 0); (1, 0)]. apply walkEnd_Walk. reflexivity.
  - lia.
Defined.

(** On [hills] that least cost is 5. *)
Example dijkstra_hills_cost :
  ∃ st, ticks (dijkstra_tick hills) (enoughFuel hills) (pq_init hills) Exhausted
        = Some (Return (Found, st))
        ∧ cumulatedCost st !! key (endCell hills) = Some 5.
Proof. eexists. split; [vm_compute; reflexivity|reflexivity]. Qed.

(* ================================================================== *)
(** ** Runs of the three searches                                       *)
(* ================================================================== *)

(** Running on: [n + k] callbacks are [n] callbacks and then [k]. *)
Lemma after_stuck {St : Type} (tick : St → Tick St) k st :
  (tick st = Exit ∨ ∃ e, tick st = Crashed e) → after tick k st = st.
Proof. destruct k; [done|]. simpl. by intros [->|[e ->]]. Qed.

Lemma after_add {St : Type} (tick : St → Tick St) n k : ∀ st,
  after tick (n + k) st = after tick k (after tick n st).
Proof.
  induction n as [|n IH]; intros st; simpl; [done|].
  destruct (tick st) as [|st'|st'|e] eqn:Ht; try apply IH.
  - symmetry. apply after_stuck. by left.
  - symmetry. apply after_stuck. right. by exists e.
Qed.

Section PqRuns.
Variables (m : Map) (prio : Z → Coord → Z)
  (relax : Map → Coord → PqState → Coord → PqState).
Hypothesis relax_fresh : ∀ cur st n,
  key n ∉ dom (cumulatedCost st) → relax m cur st n = admit_with prio m cur st n.
Implicit Types (st : PqState).

Lemma PqInv_discard st :
  PqInv m st → PqView m st →
  PqInv m (mkPq PQ.empty (visited st) (cumulatedCost st))
  ∧ PqView m (mkPq PQ.empty (visited st) (cumulatedCost st)).
Proof.
  intros (Hdom & _ & _ & Hach) [_ _ Hstart Hreach].
  split; [split; [done|split; [constructor|split; [|done]]]|split; simpl; try done].
  - intros c Hc. by apply elem_of_nil in Hc.
  - constructor.
  - intros c Hc. by apply elem_of_nil in Hc.
Qed.

Lemma pq_tick_inv st st' :
  PqInv m st → PqView m st →
  pq_tick relax m st = GoalPopped st' ∨ pq_tick relax m st = Expanded st' →
  PqInv m st' ∧ PqView m st'.
Proof.
  intros Hinv Hview.
  destruct (PQ.queue (frontier st)) as [|item rest] eqn:Hq.
  { rewrite (pq_tick_Exit m relax st Hq). by intros [|]. }
  destruct (decide (PQ.element item = endCell m)) as [Hgoal|Hne].
  - rewrite (pq_tick_GoalPopped m relax st item rest Hq Hgoal).
    intros [[= <-]|[=]]. by apply PqInv_discard.
  - rewrite (pq_tick_Expanded m relax st item rest Hq Hne).
    intros [[=]|[= <-]].
    destruct (expand_Step m prio relax relax_fresh st item rest Hinv Hview Hq Hne)
      as [Hinv' Hstep].
    split; [done|]. by eapply Step_SearchInv.
Qed.

Lemma pq_after_inv n : ∀ st,
  PqInv m st → PqView m st →
  PqInv m (after (pq_tick relax m) n st) ∧ PqView m (after (pq_tick relax m) n st).
Proof.
  induction n as [|n IH]; intros st Hinv Hview; simpl; [done|].
  destruct (pq_tick relax m st) as [|st'|st'|e] eqn:Ht; try done.
  - destruct (pq_tick_inv st st' Hinv Hview) as [??]; [by left|by apply IH].
  - destruct (pq_tick_inv st st' Hinv Hview) as [??]; [by right|by apply IH].
Qed.

Lemma keepsRecords_refl st : keepsRecords st st.
Proof. by split. Qed.

Lemma keepsRecords_trans st1 st2 st3 :
  keepsRecords st1 st2 → keepsRecords st2 st3 → keepsRecords st1 st3.
Proof. intros [H1 H2] [H3 H4]. split; eauto. Qed.

Lemma pq_tick_keeps st st' :
  PqInv m st → PqView m st →
  pq_tick relax m st = GoalPopped st' ∨ pq_tick relax m st = Expanded st' →
  keepsRecords st st'.
Proof.
  intros Hinv Hview.
  destruct (PQ.queue (frontier st)) as [|item rest] eqn:Hq.
  { rewrite (pq_tick_Exit m relax st Hq). by intros [|]. }
  destruct (decide (PQ.element item = endCell m)) as [Hgoal|Hne].
  - rewrite (pq_tick_GoalPopped m relax st item rest Hq Hgoal).
    intros [[= <-]|[=]]. by split.
  - rewrite (pq_tick_Expanded m relax st item rest Hq Hne).
    intros [[=]|[= <-]].
    destruct (expand_facts m prio relax relax_fresh st item rest Hinv Hview Hq)
      as (base & _ & Hnd & _ & Hns & _ & _ & _ & _ & Hold & _).
    destruct Hinv as (Hdom & _).
    set (ns := findNeighbors m (PQ.element item).1 (PQ.element item).2 (visited st)) in *.
    assert (∀ k, k ∈ keysOf ns → k ∉ dom (visited st)) as Hfresh.
    { intros k (c & -> & Hc)%elem_of_list_to_set%list_elem_of_fmap.
      by apply Hns in Hc as (_ & _ & ?). }
    split.
    + intros k d Hk. rewrite Hold; [done|].
      intros Hin. apply (Hfresh k Hin). rewrite <- Hdom. by apply elem_of_dom.
    + intros k origin Hk.
      rewrite (admit_fold_visited m prio relax relax_fresh); [done|done| |].
      * intros n Hn. simpl. rewrite Hdom. by apply Hns in Hn as (_ & _ & ?).
      * intros Hin. apply (Hfresh k Hin). by apply elem_of_dom.
Qed.

Lemma pq_after_keeps k : ∀ st,
  PqInv m st → PqView m st → keepsRecords st (after (pq_tick relax m) k st).
Proof.
  induction k as [|k IH]; intros st Hinv Hview; simpl; [apply keepsRecords_refl|].
  destruct (pq_tick relax m st) as [|st'|st'|e] eqn:Ht; try apply keepsRecords_refl.
  - destruct (pq_tick_inv st st' Hinv Hview) as [??]; [by left|].
    eapply keepsRecords_trans; [apply pq_tick_keeps; eauto|by apply IH].
  - destruct (pq_tick_inv st st' Hinv Hview) as [??]; [by right|].
    eapply keepsRecords_trans; [apply pq_tick_keeps; eauto|by apply IH].
Qed.

Lemma pq_after_records n k :
  keepsRecords (after (pq_tick relax m) n (pq_init m))
               (after (pq_tick relax m) (n + k) (pq_init m)).
Proof.
  rewrite after_add.
  destruct (PqInv_init m) as [Hinv0 Hview0].
  destruct (pq_after_inv n (pq_init m) Hinv0 Hview0) as [Hinv Hview].
  by apply pq_after_keeps.
Qed.

Lemma pq_after_fresh n : admitsOnlyFresh m (after (pq_tick relax m) n (pq_init m)).
Proof.
  destruct (PqInv_init m) as [Hinv0 Hview0].
  destruct (pq_after_inv n (pq_init m) Hinv0 Hview0) as [(Hdom & _) Hview].
  split; [apply (inv_NoDup _ _ _ Hview)|].
  intros item rest Hq c (_ & _ & Hc)%findNeighbors_elem_of.
  split; apply has_false, not_elem_of_dom; [done|by rewrite Hdom].
Qed.

(** The callback of either search, read as the driver wants it. *)
Lemma pq_tick_spec st :
  Good m cellsOf visited (PqInv m) st →
  match pq_tick relax m st with
  | Exit => cellsOf st = []
  | GoalPopped st' =>
      endCell m ∈ cellsOf st ∧ visited st' = visited st
      ∧ pq_tick relax m st' = Exit ∧ True
  | Expanded st' =>
      PqInv m st'
      ∧ Step m (cellsOf st) (dom (visited st)) (cellsOf st') (dom (visited st'))
  | Crashed _ => False
  end.
Proof.
  intros (Hinv & Hview & _).
  destruct (PQ.queue (frontier st)) as [|item rest] eqn:Hq.
  { rewrite pq_tick_Exit by done. unfold cellsOf. by rewrite Hq. }
  destruct (decide (PQ.element item = endCell m)) as [Hgoal|Hne].
  - rewrite (pq_tick_GoalPopped m relax st item rest Hq Hgoal).
    split; [|done]. unfold cellsOf. rewrite Hq, fmap_cons, Hgoal. by left.
  - rewrite (pq_tick_Expanded m relax st item rest Hq Hne).
    by apply (expand_Step m prio relax relax_fresh).
Qed.

(** When the exit cell cannot be reached the queue runs dry, the exit cell
    is not a key of the visited map, and [pathReconstruct] is called on
    that. *)
Lemma pq_unreachable fuel :
  ¬ Reachable m (startCell m) (endCell m) → (enoughFuel m ≤ fuel)%nat →
  ∃ st, ticks (pq_tick relax m) fuel (pq_init m) Exhausted = Some (Return (Exhausted, st))
        ∧ key (endCell m) ∉ dom (visited st).
Proof.
  intros Hun Hfuel.
  destruct (ticks_ends m (pq_tick relax m) cellsOf visited (PqInv m) (λ _, True)
              pq_tick_spec fuel (pq_init m) Exhausted) as [[? _]|[_ Hex]]; [| |done|done].
  - destruct (PqInv_init m) as [Hinv Hview].
    split; [done|]. split; [done|apply pq_init_Closed].
  - pose proof (pq_init_measure m). lia.
Qed.

End PqRuns.

Section BfsRuns.
Variable m : Map.

Lemma bfs_tick_spec st :
  Good m bfs_frontier bfs_visited (λ _, True) st →
  match bfs_tick m st with
  | Exit => bfs_frontier st = []
  | GoalPopped st' =>
      endCell m ∈ bfs_frontier st ∧ bfs_visited st' = bfs_visited st
      ∧ bfs_tick m st' = Exit ∧ True
  | Expanded st' =>
      True ∧ Step m (bfs_frontier st) (dom (bfs_visited st))
               (bfs_frontier st') (dom (bfs_visited st'))
  | Crashed _ => False
  end.
Proof.
  intros _. destruct (bfs_frontier st) as [|cur rest] eqn:Hfr.
  { by rewrite bfs_tick_Exit. }
  destruct (decide (cur = endCell m)) as [->|Hne].
  - rewrite (bfs_tick_GoalPopped m st rest Hfr). split; [by left|done].
  - rewrite (bfs_tick_Expanded m st cur rest Hfr Hne). split; [done|].
    exists cur, rest, (findNeighbors m cur.1 cur.2 (bfs_visited st)).
    split; [done|]. split; [done|]. split; [apply findNeighbors_NoDup|].
    split; [intros c; rewrite findNeighbors_elem_of; by destruct cur|].
    by rewrite bfs_fold_frontier, bfs_fold_visited.
Qed.

Lemma bfs_unreachable fuel :
  ¬ Reachable m (startCell m) (endCell m) → (enoughFuel m ≤ fuel)%nat →
  ∃ st, ticks (bfs_tick m) fuel (bfs_init m) Exhausted = Some (Return (Exhausted, st))
        ∧ key (endCell m) ∉ dom (bfs_visited st).
Proof.
  intros Hun Hfuel.
  destruct (ticks_ends m (bfs_tick m) bfs_frontier bfs_visited (λ _, True) (λ _, True)
              bfs_tick_spec fuel (bfs_init m) Exhausted) as [[? _]|[_ Hex]]; [| |done|done].
  - destruct (PqInv_init m) as [_ Hview].
    split; [done|]. split; [exact Hview|apply pq_init_Closed].
  - eapply Nat.lt_le_trans; [apply (pq_init_measure m)|done].
Qed.

End BfsRuns.

Lemma pathReconstruct_unvisited fuel visited m :
  key (endCell m) ∉ dom visited → endCell m ≠ startCell m → (0 < fuel)%nat →
  pathReconstruct fuel visited m = Some (Throw TypeError).
Proof.
  intros Hkey Hne Hfuel. destruct fuel as [|fuel]; [lia|].
  unfold pathReconstruct. simpl.
  rewrite (proj2 (equals_arr_false _ _) Hne).
  change (toString (arr (endCell m))) with (key (endCell m)).
  by rewrite (proj1 (not_elem_of_dom _ _) Hkey).
Qed.

(** On every grid whose exit cell cannot be reached from the start cell,
    the three searches end in [Exhausted], and the call of
    [pathReconstruct] that follows throws a [TypeError]. *)
Lemma unreachable_throws (m : Map) (fuel : nat) :
  ¬ Reachable m (startCell m) (endCell m) → (enoughFuel m ≤ fuel)%nat →
  (terminal (ticks (bfs_tick m) fuel (bfs_init m) Exhausted) = Some Exhausted
   ∧ bfs fuel m = Some (Throw TypeError))
  ∧ (terminal (ticks (dijkstra_tick m) fuel (pq_init m) Exhausted) = Some Exhausted
     ∧ dijkstra fuel m = Some (Throw TypeError))
  ∧ (terminal (ticks (astar_tick m) fuel (pq_init m) Exhausted) = Some Exhausted
     ∧ astar fuel m = Some (Throw TypeError)).
Proof.
  intros Hun Hfuel.
  assert (endCell m ≠ startCell m) as Hne.
  { intros Heq. apply Hun. rewrite Heq. exists []. constructor. }
  assert (0 < fuel)%nat as Hpos by (unfold enoughFuel in Hfuel; lia).
  split; [|split].
  - destruct (bfs_unreachable m fuel Hun Hfuel) as (st & Ht & Hkey).
    unfold bfs. rewrite Ht. simpl. split; [done|].
    by apply pathReconstruct_unvisited.
  - destruct (pq_unreachable m dijkstra_prio dijkstra_relax (dijkstra_relax_fresh m)
                fuel Hun Hfuel) as (st & Ht & Hkey).
    unfold dijkstra, dijkstra_tick. rewrite Ht. simpl. split; [done|].
    by apply pathReconstruct_unvisited.
  - destruct (pq_unreachable m (astar_prio m) astar_relax (astar_relax_fresh m)
                fuel Hun Hfuel) as (st & Ht & Hkey).
    unfold astar, astar_tick. rewrite Ht. simpl. split; [done|].
    by apply pathReconstruct_unvisited.
Qed.

(* ================================================================== *)
(** ** The claims about runs                                            *)
(* ================================================================== *)

(** C2 on the code.  In no run of [dijkstra] or [astar] does a callback
    admit a neighbour that is already a key of the visited map:
    [findNeighbors] has removed those, so every neighbour the loop sees
    is absent from both maps and is admitted through the first half of
    the test; the queue never holds a coordinate twice; and the cost and
    the origin recorded for a coordinate after [n] callbacks are still
    the ones recorded [k] callbacks later. *)
Theorem never_readmitted (m : Map) (n k : nat) :
  (admitsOnlyFresh m (after (dijkstra_tick m) n (pq_init m))
   ∧ keepsRecords (after (dijkstra_tick m) n (pq_init m))
                  (after (dijkstra_tick m) (n + k) (pq_init m)))
  ∧ (admitsOnlyFresh m (after (astar_tick m) n (pq_init m))
     ∧ keepsRecords (after (astar_tick m) n (pq_init m))
                    (after (astar_tick m) (n + k) (pq_init m))).
Proof.
  split; split.
  - apply (pq_after_fresh m dijkstra_prio dijkstra_relax (dijkstra_relax_fresh m)).
  - apply (pq_after_records m dijkstra_prio dijkstra_relax (dijkstra_relax_fresh m)).
  - apply (pq_after_fresh m (astar_prio m) astar_relax (astar_relax_fresh m)).
  - apply (pq_after_records m (astar_prio m) astar_relax (astar_relax_fresh m)).
Qed.

(** On [hills], after three callbacks of [astar] the cell [(0,3)] is next,
    with cost 1.  Its neighbour [(0,2)] weighs 1 and has the cost 4
    recorded, so the route through [(0,3)] would cost 2; but [(0,2)] is a
    key of the visited map, [findNeighbors] leaves it out, and its cost is
    still 4 when the search ends. *)
Example hills_cheaper_route_ignored :
  let st := after (astar_tick hills) 3 (pq_init hills) in
  head (cellsOf st) = Some (0, 3)
  ∧ cumulatedCost st !! key (0, 3) = Some 1
  ∧ cumulatedCost st !! key (0, 2) = Some 4
  ∧ findCost (grid hills) (0, 2) = 1
  ∧ findNeighbors hills 0 3 (visited st) = []
  ∧ cumulatedCost (after (astar_tick hills) (enoughFuel hills) (pq_init hills))
      !! key (0, 2) = Some 4.
Proof. vm_compute. repeat split; reflexivity. Qed.

(** C7 on the code.  When the exit cell cannot be reached from the start
    cell, each of the three searches ends in [Exhausted], and then raises
    a [TypeError]: [pathReconstruct] reads the entry of the exit cell in
    the visited map, gets [undefined], and tests it against the start
    cell. *)
Theorem unreachable_goal_throws (m : Map) (fuel : nat) :
  wf_map m = true →
  ¬ Reachable m (startCell m) (endCell m) → (enoughFuel m ≤ fuel)%nat →
  (terminal (ticks (bfs_tick m) fuel (bfs_init m) Exhausted) = Some Exhausted
   ∧ bfs fuel m = Some (Throw TypeError))
  ∧ (terminal (ticks (dijkstra_tick m) fuel (pq_init m) Exhausted) = Some Exhausted
     ∧ dijkstra fuel m = Some (Throw TypeError))
  ∧ (terminal (ticks (astar_tick m) fuel (pq_init m) Exhausted) = Some Exhausted
     ∧ astar fuel m = Some (Throw TypeError)).
Proof. intros _. apply unreachable_throws. Qed.

Lemma unreachable_goal_throws_witness :
  (terminal (ticks (bfs_tick walled) (enoughFuel walled) (bfs_init walled) Exhausted)
   = Some Exhausted
   ∧ bfs (enoughFuel walled) walled = Some (Throw TypeError))
  ∧ (terminal (ticks (dijkstra_tick walled) (enoughFuel walled) (pq_init walled) Exhausted)
     = Some Exhausted
     ∧ dijkstra (enoughFuel walled) walled = Some (Throw TypeError))
  ∧ (terminal (ticks (astar_tick walled) (enoughFuel walled) (pq_init walled) Exhausted)
     = Some Exhausted
     ∧ astar (enoughFuel walled) walled = Some (Throw TypeError)).
Proof.
  apply (unreachable_goal_throws walled (enoughFuel walled)).
  - reflexivity.
  - apply (encloses_unreachable walled walledRegion). reflexivity.
  - lia.
Defined.

(** C8 on the code.  On [hills], a well-formed grid whose cells all weigh
    at least 1, [astar] returns a path of cost 7 and [dijkstra] one of
    cost 5. *)
Theorem astar_dearer_than_dijkstra :
  wf_map hills = true ∧ weightsAtLeast 1 hills = true
  ∧ astar (enoughFuel hills) hills = Some (Return [[1; 0]; [1; 1]; [1; 2]; [1; 3]])
  ∧ dijkstra (enoughFuel hills) hills
    = Some (Return [[1; 0]; [0; 0]; [0; 1]; [0; 2]; [0; 3]; [1; 3]])
  ∧ travelCost (grid hills) [[1; 0]; [1; 1]; [1; 2]; [1; 3]] = 7
  ∧ travelCost (grid hills) [[1; 0]; [0; 0]; [0; 1]; [0; 2]; [0; 3]; [1; 3]] = 5.
Proof. vm_compute. repeat split; reflexivity. Qed.

(** C9.  In each of the three searches, the callback that pops the exit
    cell leaves both maps as they are and the frontier empty, whatever
    was still waiting in it; the next callback finds it empty and ends the
    search, in [Found]. *)
Theorem goal_popped_ends (m : Map) :
  (∀ st rest n t,
     bfs_frontier st = endCell m :: rest →
     bfs_tick m st = GoalPopped (mkBfs [] (bfs_visited st))
     ∧ ticks (bfs_tick m) (S (S n)) st t
       = Some (Return (Found, mkBfs [] (bfs_visited st))))
  ∧ (∀ st item rest n t,
       PQ.queue (frontier st) = item :: rest → PQ.element item = endCell m →
       dijkstra_tick m st = GoalPopped (mkPq PQ.empty (visited st) (cumulatedCost st))
       ∧ ticks (dijkstra_tick m) (S (S n)) st t
         = Some (Return (Found, mkPq PQ.empty (visited st) (cumulatedCost st))))
  ∧ (∀ st item rest n t,
       PQ.queue (frontier st) = item :: rest → PQ.element item = endCell m →
       astar_tick m st = GoalPopped (mkPq PQ.empty (visited st) (cumulatedCost st))
       ∧ ticks (astar_tick m) (S (S n)) st t
         = Some (Return (Found, mkPq PQ.empty (visited st) (cumulatedCost st)))).
Proof.
  split; [|split].
  - intros st rest n t Hfr.
    pose proof (bfs_tick_GoalPopped m st rest Hfr) as Ht.
    split; [done|]. simpl. by rewrite Ht.
  - intros st item rest n t Hq Hgoal.
    pose proof (pq_tick_GoalPopped m dijkstra_relax st item rest Hq Hgoal) as Ht.
    split; [done|]. unfold dijkstra_tick. simpl. by rewrite Ht.
  - intros st item rest n t Hq Hgoal.
    pose proof (pq_tick_GoalPopped m astar_relax st item rest Hq Hgoal) as Ht.
    split; [done|]. unfold astar_tick. simpl. by rewrite Ht.
Qed.

Lemma goal_popped_ends_witness :
  let waiting := [PQ.mkElement (1, 0) 5; PQ.mkElement (1, 1) 7; PQ.mkElement (2, 0) 7] in
  let st := mkPq (PQ.mkQueue waiting) ∅ ∅ in
  (bfs_tick hills (mkBfs [(1, 0); (1, 1); (2, 0)] ∅) = GoalPopped (mkBfs [] ∅)
   ∧ ticks (bfs_tick hills) 2 (mkBfs [(1, 0); (1, 1); (2, 0)] ∅) Exhausted
     = Some (Return (Found, mkBfs [] ∅)))
  ∧ (dijkstra_tick hills st = GoalPopped (mkPq PQ.empty ∅ ∅)
     ∧ ticks (dijkstra_tick hills) 2 st Exhausted
       = Some (Return (Found, mkPq PQ.empty ∅ ∅)))
  ∧ (astar_tick hills st = GoalPopped (mkPq PQ.empty ∅ ∅)
     ∧ ticks (astar_tick hills) 2 st Exhausted
       = Some (Return (Found, mkPq PQ.empty ∅ ∅))).
Proof.
  intros waiting st.
  destruct (goal_popped_ends hills) as (Hbfs & Hdijkstra & Hastar).
  split; [|split].
  - apply (Hbfs (mkBfs [(1, 0); (1, 1); (2, 0)] ∅) [(1, 1); (2, 0)] 0%nat Exhausted).
    reflexivity.
  - apply (Hdijkstra st (PQ.mkElement (1, 0) 5) (tail waiting) 0%nat Exhausted);
      reflexivity.
  - apply (Hastar st (PQ.mkElement (1, 0) 5) (tail waiting) 0%nat Exhausted);
      reflexivity.
Defined.

(* ================================================================== *)
(** * Further properties                                                *)
(* ================================================================== *)

(** ** The priority queue as a whole *)

Section QueueWhole.
Context {A : Type}.
Implicit Types (q : PQ.PriorityQueue A) (l : list (PQ.QueueElement A)).

Lemma enqueue_sorted q a p :
  StronglySorted leq (PQ.queue q) → StronglySorted leq (PQ.queue (PQ.enqueue q a p)).
Proof.
  intros Hs. simpl. apply insert_item_sorted; unfold leq; try done; lia.
Qed.

Lemma dequeue_sorted q :
  StronglySorted leq (PQ.queue q) → StronglySorted leq (PQ.queue (PQ.dequeue q).2).
Proof.
  intros Hs. destruct q as [[|e l]]; [done|]. rewrite dequeue_cons. simpl in *.
  by apply StronglySorted_inv in Hs as [? _].
Qed.

Lemma run_sorted (calls : list (PQ.Call A)) : ∀ q,
  StronglySorted leq (PQ.queue q) → StronglySorted leq (PQ.queue (PQ.run calls q).2).
Proof.
  induction calls as [|[a p|] cs IH]; intros q Hs; simpl; [done| |].
  - by apply IH, enqueue_sorted.
  - pose proof (dequeue_sorted q Hs) as Hs'.
    destruct (PQ.dequeue q) as [r q'] eqn:Hd. simpl in Hs'.
    specialize (IH q' Hs'). by destruct (PQ.run cs q') as [rs q''].
Qed.

Lemma front_last q e :
  PQ.front q = Return e ↔ last (PQ.queue q) = Some e.
Proof.
  unfold PQ.front. destruct q as [l]. simpl.
  destruct l as [|e0 l] using rev_ind; [done|].
  rewrite (proj2 (isEmpty_false _)) by (simpl; by destruct l).
  simpl. rewrite last_snoc, length_app. simpl.
  replace (length l + 1 - 1)%nat with (length l) by lia.
  rewrite lookup_app_r, Nat.sub_diag by lia. simpl. split; congruence.
Qed.

Lemma rear_head q e :
  PQ.rear q = Return e ↔ head (PQ.queue q) = Some e.
Proof.
  unfold PQ.rear. destruct q as [[|e0 l]]; [done|]. simpl. split; congruence.
Qed.

(** X1.  [front] and [rear] throw on an empty queue and never change it
    (they return no queue).  On a queue reached by any sequence of calls,
    [rear] reads the element of lowest priority, the one the next
    [dequeue] returns, and [front] an element of highest priority. *)
Theorem front_rear_ends (calls : list (PQ.Call A)) :
  let q := (PQ.run calls PQ.empty).2 in
  (PQ.isEmpty q = true → PQ.front q = Throw EmptyQueue ∧ PQ.rear q = Throw EmptyQueue)
  ∧ (PQ.isEmpty q = false → ∃ lo hi,
       PQ.rear q = Return lo ∧ PQ.front q = Return hi
       ∧ (PQ.dequeue q).1 = Return lo
       ∧ ∀ e, e ∈ PQ.queue q → PQ.priority lo ≤ PQ.priority e ≤ PQ.priority hi).
Proof.
  intros q. split.
  { intros He. unfold PQ.front, PQ.rear. by rewrite He. }
  intros Hne. apply isEmpty_false in Hne.
  assert (StronglySorted leq (PQ.queue q)) as Hs.
  { apply run_sorted. constructor. }
  destruct (PQ.queue q) as [|lo l] eqn:Hq; [done|].
  destruct (last (lo :: l)) as [hi|] eqn:Hlast.
  2:{ by apply last_None in Hlast. }
  exists lo, hi. split; [by apply rear_head; rewrite Hq|].
  split; [by apply front_last; rewrite Hq|].
  split.
  { destruct q as [q0]. simpl in Hq. subst q0. by rewrite dequeue_cons. }
  intros e He. split.
  - apply elem_of_cons in He as [->|He]; [lia|].
    apply StronglySorted_inv in Hs as [_ Hlo]. rewrite Forall_forall in Hlo.
    by apply Hlo.
  - apply last_Some in Hlast as [l' Hl']. rewrite Hl' in Hs, He.
    apply elem_of_app in He as [He|He]; [|apply list_elem_of_singleton in He as ->; lia].
    by apply (StronglySorted_app_1_elem_of leq l' [hi] e hi Hs He); left.
Qed.

Lemma run_conserves (calls : list (PQ.Call A)) : ∀ q,
  returned (PQ.run calls q).1 ++ PQ.queue (PQ.run calls q).2
  ≡ₚ PQ.queue q ++ enqueued calls.
Proof.
  induction calls as [|[a p|] cs IH]; intros q; simpl.
  - by rewrite app_nil_r.
  - rewrite IH. simpl. rewrite insert_item_Permutation. simpl.
    apply Permutation_middle.
  - destruct q as [[|e l]].
    + specialize (IH (PQ.mkQueue [])).
      change (PQ.dequeue (PQ.mkQueue (A:=A) []))
        with (Throw (A:=PQ.QueueElement A) EmptyQueue, PQ.mkQueue (A:=A) []).
      cbv iota beta. destruct (PQ.run cs (PQ.mkQueue [])) as [rs q'']. exact IH.
    + specialize (IH (PQ.mkQueue l)). rewrite dequeue_cons. cbv iota beta.
      destruct (PQ.run cs (PQ.mkQueue l)) as [rs q'']. simpl in *. by rewrite IH.
Qed.

Lemma run_throws (calls : list (PQ.Call A)) : ∀ q ex,
  Throw ex ∈ (PQ.run calls q).1 → ex = EmptyQueue.
Proof.
  induction calls as [|[a p|] cs IH]; intros q ex; simpl.
  - by intros ?%elem_of_nil.
  - apply IH.
  - destruct q as [[|e l]].
    + change (PQ.dequeue (PQ.mkQueue (A:=A) []))
        with (Throw (A:=PQ.QueueElement A) EmptyQueue, PQ.mkQueue (A:=A) []).
      cbv iota beta. specialize (IH (PQ.mkQueue []) ex).
      destruct (PQ.run cs (PQ.mkQueue [])) as [rs q'']. simpl in *.
      intros [[= ->]|?]%elem_of_cons; [done|by apply IH].
    + rewrite dequeue_cons. cbv iota beta. specialize (IH (PQ.mkQueue l) ex).
      destruct (PQ.run cs (PQ.mkQueue l)) as [rs q'']. simpl in *.
      intros [[=]|?]%elem_of_cons. by apply IH.
Qed.

(** X2.  In any sequence of calls on a new queue nothing is lost and
    nothing is made up: the elements the [dequeue]s returned, together
    with those still stored, are the elements enqueued, each as often as
    it was enqueued; and a [dequeue] that throws throws the empty-queue
    string. *)
Theorem queue_conserves (calls : list (PQ.Call A)) :
  returned (PQ.run calls PQ.empty).1 ++ PQ.queue (PQ.run calls PQ.empty).2
  ≡ₚ enqueued calls
  ∧ ∀ ex, Throw ex ∈ (PQ.run calls PQ.empty).1 → ex = EmptyQueue.
Proof.
  split; [apply (run_conserves calls PQ.empty)|apply run_throws].
Qed.

Lemma ofPriority_none p l :
  Forall (λ e, PQ.priority e ≠ p) l → ofPriority p l = [].
Proof.
  unfold ofPriority. induction 1 as [|e l He _ IH]; [done|].
  by rewrite filter_cons_False.
Qed.

Lemma ofPriority_insert_item p item l :
  StronglySorted leq l →
  ofPriority p (PQ.insert_item item l)
  = ofPriority p l ++ (if decide (PQ.priority item = p) then [item] else []).
Proof.
  induction l as [|e l IH]; intros Hs; simpl.
  - unfold ofPriority. rewrite filter_cons, filter_nil. by case_decide.
  - apply StronglySorted_inv in Hs as [Hs He].
    destruct (Z.gtb_spec (PQ.priority e) (PQ.priority item)) as [Hgt|Hle].
    + unfold ofPriority at 1. rewrite (filter_cons _ item). fold (ofPriority p (e :: l)).
      case_decide as Hp.
      * rewrite (ofPriority_none p (e :: l)); [reflexivity|].
        rewrite Forall_cons. split; [lia|].
        eapply Forall_impl; [exact He|]. unfold leq. intros e'. simpl. lia.
      * by rewrite app_nil_r.
    + unfold ofPriority in *. rewrite !(filter_cons _ e), IH by done.
      destruct (decide (PQ.priority e = p)); reflexivity.
Qed.

Lemma enqueueAll_sorted (items : list (PQ.QueueElement A)) : ∀ q,
  StronglySorted leq (PQ.queue q) → StronglySorted leq (PQ.queue (enqueueAll items q)).
Proof.
  induction items as [|e items IH]; intros q Hs; simpl; [done|].
  by apply IH, enqueue_sorted.
Qed.

Lemma enqueueAll_ofPriority p (items : list (PQ.QueueElement A)) : ∀ q,
  StronglySorted leq (PQ.queue q) →
  ofPriority p (PQ.queue (enqueueAll items q))
  = ofPriority p (PQ.queue q) ++ ofPriority p items.
Proof.
  induction items as [|e items IH]; intros q Hs; simpl.
  - unfold ofPriority. by rewrite filter_nil, app_nil_r.
  - rewrite IH by (by apply enqueue_sorted). simpl.
    rewrite ofPriority_insert_item by done. rewrite <- app_assoc. f_equal.
    unfold ofPriority. rewrite (filter_cons _ e). destruct e as [a pe]. simpl.
    by case_decide.
Qed.

Lemma drain_queue n q : drain n q = take n (PQ.queue q).
Proof.
  revert q. induction n as [|n IH]; intros [[|e l]]; simpl; try done.
  by rewrite IH.
Qed.

Lemma enqueueAll_Permutation (items : list (PQ.QueueElement A)) : ∀ q,
  PQ.queue (enqueueAll items q) ≡ₚ PQ.queue q ++ items.
Proof.
  induction items as [|e items IH]; intros q; simpl; [by rewrite app_nil_r|].
  rewrite IH. simpl. rewrite insert_item_Permutation. destruct e as [a p]. simpl.
  apply Permutation_middle.
Qed.

(** X3.  The queue sorts: enqueueing the items of a list into a new queue
    and then dequeueing as many times returns the items sorted by
    priority, lowest first, those of equal priority in the order of the
    list; the queue is empty afterwards, so one more [dequeue] adds
    nothing. *)
Theorem queue_sorts (items : list (PQ.QueueElement A)) :
  let q := enqueueAll items PQ.empty in
  let out := drain (length items) q in
  StronglySorted leq out
  ∧ out ≡ₚ items
  ∧ (∀ p, ofPriority p out = ofPriority p items)
  ∧ drain (S (length items)) q = out.
Proof.
  intros q out.
  assert (StronglySorted leq (PQ.queue q)) as Hs.
  { apply enqueueAll_sorted. constructor. }
  assert (PQ.queue q ≡ₚ items) as Hperm.
  { unfold q. by rewrite enqueueAll_Permutation. }
  assert (out = PQ.queue q) as Hout.
  { unfold out. rewrite drain_queue, take_ge; [done|]. by rewrite Hperm. }
  rewrite Hout. split; [done|]. split; [done|]. split.
  - intros p. unfold q. by rewrite enqueueAll_ofPriority by constructor.
  - rewrite drain_queue, take_ge; [done|]. rewrite Hperm. lia.
Qed.

End QueueWhole.

(** ** Keys and distances *)

(** X4.  The string key of a coordinate identifies it, as [equals] does:
    two coordinates have the same key exactly when they are the same, and
    exactly when [equals] holds of their arrays; so an entry set under the
    key of [c] is what is read back under the key of [c'] exactly when
    [c'] is [c], and every other entry is read as before. *)
Theorem key_identifies {V : Type} (c c' : Coord) (mp : gmap string V) (v : V) :
  (key c = key c' ↔ c = c')
  ∧ (equals (arr c) (arr c') = true ↔ key c = key c')
  ∧ <[key c := v]> mp !! key c' = (if decide (c = c') then Some v else mp !! key c').
Proof.
  assert (key c = key c' ↔ c = c') as Hk.
  { split; [apply key_inj|by intros ->]. }
  split; [done|]. split; [by rewrite equals_arr|].
  case_decide as Hc.
  - subst c'. apply lookup_insert_eq.
  - apply lookup_insert_ne. by rewrite Hk.
Qed.

Lemma adjacent_cases (a b : Coord) :
  adjacent a b ↔
  (b.1 = a.1 - 1 ∧ b.2 = a.2) ∨ (b.1 = a.1 + 1 ∧ b.2 = a.2)
  ∨ (b.1 = a.1 ∧ b.2 = a.2 - 1) ∨ (b.1 = a.1 ∧ b.2 = a.2 + 1).
Proof.
  unfold adjacent, canonical. destruct a as [x y], b as [x' y']. simpl.
  rewrite !elem_of_cons, elem_of_nil. split.
  - intros [H|[H|[H|[H|[]]]]]; inversion H; lia.
  - intros [[-> ->]|[[-> ->]|[[-> ->]|[-> ->]]]]; tauto.
Qed.

(** X5.  [heuristic] is the Manhattan distance: symmetric, never
    negative, zero exactly between a cell and itself, it obeys the
    triangle inequality, and it is 1 exactly between two cells that share
    a side, the neighbours [findNeighbors] looks at. *)
Theorem heuristic_distance (a b c : Coord) :
  heuristic a b = heuristic b a
  ∧ 0 ≤ heuristic a b
  ∧ (heuristic a b = 0 ↔ a = b)
  ∧ heuristic a c ≤ heuristic a b + heuristic b c
  ∧ (heuristic a b = 1 ↔ adjacent a b).
Proof.
  rewrite adjacent_cases. unfold heuristic.
  destruct a as [ax ay], b as [bx by_], c as [cx cy]. simpl.
  repeat split; try lia.
  - intros H. f_equal; lia.
  - intros [= -> ->]. lia.
Qed.

Lemma heuristic_step (g b c : Coord) :
  adjacent b c → heuristic g c ≤ heuristic g b + 1.
Proof.
  rewrite adjacent_cases. unfold heuristic.
  destruct g as [gx gy], b as [bx by_], c as [cx cy]. simpl. lia.
Qed.

(** X6.  On a grid whose passable cells weigh at least 1 the heuristic of
    [astar] never overestimates: from any cell, every walk to the exit
    cell costs at least the heuristic of that cell. *)
Theorem heuristic_admissible (m : Map) (c : Coord) (l : list Coord) :
  (∀ c', validate m c'.1 c'.2 = true → 1 ≤ findCost (grid m) c') →
  Walk m c l (endCell m) →
  heuristic (endCell m) c ≤ pathCost m l.
Proof.
  intros Hw Hl.
  cut (heuristic c (endCell m) ≤ pathCost m l).
  { unfold heuristic. lia. }
  induction Hl as [|l b g Hl IH Hadj Hv].
  - unfold heuristic, pathCost. simpl. lia.
  - rewrite pathCost_snoc. specialize (Hw g Hv).
    pose proof (heuristic_step c b g Hadj). lia.
Qed.

Lemma heuristic_admissible_witness :
  heuristic (endCell hills) (0, 1) ≤ pathCost hills [(0, 0); (1, 0)].
Proof.
  apply (heuristic_admissible hills (0, 1) [(0, 0); (1, 0)]).
  - apply weightsAtLeast_spec. reflexivity.
  - apply walkEnd_Walk. reflexivity.
Defined.

(** ** Painting the grid *)

Section Painting.
Implicit Types (m : Map) (g : list (list Cell)).

Lemma gridAt_Some_nonneg g x y cell : gridAt g x y = Some cell → 0 ≤ x ∧ 0 ≤ y.
Proof.
  unfold gridAt. destruct (0 <=? x) eqn:Hx, (0 <=? y) eqn:Hy; try done. lia.
Qed.

Lemma gridAt_gridUpdate f g x y x' y' :
  0 ≤ x → 0 ≤ y →
  gridAt (gridUpdate f g x y) x' y'
  = if decide ((x', y') = (x, y)) then f <$> gridAt g x' y' else gridAt g x' y'.
Proof.
  intros Hx Hy. unfold gridAt, gridUpdate.
  destruct (0 <=? x') eqn:Hx', (0 <=? y') eqn:Hy'; simpl; try by case_decide.
  apply Z.leb_le in Hx', Hy'.
  destruct (decide (x' = x)) as [->|Hnx].
  - rewrite list_lookup_alter_eq. destruct (g !! Z.to_nat x) as [row|]; simpl.
    + destruct (decide (y' = y)) as [->|Hny].
      * rewrite list_lookup_alter_eq. by rewrite decide_True.
      * rewrite list_lookup_alter_ne by lia. rewrite decide_False; [done|congruence].
    + by case_decide.
  - rewrite list_lookup_alter_ne by lia. rewrite decide_False; [done|congruence].
Qed.

Lemma wf_map_withGrid_update m f x y :
  wf_map m = true → wf_map (withGrid m (gridUpdate f (grid m) x y)) = true.
Proof.
  unfold wf_map, withGrid, gridUpdate. simpl.
  rewrite !andb_true_iff, !bool_decide_eq_true, !forallb_forall.
  intros [Hlen Hrows]. split; [by rewrite length_alter|].
  assert (∀ i row, grid m !! i = Some row → Z.of_nat (length row) = mapSize m)
    as Hrow.
  { intros i row Hi. eapply bool_decide_eq_true, Hrows, list_elem_of_In,
      list_elem_of_lookup. eauto. }
  intros row [i Hi]%list_elem_of_In%list_elem_of_lookup.
  apply bool_decide_eq_true.
  destruct (decide (i = Z.to_nat x)) as [->|Hne].
  - rewrite list_lookup_alter_eq in Hi.
    destruct (grid m !! Z.to_nat x) as [row0|] eqn:Hrow0; [|done].
    simpl in Hi. injection Hi as <-. rewrite length_alter. eauto.
  - rewrite list_lookup_alter_ne in Hi by done. eauto.
Qed.

(** X7.  [setTerrain] on a cell of the grid changes the terrain of that
    cell and nothing else: afterwards [validate] accepts the cell exactly
    when the terrain painted is not the obstacle, answers as before for
    every other coordinate, and all weights are as they were.  Outside
    the grid it throws and paints nothing. *)
Theorem setTerrain_paints (m : Map) (x y : Z) (terrain : string) :
  wf_map m = true →
  (isBound m x y = true →
   ∃ m', setTerrain m x y terrain = Return m'
     ∧ wf_map m' = true
     ∧ (mapSize m', startCell m', endCell m') = (mapSize m, startCell m, endCell m)
     ∧ (∀ x' y', validate m' x' y'
          = if decide ((x', y') = (x, y)) then negb (String.eqb terrain "obstacle")
            else validate m x' y')
     ∧ (∀ c, findCost (grid m') c = findCost (grid m) c))
  ∧ (isBound m x y = false → setTerrain m x y terrain = Throw TypeError).
Proof.
  intros Hwf. split; [|by unfold setTerrain; intros ->].
  intros Hb. destruct (gridAt_wf m x y Hwf Hb) as [cell Hcell].
  destruct (gridAt_Some_nonneg _ _ _ _ Hcell) as [Hx Hy].
  unfold setTerrain. rewrite Hb, Hcell. eexists. split; [done|].
  split; [by apply wf_map_withGrid_update|]. split; [done|]. split.
  - intros x' y'. unfold validate. simpl.
    rewrite gridAt_gridUpdate by done.
    change (isBound (withGrid m _) x' y') with (isBound m x' y').
    case_decide as Heq.
    + injection Heq as -> ->. by rewrite Hb, Hcell.
    + done.
  - intros [cx cy]. unfold findCost. simpl. rewrite gridAt_gridUpdate by done.
    case_decide; [|done]. by destruct (gridAt (grid m) cx cy).
Qed.

Lemma setTerrain_paints_witness :
  (∃ m', setTerrain walled 1 1 "obstacle" = Return m'
     ∧ wf_map m' = true
     ∧ (mapSize m', startCell m', endCell m')
       = (mapSize walled, startCell walled, endCell walled)
     ∧ (∀ x' y', validate m' x' y'
          = if decide ((x', y') = (1, 1)) then negb (String.eqb "obstacle" "obstacle")
            else validate walled x' y')
     ∧ (∀ c, findCost (grid m') c = findCost (grid walled) c))
  ∧ setTerrain walled 3 0 "forest" = Throw TypeError.
Proof.
  split.
  - apply (proj1 (setTerrain_paints walled 1 1 "obstacle" eq_refl)). reflexivity.
  - apply (proj2 (setTerrain_paints walled 3 0 "forest" eq_refl)). reflexivity.
Defined.

(** X8.  [setWeight] on a cell of the grid records the weight: [findCost]
    reads it back for that cell and reads every other cell as before, and
    no answer of [validate] changes, whatever the weight (a cell is an
    obstacle by its type, never by its weight).  Where the grid has no
    entry it throws. *)
Theorem setWeight_records (m : Map) (x y w : Z) :
  wf_map m = true →
  (isBound m x y = true →
   ∃ m', setWeight m x y w = Return m'
     ∧ wf_map m' = true
     ∧ (mapSize m', startCell m', endCell m') = (mapSize m, startCell m, endCell m)
     ∧ (∀ c, findCost (grid m') c = if decide (c = (x, y)) then w else findCost (grid m) c)
     ∧ (∀ x' y', validate m' x' y' = validate m x' y'))
  ∧ (gridAt (grid m) x y = None → setWeight m x y w = Throw TypeError).
Proof.
  intros Hwf. split; [|by unfold setWeight; intros ->].
  intros Hb. destruct (gridAt_wf m x y Hwf Hb) as [cell Hcell].
  destruct (gridAt_Some_nonneg _ _ _ _ Hcell) as [Hx Hy].
  unfold setWeight. rewrite Hcell. eexists. split; [done|].
  split; [by apply wf_map_withGrid_update|]. split; [done|]. split.
  - intros [cx cy]. unfold findCost. simpl. rewrite gridAt_gridUpdate by done.
    destruct (decide ((cx, cy) = (x, y))) as [Heq|Hne].
    + injection Heq as -> ->. rewrite decide_True by done. by rewrite Hcell.
    + by rewrite decide_False by done.
  - intros x' y'. unfold validate. simpl.
    rewrite gridAt_gridUpdate by done.
    change (isBound (withGrid m _) x' y') with (isBound m x' y').
    case_decide; [|done]. by destruct (gridAt (grid m) x' y').
Qed.

Lemma setWeight_records_witness :
  (∃ m', setWeight walled 1 1 7 = Return m'
     ∧ wf_map m' = true
     ∧ (mapSize m', startCell m', endCell m')
       = (mapSize walled, startCell walled, endCell walled)
     ∧ (∀ c, findCost (grid m') c
          = if decide (c = (1, 1)) then 7 else findCost (grid walled) c)
     ∧ (∀ x' y', validate m' x' y' = validate walled x' y'))
  ∧ findCost (grid walled) (1, 1) = 1
  ∧ setWeight walled 0 5 7 = Throw TypeError.
Proof.
  split; [|split].
  - apply (proj1 (setWeight_records walled 1 1 7 eq_refl)). reflexivity.
  - reflexivity.
  - apply (proj2 (setWeight_records walled 0 5 7 eq_refl)). reflexivity.
Defined.

End Painting.

(* ================================================================== *)
(** ** The paths the searches return                                    *)
(* ================================================================== *)

Section Routes.
Variable m : Map.
Implicit Types (visited : gmap string (list Z)) (l : list Coord) (c : Coord).

Lemma Route_Walk visited l c : Route m visited l c → Walk m (startCell m) l c.
Proof. induction 1; [constructor|by econstructor]. Qed.

Lemma Route_mono visited visited' l c :
  (∀ k x, visited !! k = Some x → visited' !! k = Some x) →
  Route m visited l c → Route m visited' l c.
Proof. intros Hsub. induction 1; [constructor|econstructor; eauto]. Qed.

Lemma Route_cells visited l c :
  Route m visited l c →
  ∀ x, x ∈ l → x ≠ startCell m ∧ validate m x.1 x.2 = true ∧ key x ∈ dom visited.
Proof.
  induction 1 as [|l p c Hr IH Hne Hlk Hadj Hv]; intros x Hx.
  - by apply elem_of_nil in Hx.
  - apply elem_of_app in Hx as [Hx|Hx]; [by apply IH|].
    apply list_elem_of_singleton in Hx as ->.
    split; [done|]. split; [done|]. by apply elem_of_dom.
Qed.

Lemma Route_Chain visited l c :
  Route m visited l c →
  Chain visited (arr (startCell m)) (arr c) (arr <$> reverse l).
Proof.
  induction 1 as [|l p c Hr IH Hne Hlk Hadj Hv].
  - apply Chain_start. by apply equals_arr.
  - rewrite reverse_snoc, fmap_cons.
    eapply Chain_link; [by apply equals_arr_false|exact Hlk|done].
Qed.

Lemma Route_length visited l c :
  Route m visited l c → NoDup l → (length l ≤ length (cells m))%nat.
Proof.
  intros Hr Hnd. rewrite <- (keys_size l Hnd).
  pose proof (size_list_to_set_le (key <$> cells m)) as Hle.
  rewrite length_fmap in Hle.
  etransitivity; [|exact Hle].
  apply subseteq_size. intros k (x & -> & Hx)%elem_of_list_to_set%list_elem_of_fmap.
  apply (validate_allKeys m), (Route_cells _ _ _ Hr x Hx).
Qed.



Lemma pathOf_NoDup l : NoDup (startCell m :: l) → NoDup (pathOf m l).
Proof.
  intros Hnd. unfold pathOf. apply NoDup_fmap_2_strong.
  - intros [x y] [x' y'] _ _. unfold arr. simpl. congruence.
  - by rewrite reverse_Permutation.
Qed.

Lemma TreeInv_init (P : list Coord → Coord → Prop) :
  P [] (startCell m) → TreeInv m (<[key (startCell m) := []]> ∅) P.
Proof.
  intros HP c. rewrite dom_insert_L, dom_empty_L, union_empty_r_L.
  intros Hc%elem_of_singleton%key_inj. subst c.
  exists []. split; [constructor|]. split; [constructor|done].
Qed.

(** One expansion: the fresh neighbours [ns] of the visited cell [cur]
    are recorded with [cur] as origin, and nothing else changes. *)
Lemma TreeInv_extend visited visited' (P P' : list Coord → Coord → Prop) cur ns :
  TreeInv m visited P →
  key cur ∈ dom visited → key (startCell m) ∈ dom visited →
  (∀ k x, visited !! k = Some x → visited' !! k = Some x) →
  dom visited' = dom visited ∪ keysOf ns →
  (∀ n, n ∈ ns → adjacent cur n ∧ validate m n.1 n.2 = true
                 ∧ (key n ∉ dom visited) ∧ visited' !! key n = Some (arr cur)) →
  (∀ l c, key c ∈ dom visited → P l c → P' l c) →
  (∀ l n, n ∈ ns → P l cur → P' (l ++ [n]) n) →
  TreeInv m visited' P'.
Proof.
  intros Ht Hcur Hstart Hsub Hdom Hns Hold Hnew c Hc.
  rewrite Hdom in Hc. apply elem_of_union in Hc as [Hc|Hc].
  - destruct (Ht c Hc) as (l & Hr & Hnd & HP).
    exists l. split; [by eapply Route_mono|]. split; [done|by apply Hold].
  - apply key_elem_of in Hc.
    destruct (Hns c Hc) as (Hadj & Hv & Hfresh & Hlk).
    destruct (Ht cur Hcur) as (l & Hr & Hnd & HP).
    exists (l ++ [c]). split; [|split].
    + econstructor; [by eapply Route_mono| |done|done|done].
      by intros ->.
    + apply NoDup_app. split; [done|]. split; [|apply NoDup_singleton].
      intros x Hx ->%list_elem_of_singleton.
      by apply Hfresh, (Route_cells _ _ _ Hr).
    + by apply Hnew.
Qed.

(** From the tree to the answer of [pathReconstruct]. *)
Lemma TreeInv_pathReconstruct visited (P : list Coord → Coord → Prop) fuel :
  TreeInv m visited P → key (endCell m) ∈ dom visited → (enoughFuel m ≤ fuel)%nat →
  ∃ l, Route m visited l (endCell m) ∧ NoDup (startCell m :: l) ∧ P l (endCell m)
       ∧ pathReconstruct fuel visited m = Some (Return (pathOf m l)).
Proof.
  intros Ht Hend Hfuel. destruct (Ht _ Hend) as (l & Hr & Hnd & HP).
  exists l. split; [done|]. split; [|split; [done|]].
  - apply NoDup_cons. split; [|done].
    intros Hin. by apply (Route_cells _ _ _ Hr) in Hin as [? _].
  - pose proof (Route_length _ _ _ Hr Hnd). unfold enoughFuel in Hfuel.
    unfold pathReconstruct.
    rewrite (pathReconstruct_loop_Chain _ _ _ _ (Route_Chain _ _ _ Hr)).
    + unfold pathOf. by rewrite reverse_cons, fmap_app.
    + rewrite length_fmap, length_reverse. lia.
Qed.

End Routes.

(** A search whose callback keeps the tree of origins, run to its end. *)
Section DriverWithTree.
Variable m : Map.
Context {St : Type}.
Variables (tick : St → Tick St) (cellsOf : St → list Coord)
  (visitedOf : St → gmap string (list Z)) (J Q : St → Prop)
  (P : St → list Coord → Coord → Prop).

Hypothesis tick_spec : ∀ st, Good m cellsOf visitedOf J st →
  match tick st with
  | Exit => cellsOf st = []
  | GoalPopped st' =>
      endCell m ∈ cellsOf st ∧ visitedOf st' = visitedOf st ∧ tick st' = Exit ∧ Q st'
  | Expanded st' =>
      J st' ∧ Step m (cellsOf st) (dom (visitedOf st)) (cellsOf st') (dom (visitedOf st'))
  | Crashed _ => False
  end.

Hypothesis tree_kept : ∀ st st', Good m cellsOf visitedOf J st →
  TreeInv m (visitedOf st) (P st) →
  tick st = GoalPopped st' ∨ tick st = Expanded st' →
  TreeInv m (visitedOf st') (P st').

Lemma tick_spec_tree st :
  Good m cellsOf visitedOf (λ st, J st ∧ TreeInv m (visitedOf st) (P st)) st →
  match tick st with
  | Exit => cellsOf st = []
  | GoalPopped st' =>
      endCell m ∈ cellsOf st ∧ visitedOf st' = visitedOf st ∧ tick st' = Exit
      ∧ (Q st' ∧ TreeInv m (visitedOf st') (P st')
         ∧ key (endCell m) ∈ dom (visitedOf st'))
  | Expanded st' =>
      (J st' ∧ TreeInv m (visitedOf st') (P st'))
      ∧ Step m (cellsOf st) (dom (visitedOf st)) (cellsOf st') (dom (visitedOf st'))
  | Crashed _ => False
  end.
Proof.
  intros ([HJ HT] & Hinv & Hcl).
  assert (Good m cellsOf visitedOf J st) as Hg by done.
  pose proof (tick_spec st Hg) as Hs. pose proof (tree_kept st) as Hk.
  destruct (tick st) as [|st'|st'|e]; [done| | |done].
  - destruct Hs as (Hin & Hvis & Hexit & HQ).
    split; [done|]. split; [done|]. split; [done|]. split; [done|].
    split; [apply Hk; auto|].
    rewrite Hvis. apply (inv_frontier _ _ _ Hinv), Hin.
  - destruct Hs as [HJ' Hstep]. split; [|done]. split; [done|]. apply Hk; auto.
Qed.

Lemma found_returns fuel st0 :
  Good m cellsOf visitedOf (λ st, J st ∧ TreeInv m (visitedOf st) (P st)) st0 →
  (measure m (cellsOf st0) (dom (visitedOf st0)) < enoughFuel m)%nat →
  Reachable m (startCell m) (endCell m) → (enoughFuel m ≤ fuel)%nat →
  ∃ st l, ticks tick fuel st0 Exhausted = Some (Return (Found, st)) ∧ Q st
    ∧ Route m (visitedOf st) l (endCell m) ∧ NoDup (startCell m :: l)
    ∧ P st l (endCell m)
    ∧ finish visitedOf fuel m (ticks tick fuel st0 Exhausted)
      = Some (Return (pathOf m l)).
Proof.
  intros Hg Hm Hreach Hfuel.
  destruct (ticks_ends m tick cellsOf visitedOf
              (λ st, J st ∧ TreeInv m (visitedOf st) (P st))
              (λ st, Q st ∧ TreeInv m (visitedOf st) (P st)
                     ∧ key (endCell m) ∈ dom (visitedOf st))
              tick_spec_tree fuel st0 Exhausted Hg)
    as [[_ (st & Hticks & HQ & HT & Hend)]|[Hun _]]; [lia| |done].
  destruct (TreeInv_pathReconstruct m _ _ fuel HT Hend Hfuel) as (l & Hr & Hnd & HP & Hpath).
  exists st, l. rewrite Hticks. simpl. done.
Qed.

Lemma after_tree n : ∀ st,
  Good m cellsOf visitedOf (λ st, J st ∧ TreeInv m (visitedOf st) (P st)) st →
  TreeInv m (visitedOf (after tick n st)) (P (after tick n st)).
Proof.
  induction n as [|n IH]; intros st Hg; [by destruct Hg as ([_ ?] & _)|].
  pose proof (tick_spec_tree st Hg) as Hs. cbn [after].
  destruct (tick st) as [|st'|st'|e] eqn:Ht; [| | |done].
  - by destruct Hg as ([_ ?] & _).
  - destruct Hs as (_ & _ & Hexit & _ & Ht' & _).
    by rewrite after_stuck by (by left).
  - apply IH.
    refine (Good_Expanded m tick cellsOf visitedOf _ _ tick_spec_tree st st' Hg Ht).
Qed.

End DriverWithTree.

Section PqRoutes.
Variables (m : Map) (prio : Z → Coord → Z)
  (relax : Map → Coord → PqState → Coord → PqState).
Hypothesis relax_fresh : ∀ cur st n,
  key n ∉ dom (cumulatedCost st) → relax m cur st n = admit_with prio m cur st n.
Implicit Types (st : PqState) (c n cur : Coord).

Lemma admit_fold_origin cur ns : ∀ st,
  NoDup ns → (∀ n, n ∈ ns → key n ∉ dom (cumulatedCost st)) →
  ∀ n, n ∈ ns → visited (foldl (relax m cur) st ns) !! key n = Some (arr cur).
Proof.
  induction ns as [|n0 ns IH]; intros st Hnd Hfresh n Hn; [by apply elem_of_nil in Hn|].
  simpl. apply NoDup_cons in Hnd as [Hn0 Hnd].
  rewrite relax_fresh by (apply Hfresh; by left).
  assert (∀ n', n' ∈ ns →
            key n' ∉ dom (cumulatedCost (admit_with prio m cur st n0))) as Hfresh'.
  { intros n' Hn'. unfold admit_with. simpl. rewrite dom_insert_L.
    apply not_elem_of_union. split.
    - apply not_elem_of_singleton, key_ne. by intros ->.
    - apply Hfresh. by right. }
  apply elem_of_cons in Hn as [->|Hn]; [|by apply IH].
  rewrite (admit_fold_visited m prio relax relax_fresh); [|done|done|].
  - unfold admit_with. simpl. by rewrite lookup_insert_eq.
  - by rewrite keysOf_elem_of.
Qed.

Lemma pq_tick_tree st st' :
  PqInv m st → PqView m st → TreeInv m (visited st) (recorded m st) →
  pq_tick relax m st = GoalPopped st' ∨ pq_tick relax m st = Expanded st' →
  TreeInv m (visited st') (recorded m st').
Proof.
  intros Hinv Hview Ht.
  destruct (PQ.queue (frontier st)) as [|item rest] eqn:Hq.
  { rewrite (pq_tick_Exit m relax st Hq). by intros [|]. }
  destruct (decide (PQ.element item = endCell m)) as [Hgoal|Hne].
  { rewrite (pq_tick_GoalPopped m relax st item rest Hq Hgoal).
    intros [[= <-]|[=]]. exact Ht. }
  rewrite (pq_tick_Expanded m relax st item rest Hq Hne).
  intros [[=]|[= <-]].
  destruct (expand_facts m prio relax relax_fresh st item rest Hinv Hview Hq)
    as (base & Hbase & Hnd & _ & Hns & _ & Hvis & _ & Hnew & Hold & _).
  destruct Hinv as (Hdom & _ & Hhas & _). unfold popped in *.
  set (cur := PQ.element item) in *.
  set (ns := findNeighbors m cur.1 cur.2 (visited st)) in *.
  assert (∀ k, k ∈ keysOf ns → k ∉ dom (visited st)) as Hfresh.
  { intros k (c & -> & Hc)%elem_of_list_to_set%list_elem_of_fmap.
    by apply Hns in Hc as (_ & _ & ?). }
  assert (key cur ∈ dom (visited st)) as Hcur.
  { rewrite <- Hdom. apply Hhas. unfold cellsOf. rewrite Hq, fmap_cons. by left. }
  apply (TreeInv_extend m (visited st) _ (recorded m st) _ cur ns); try done.
  - apply (inv_start _ _ _ Hview).
  - intros k x Hk.
    rewrite (admit_fold_visited m prio relax relax_fresh); [done|done| |].
    + intros n Hn. simpl. rewrite Hdom. by apply Hns in Hn as (_ & _ & ?).
    + intros Hin. apply (Hfresh k Hin). by apply elem_of_dom.
  - intros n Hn. destruct (proj1 (Hns n) Hn) as (Hadj & Hv & Hn').
    repeat (split; [done|]).
    apply (admit_fold_origin cur ns); [done| |done].
    intros n' Hn''. simpl. rewrite Hdom. by apply Hns in Hn'' as (_ & _ & ?).
  - intros l c Hc. unfold recorded. intros Hl. rewrite Hold; [done|].
    intros Hin. by apply (Hfresh _ Hin).
  - intros l n Hn. unfold recorded. rewrite Hbase. intros [= ->].
    rewrite (Hnew n Hn), pathCost_snoc. done.
Qed.

End PqRoutes.

Lemma bfs_fold_lookup cur ns : ∀ st, NoDup ns →
  (∀ n, n ∈ ns → bfs_visited (foldl (bfs_push cur) st ns) !! key n = Some (arr cur))
  ∧ (∀ k, k ∉ keysOf ns →
       bfs_visited (foldl (bfs_push cur) st ns) !! k = bfs_visited st !! k).
Proof.
  induction ns as [|n0 ns IH]; intros st Hnd; simpl.
  { split; [intros n Hn; by apply elem_of_nil in Hn|done]. }
  apply NoDup_cons in Hnd as [Hn0 Hnd].
  destruct (IH (bfs_push cur st n0) Hnd) as [Hnew Hold]. split.
  - intros n [->|Hn]%elem_of_cons; [|by apply Hnew].
    rewrite Hold by (by rewrite keysOf_elem_of). simpl. by rewrite lookup_insert_eq.
  - intros k Hk. rewrite keysOf_cons in Hk. apply not_elem_of_union in Hk as [Hk Hk'].
    rewrite Hold by done. simpl. rewrite lookup_insert_ne; [done|set_solver].
Qed.

Lemma bfs_tick_tree m st st' :
  SearchInv m (bfs_frontier st) (dom (bfs_visited st)) →
  TreeInv m (bfs_visited st) (λ _ _, True) →
  bfs_tick m st = GoalPopped st' ∨ bfs_tick m st = Expanded st' →
  TreeInv m (bfs_visited st') (λ _ _, True).
Proof.
  intros Hinv Ht.
  destruct (bfs_frontier st) as [|cur rest] eqn:Hfr.
  { rewrite (bfs_tick_Exit m st Hfr). by intros [|]. }
  destruct (decide (cur = endCell m)) as [->|Hne].
  { rewrite (bfs_tick_GoalPopped m st rest Hfr). intros [[= <-]|[=]]. exact Ht. }
  rewrite (bfs_tick_Expanded m st cur rest Hfr Hne). intros [[=]|[= <-]].
  set (ns := findNeighbors m cur.1 cur.2 (bfs_visited st)).
  assert (∀ c, c ∈ ns ↔ adjacent cur c ∧ validate m c.1 c.2 = true
                         ∧ key c ∉ dom (bfs_visited st)) as Hns.
  { intros c. unfold ns. rewrite findNeighbors_elem_of. by destruct cur. }
  destruct (bfs_fold_lookup cur ns (mkBfs rest (bfs_visited st))
              (findNeighbors_NoDup _ _ _ _)) as [Hnew Hold].
  apply (TreeInv_extend m (bfs_visited st) _ (λ _ _, True) (λ _ _, True) cur ns);
    try done.
  - apply (inv_frontier _ _ _ Hinv). by left.
  - apply (inv_start _ _ _ Hinv).
  - intros k x Hk. rewrite Hold; [done|].
    intros (c & -> & Hc)%elem_of_list_to_set%list_elem_of_fmap.
    apply Hns in Hc as (_ & _ & Hc). by apply Hc, elem_of_dom.
  - by rewrite bfs_fold_visited.
  - intros n Hn. destruct (proj1 (Hns n) Hn) as (Hadj & Hv & Hn').
    repeat (split; [done|]). by apply Hnew.
Qed.

(** What each search returns when the exit cell can be reached. *)
Lemma bfs_route (m : Map) (fuel : nat) :
  Reachable m (startCell m) (endCell m) → (enoughFuel m ≤ fuel)%nat →
  ∃ l, Walk m (startCell m) l (endCell m) ∧ NoDup (startCell m :: l)
       ∧ bfs fuel m = Some (Return (pathOf m l)).
Proof.
  intros Hreach Hfuel.
  destruct (found_returns m (bfs_tick m) bfs_frontier bfs_visited
              (λ _, True) (λ _, True) (λ _ _ _, True) (bfs_tick_spec m)) with (fuel := fuel) (st0 := bfs_init m)
    as (st & l & _ & _ & Hr & Hnd & _ & Hret); try done.
  - intros st st' (_ & Hinv & _). by apply bfs_tick_tree.
  - destruct (PqInv_init m) as [_ Hview].
    split; [split; [done|by apply TreeInv_init]|].
    split; [exact Hview|apply pq_init_Closed].
  - apply (pq_init_measure m).
  - exists l. split; [by eapply Route_Walk|done].
Qed.

Lemma pq_route (m : Map) (prio : Z → Coord → Z)
    (relax : Map → Coord → PqState → Coord → PqState) (J Q : PqState → Prop) (fuel : nat) :
  (∀ cur st n, key n ∉ dom (cumulatedCost st) →
     relax m cur st n = admit_with prio m cur st n) →
  (∀ st, J st → PqInv m st) →
  (∀ st, Good m cellsOf visited J st →
     match pq_tick relax m st with
     | Exit => cellsOf st = []
     | GoalPopped st' =>
         endCell m ∈ cellsOf st ∧ visited st' = visited st
         ∧ pq_tick relax m st' = Exit ∧ Q st'
     | Expanded st' =>
         J st' ∧ Step m (cellsOf st) (dom (visited st)) (cellsOf st') (dom (visited st'))
     | Crashed _ => False
     end) →
  J (pq_init m) →
  Reachable m (startCell m) (endCell m) → (enoughFuel m ≤ fuel)%nat →
  ∃ st l, ticks (pq_tick relax m) fuel (pq_init m) Exhausted = Some (Return (Found, st))
    ∧ Q st ∧ Walk m (startCell m) l (endCell m) ∧ NoDup (startCell m :: l)
    ∧ cumulatedCost st !! key (endCell m) = Some (pathCost m l)
    ∧ finish visited fuel m (ticks (pq_tick relax m) fuel (pq_init m) Exhausted)
      = Some (Return (pathOf m l)).
Proof.
  intros relax_fresh HJ Hspec Hinit Hreach Hfuel.
  destruct (found_returns m (pq_tick relax m) cellsOf visited J Q (recorded m) Hspec)
    with (fuel := fuel) (st0 := pq_init m)
    as (st & l & Hticks & HQ & Hr & Hnd & Hcost & Hret); try done.
  - intros st st' (HJst & Hview & _).
    apply (pq_tick_tree m prio relax relax_fresh st st' (HJ st HJst) Hview).
  - destruct (PqInv_init m) as [_ Hview].
    split; [split; [done|]|split; [exact Hview|apply pq_init_Closed]].
    apply TreeInv_init. unfold recorded. simpl. by rewrite lookup_insert_eq.
  - apply (pq_init_measure m).
  - exists st, l. repeat (split; [done|]). split; [by eapply Route_Walk|done].
Qed.

Lemma dijkstra_cheapest (m : Map) (fuel : nat) :
  (∀ c, validate m c.1 c.2 = true → 0 ≤ findCost (grid m) c) →
  Reachable m (startCell m) (endCell m) → (enoughFuel m ≤ fuel)%nat →
  ∃ l, dijkstra fuel m = Some (Return (pathOf m l))
       ∧ Walk m (startCell m) l (endCell m) ∧ NoDup (startCell m :: l)
       ∧ ∀ l', Walk m (startCell m) l' (endCell m) → pathCost m l ≤ pathCost m l'.
Proof.
  intros Hw Hreach Hfuel.
  destruct (pq_route m dijkstra_prio dijkstra_relax
              (λ st, PqInv m st ∧ DijkstraInv m st) (costMinimal m) fuel
              (dijkstra_relax_fresh m))
    as (st & l & Hticks & (d & Hd & _ & Hopt) & Hwalk & Hnd & Hcost & Hret); try done.
  - by intros st [? _].
  - apply (dijkstra_tick_spec m Hw).
  - split; [apply PqInv_init|by apply DijkstraInv_init].
  - exists l. split; [done|]. split; [done|]. split; [done|].
    rewrite Hd in Hcost. injection Hcost as ->. done.
Qed.

Lemma pq_cost_route (m : Map) (prio : Z → Coord → Z)
    (relax : Map → Coord → PqState → Coord → PqState) (fuel : nat) :
  (∀ cur st n, key n ∉ dom (cumulatedCost st) →
     relax m cur st n = admit_with prio m cur st n) →
  Reachable m (startCell m) (endCell m) → (enoughFuel m ≤ fuel)%nat →
  ∃ st l, ticks (pq_tick relax m) fuel (pq_init m) Exhausted = Some (Return (Found, st))
    ∧ Walk m (startCell m) l (endCell m) ∧ NoDup (startCell m :: l)
    ∧ cumulatedCost st !! key (endCell m) = Some (pathCost m l)
    ∧ finish visited fuel m (ticks (pq_tick relax m) fuel (pq_init m) Exhausted)
      = Some (Return (pathOf m l)).
Proof.
  intros relax_fresh Hreach Hfuel.
  destruct (pq_route m prio relax (PqInv m) (λ _, True) fuel relax_fresh)
    as (st & l & Hticks & _ & Hrest); try done.
  - apply (pq_tick_spec m prio relax relax_fresh).
  - apply PqInv_init.
  - by exists st, l.
Qed.

(** X9.  When the exit cell can be reached from the start cell, each of
    the three searches returns a path, whatever the weights: the cells of
    a walk from the start cell to the exit cell through cells [validate]
    accepts, listed from the exit cell back to the start cell, no cell
    twice. *)
Theorem searches_return_walks (m : Map) (fuel : nat) :
  Reachable m (startCell m) (endCell m) → (enoughFuel m ≤ fuel)%nat →
  (∃ l, bfs fuel m = Some (Return (pathOf m l))
        ∧ Walk m (startCell m) l (endCell m) ∧ NoDup (pathOf m l))
  ∧ (∃ l, dijkstra fuel m = Some (Return (pathOf m l))
          ∧ Walk m (startCell m) l (endCell m) ∧ NoDup (pathOf m l))
  ∧ (∃ l, astar fuel m = Some (Return (pathOf m l))
          ∧ Walk m (startCell m) l (endCell m) ∧ NoDup (pathOf m l)).
Proof.
  intros Hreach Hfuel. split; [|split].
  - destruct (bfs_route m fuel Hreach Hfuel) as (l & Hwalk & Hnd & Hret).
    exists l. split; [done|]. split; [done|by apply pathOf_NoDup].
  - destruct (pq_cost_route m dijkstra_prio dijkstra_relax fuel
                (dijkstra_relax_fresh m) Hreach Hfuel)
      as (st & l & _ & Hwalk & Hnd & _ & Hret).
    exists l. split; [done|]. split; [done|by apply pathOf_NoDup].
  - destruct (pq_cost_route m (astar_prio m) astar_relax fuel
                (astar_relax_fresh m) Hreach Hfuel)
      as (st & l & _ & Hwalk & Hnd & _ & Hret).
    exists l. split; [done|]. split; [done|by apply pathOf_NoDup].
Qed.

Lemma searches_return_walks_witness :
  (∃ l, bfs (enoughFuel walled) (mkMap 3 (0, 0) (1, 1) (grid walled))
        = Some (Return (pathOf (mkMap 3 (0, 0) (1, 1) (grid walled)) l))
        ∧ Walk (mkMap 3 (0, 0) (1, 1) (grid walled)) (0, 0) l (1, 1)
        ∧ NoDup (pathOf (mkMap 3 (0, 0) (1, 1) (grid walled)) l))
  ∧ (∃ l, dijkstra (enoughFuel walled) (mkMap 3 (0, 0) (1, 1) (grid walled))
          = Some (Return (pathOf (mkMap 3 (0, 0) (1, 1) (grid walled)) l))
          ∧ Walk (mkMap 3 (0, 0) (1, 1) (grid walled)) (0, 0) l (1, 1)
          ∧ NoDup (pathOf (mkMap 3 (0, 0) (1, 1) (grid walled)) l))
  ∧ (∃ l, astar (enoughFuel walled) (mkMap 3 (0, 0) (1, 1) (grid walled))
          = Some (Return (pathOf (mkMap 3 (0, 0) (1, 1) (grid walled)) l))
          ∧ Walk (mkMap 3 (0, 0) (1, 1) (grid walled)) (0, 0) l (1, 1)
          ∧ NoDup (pathOf (mkMap 3 (0, 0) (1, 1) (grid walled)) l)).
Proof.
  apply (searches_return_walks (mkMap 3 (0, 0) (1, 1) (grid walled)) (enoughFuel walled)).
  - exists [(0, 1); (1, 1)]. apply walkEnd_Walk. reflexivity.
  - reflexivity.
Defined.





(* ================================================================== *)
(** ** Breadth-first search is Dijkstra with unit weights               *)
(* ================================================================== *)

Lemma insert_item_last {A : Type} (item : PQ.QueueElement A) (q : list (PQ.QueueElement A)) :
  Forall (λ e, PQ.priority e ≤ PQ.priority item) q →
  PQ.insert_item item q = q ++ [item].
Proof.
  induction 1 as [|e q He _ IH]; simpl; [done|].
  destruct (Z.gtb_spec (PQ.priority e) (PQ.priority item)) as [Hgt|Hle]; [lia|].
  by rewrite IH.
Qed.

Section UnitMap.
Variable m : Map.

Lemma gridAt_unitMap x y :
  gridAt (grid (unitMap m)) x y = (λ c, mkCell (type c) 1) <$> gridAt (grid m) x y.
Proof.
  unfold unitMap, withGrid, gridAt. simpl.
  destruct ((0 <=? x) && (0 <=? y)); [|done].
  rewrite list_lookup_fmap. destruct (grid m !! Z.to_nat x) as [row|]; simpl; [|done].
  by rewrite list_lookup_fmap.
Qed.

Lemma validate_unitMap x y : validate (unitMap m) x y = validate m x y.
Proof.
  unfold validate. rewrite gridAt_unitMap.
  change (isBound (unitMap m) x y) with (isBound m x y).
  by destruct (gridAt (grid m) x y).
Qed.

Lemma findCost_unitMap c :
  validate m c.1 c.2 = true → findCost (grid (unitMap m)) c = 1.
Proof.
  unfold validate, findCost. rewrite gridAt_unitMap. intros [_ H]%andb_true_iff.
  by destruct (gridAt (grid m) c.1 c.2).
Qed.

Lemma findNeighbors_unitMap x y visited :
  findNeighbors (unitMap m) x y visited = findNeighbors m x y visited.
Proof. unfold findNeighbors, visitCell. by rewrite !validate_unitMap. Qed.

Lemma Walk_unitMap a l b : Walk (unitMap m) a l b ↔ Walk m a l b.
Proof.
  split; induction 1 as [|l b c Hw IH Hadj Hv]; try constructor.
  - apply (Walk_step m a l b c); [done|done|]. by rewrite <- validate_unitMap.
  - apply (Walk_step (unitMap m) a l b c); [done|done|]. by rewrite validate_unitMap.
Qed.

Lemma pathCost_unitMap a l b :
  Walk m a l b → pathCost (unitMap m) l = Z.of_nat (length l).
Proof.
  induction 1 as [|l b c Hw IH Hadj Hv]; [done|].
  rewrite pathCost_snoc, length_app, findCost_unitMap, IH by done. simpl. lia.
Qed.

Lemma pathReconstruct_unitMap fuel visited :
  pathReconstruct fuel visited (unitMap m) = pathReconstruct fuel visited m.
Proof.
  unfold pathReconstruct. change (endCell (unitMap m)) with (endCell m).
  generalize (arr (endCell m)) (@nil (list Z)).
  induction fuel as [|fuel IH]; intros current endPath; [done|].
  simpl. change (startCell (unitMap m)) with (startCell m).
  destruct (equals current (arr (startCell m))); [done|].
  destruct (visited !! toString current); [apply IH|done].
Qed.

(** The [for] loops of the two callbacks, side by side. *)
Lemma lockstep_fold cur b ns : ∀ sb sp,
  Lockstep b sb sp →
  cumulatedCost sp !! key cur = Some b →
  NoDup ns →
  (∀ n, n ∈ ns → (key n ∉ dom (visited sp)) ∧ findCost (grid (unitMap m)) n = 1) →
  Lockstep b (foldl (bfs_push cur) sb ns) (foldl (dijkstra_relax (unitMap m) cur) sp ns).
Proof.
  induction ns as [|n ns IH]; intros sb sp Hl Hcur Hnd Hns; simpl; [done|].
  apply NoDup_cons in Hnd as [Hn Hnd].
  destruct (Hns n) as [Hfresh Hw]; [by left|].
  destruct Hl as (Hfr & Hvis & Hdom & Hsort & Hq).
  rewrite dijkstra_relax_fresh by (by rewrite Hdom).
  assert (key n ≠ key cur) as Hncur.
  { intros Hk. apply Hfresh. rewrite <- Hdom, Hk. by apply elem_of_dom. }
  apply IH; [| |done|].
  - unfold admit_with, dijkstra_prio, bfs_push.
    rewrite (costOf_Some _ _ _ Hcur), Hw.
    assert (PQ.insert_item (PQ.mkElement n (b + 1)) (PQ.queue (frontier sp))
            = PQ.queue (frontier sp) ++ [PQ.mkElement n (b + 1)]) as Hins.
    { apply insert_item_last, Forall_forall. intros e He. simpl.
      destruct (Hq e He). lia. }
    split; [|split; [|split; [|split]]]; simpl.
    + unfold cellsOf. simpl. by rewrite Hins, fmap_app, Hfr.
    + by rewrite Hvis.
    + by rewrite !dom_insert_L, Hdom.
    + apply insert_item_sorted; unfold leq_priority; try done; lia.
    + intros e. rewrite Hins. intros [He|He]%elem_of_app.
      * destruct (Hq e He) as [Hc Hb]. split; [|done].
        rewrite lookup_insert_ne; [done|]. intros Hk. apply Hfresh.
        rewrite <- Hdom, Hk. by apply elem_of_dom.
      * apply list_elem_of_singleton in He as ->. simpl.
        split; [by rewrite lookup_insert_eq|lia].
  - unfold admit_with. simpl. by rewrite lookup_insert_ne.
  - intros n' Hn'. destruct (Hns n') as [Hf' Hw']; [by right|]. split; [|done].
    unfold admit_with. simpl. rewrite dom_insert_L.
    apply not_elem_of_union. split; [|done].
    apply not_elem_of_singleton, key_ne. by intros ->.
Qed.

(** One callback of each. *)
Lemma lockstep_tick b sb sp :
  Lockstep b sb sp →
  match bfs_tick m sb, dijkstra_tick (unitMap m) sp with
  | Exit, Exit => True
  | GoalPopped sb', GoalPopped sp' => ∃ b', Lockstep b' sb' sp'
  | Expanded sb', Expanded sp' => ∃ b', Lockstep b' sb' sp'
  | _, _ => False
  end.
Proof.
  intros (Hfr & Hvis & Hdom & Hsort & Hq). unfold dijkstra_tick.
  destruct (PQ.queue (frontier sp)) as [|item rest] eqn:Hqueue.
  { rewrite (pq_tick_Exit _ _ _ Hqueue), bfs_tick_Exit; [done|].
    rewrite Hfr. unfold cellsOf. by rewrite Hqueue. }
  assert (bfs_frontier sb = PQ.element item :: (PQ.element <$> rest)) as Hfr'.
  { rewrite Hfr. unfold cellsOf. by rewrite Hqueue. }
  destruct (decide (PQ.element item = endCell m)) as [Hgoal|Hne].
  - rewrite (pq_tick_GoalPopped (unitMap m) dijkstra_relax sp item rest Hqueue Hgoal).
    rewrite Hgoal in Hfr'. rewrite (bfs_tick_GoalPopped m sb _ Hfr').
    exists b. split; [done|]. split; [done|]. split; [done|]. split; [constructor|].
    intros e He. by apply elem_of_nil in He.
  - rewrite (pq_tick_Expanded (unitMap m) dijkstra_relax sp item rest Hqueue Hne).
    rewrite (bfs_tick_Expanded m sb _ _ Hfr' Hne).
    rewrite findNeighbors_unitMap, Hvis.
    apply StronglySorted_inv in Hsort as [Hsort Hhead].
    destruct (Hq item) as [Hitem Hband]; [by left|].
    exists (PQ.priority item). apply lockstep_fold.
    + split; [done|]. split; [done|]. split; [done|]. split; [done|].
      intros e He. destruct (Hq e) as [Hc Hb]; [by right|]. split; [done|].
      rewrite Forall_forall in Hhead. specialize (Hhead e He).
      unfold leq_priority in Hhead. lia.
    + done.
    + apply findNeighbors_NoDup.
    + intros n (Hadj & Hv & Hfresh)%findNeighbors_elem_of. split; [done|].
      by apply findCost_unitMap.
Qed.

Lemma lockstep_init : Lockstep 0 (bfs_init m) (pq_init (unitMap m)).
Proof.
  split; [done|]. split; [done|]. split; [simpl; by rewrite !dom_insert_L|].
  split; [repeat constructor|].
  intros e ->%list_elem_of_singleton. simpl.
  split; [by rewrite lookup_insert_eq|lia].
Qed.

Lemma lockstep_after n : ∀ b sb sp,
  Lockstep b sb sp →
  ∃ b', Lockstep b' (after (bfs_tick m) n sb) (after (dijkstra_tick (unitMap m)) n sp).
Proof.
  induction n as [|n IH]; intros b sb sp Hl; [by exists b|].
  pose proof (lockstep_tick b sb sp Hl) as Ht. simpl.
  destruct (bfs_tick m sb) as [|sb'|sb'|e],
           (dijkstra_tick (unitMap m) sp) as [|sp'|sp'|e']; try done.
  - by exists b.
  - destruct Ht as [b' Hl']. by eapply IH.
  - destruct Ht as [b' Hl']. by eapply IH.
Qed.

Lemma lockstep_ticks fuel' : ∀ fuel b sb sp t,
  Lockstep b sb sp →
  finish bfs_visited fuel' m (ticks (bfs_tick m) fuel sb t)
  = finish visited fuel' (unitMap m) (ticks (dijkstra_tick (unitMap m)) fuel sp t).
Proof.
  induction fuel as [|fuel IH]; intros b sb sp t Hl; [done|].
  pose proof (lockstep_tick b sb sp Hl) as Ht. simpl.
  destruct (bfs_tick m sb) as [|sb'|sb'|e],
           (dijkstra_tick (unitMap m) sp) as [|sp'|sp'|e']; try done.
  - simpl. destruct Hl as (_ & -> & _). by rewrite pathReconstruct_unitMap.
  - destruct Ht as [b' Hl']. by eapply IH.
  - destruct Ht as [b' Hl']. by eapply IH.
Qed.

Lemma bfs_unit_dijkstra fuel : bfs fuel m = dijkstra fuel (unitMap m).
Proof. unfold bfs, dijkstra. apply (lockstep_ticks fuel fuel 0), lockstep_init. Qed.

End UnitMap.

(** X12.  [bfs] is [dijkstra] run on the same grid with every weight set
    to 1: after any number of callbacks the two have the same cells
    waiting, in the same order, and the same visited map, and they return
    the same path, or fail the same way. *)
Theorem bfs_is_unit_dijkstra (m : Map) (n fuel : nat) :
  bfs_frontier (after (bfs_tick m) n (bfs_init m))
  = cellsOf (after (dijkstra_tick (unitMap m)) n (pq_init (unitMap m)))
  ∧ bfs_visited (after (bfs_tick m) n (bfs_init m))
    = visited (after (dijkstra_tick (unitMap m)) n (pq_init (unitMap m)))
  ∧ bfs fuel m = dijkstra fuel (unitMap m).
Proof.
  destruct (lockstep_after m n 0 _ _ (lockstep_init m)) as (b & Hfr & Hvis & _).
  split; [done|]. split; [done|apply bfs_unit_dijkstra].
Qed.

Lemma bfs_shortest (m : Map) (fuel : nat) :
  Reachable m (startCell m) (endCell m) → (enoughFuel m ≤ fuel)%nat →
  ∃ l, bfs fuel m = Some (Return (pathOf m l))
       ∧ Walk m (startCell m) l (endCell m)
       ∧ ∀ l', Walk m (startCell m) l' (endCell m) → (length l ≤ length l')%nat.
Proof.
  intros [l0 Hl0] Hfuel.
  destruct (dijkstra_cheapest (unitMap m) fuel) as (l & Hret & Hwalk & _ & Hopt).
  - intros c Hc. rewrite validate_unitMap in Hc. rewrite findCost_unitMap by done. lia.
  - exists l0. by apply Walk_unitMap.
  - done.
  - apply (proj1 (Walk_unitMap m _ _ _)) in Hwalk.
    exists l. split; [by rewrite bfs_unit_dijkstra|]. split; [exact Hwalk|].
    intros l' Hl'.
    specialize (Hopt l' (proj2 (Walk_unitMap m _ _ _) Hl')).
    rewrite (pathCost_unitMap m _ _ _ Hwalk), (pathCost_unitMap m _ _ _ Hl') in Hopt.
    lia.
Qed.

Lemma length_pathOf (m : Map) (l : list Coord) : length (pathOf m l) = S (length l).
Proof. unfold pathOf. by rewrite length_fmap, length_reverse. Qed.

(** X13.  When the exit cell can be reached, [bfs] returns a path with
    the fewest cells: no walk from the start cell to the exit cell enters
    fewer cells than the path returned. *)
Theorem bfs_returns_shortest (m : Map) (fuel : nat) :
  Reachable m (startCell m) (endCell m) → (enoughFuel m ≤ fuel)%nat →
  ∃ path l, bfs fuel m = Some (Return path) ∧ path = pathOf m l
    ∧ Walk m (startCell m) l (endCell m)
    ∧ ∀ l', Walk m (startCell m) l' (endCell m) → (length path ≤ S (length l'))%nat.
Proof.
  intros Hreach Hfuel.
  destruct (bfs_shortest m fuel Hreach Hfuel) as (l & Hret & Hwalk & Hopt).
  exists (pathOf m l), l. split; [done|]. split; [done|]. split; [done|].
  intros l' Hl'. rewrite length_pathOf. specialize (Hopt l' Hl'). lia.
Qed.

Lemma bfs_returns_shortest_witness :
  ∃ path l, bfs (enoughFuel hills) hills = Some (Return path) ∧ path = pathOf hills l
    ∧ Walk hills (startCell hills) l (endCell hills)
    ∧ ∀ l', Walk hills (startCell hills) l' (endCell hills) →
        (length path ≤ S (length l'))%nat.
Proof.
  apply (bfs_returns_shortest hills (enoughFuel hills)).
  - exists [(1, 2); (1, 1); (1, 0)]. apply walkEnd_Walk. reflexivity.
  - reflexivity.
Defined.

(* ================================================================== *)
(** ** How the searches end, and what they visit                        *)
(* ================================================================== *)

Section DriverReach.
Variable m : Map.
Context {St : Type}.
Variables (tick : St → Tick St) (cellsOf : St → list Coord)
  (visitedOf : St → gmap string (list Z)) (J Q : St → Prop).

Hypothesis tick_spec : ∀ st, Good m cellsOf visitedOf J st →
  match tick st with
  | Exit => cellsOf st = []
  | GoalPopped st' =>
      endCell m ∈ cellsOf st ∧ visitedOf st' = visitedOf st ∧ tick st' = Exit ∧ Q st'
  | Expanded st' =>
      J st' ∧ Step m (cellsOf st) (dom (visitedOf st)) (cellsOf st') (dom (visitedOf st'))
  | Crashed _ => False
  end.

Lemma after_reach n : ∀ st, Good m cellsOf visitedOf J st →
  ∀ c, key c ∈ dom (visitedOf (after tick n st)) → Reachable m (startCell m) c.
Proof.
  induction n as [|n IH]; intros st Hg c; simpl.
  { destruct Hg as (_ & Hinv & _). apply (inv_reach _ _ _ Hinv). }
  pose proof (tick_spec st Hg) as Hs.
  destruct (tick st) as [|st'|st'|e] eqn:Ht; [| | |done].
  - destruct Hg as (_ & Hinv & _). apply (inv_reach _ _ _ Hinv).
  - destruct Hs as (_ & Hvis & Hexit & _).
    rewrite after_stuck by (by left). rewrite Hvis.
    destruct Hg as (_ & Hinv & _). apply (inv_reach _ _ _ Hinv).
  - apply IH. by eapply (Good_Expanded m tick cellsOf visitedOf J Q tick_spec).
Qed.

Lemma ticks_exhausted fuel : ∀ st t,
  Good m cellsOf visitedOf J st →
  (measure m (cellsOf st) (dom (visitedOf st)) < fuel)%nat →
  ¬ Reachable m (startCell m) (endCell m) →
  ∃ st', ticks tick fuel st t = Some (Return (t, st'))
         ∧ cellsOf st' = [] ∧ floods m (visitedOf st').
Proof.
  induction fuel as [|fuel IH]; intros st t Hg Hfuel Hun; [lia|].
  pose proof (tick_spec st Hg) as Hs. simpl.
  destruct (tick st) as [|st'|st'|e] eqn:Ht; [| | |done].
  - destruct Hg as (_ & Hinv & Hcl). rewrite Hs in Hinv, Hcl.
    exists st. split; [done|]. split; [done|].
    intros c. split; [apply (inv_reach _ _ _ Hinv)|].
    intros [l Hl]. eapply Closed_nil_Walk; [done| |done].
    apply (inv_start _ _ _ Hinv).
  - destruct Hs as (Hin & _). destruct Hun. destruct Hg as (_ & Hinv & _).
    apply (inv_reach _ _ _ Hinv), (inv_frontier _ _ _ Hinv), Hin.
  - destruct Hs as [HJ Hstep].
    apply IH; [by eapply (Good_Expanded m tick cellsOf visitedOf J Q tick_spec)| |done].
    apply Step_measure in Hstep. lia.
Qed.

Lemma ticks_foundIffReachable fuel st :
  Good m cellsOf visitedOf J st →
  (measure m (cellsOf st) (dom (visitedOf st)) < fuel)%nat →
  foundIffReachable m (ticks tick fuel st Exhausted).
Proof.
  intros Hg Hfuel.
  destruct (ticks_ends m tick cellsOf visitedOf J Q tick_spec fuel st Exhausted Hg Hfuel)
    as [[Hr (st' & -> & _)]|[Hun (st' & -> & _)]]; [by left|by right].
Qed.

End DriverReach.

Lemma Reachable_valid (m : Map) (c : Coord) :
  Reachable m (startCell m) c → c = startCell m ∨ validate m c.1 c.2 = true.
Proof. intros [l Hl]. destruct Hl; [by left|by right]. Qed.

Lemma bfs_init_Good (m : Map) :
  Good m bfs_frontier bfs_visited (λ _, True) (bfs_init m).
Proof.
  destruct (PqInv_init m) as [_ Hview].
  split; [done|]. split; [exact Hview|apply pq_init_Closed].
Qed.

Lemma pq_init_Good (m : Map) : Good m cellsOf visited (PqInv m) (pq_init m).
Proof.
  destruct (PqInv_init m) as [Hinv Hview].
  split; [done|]. split; [done|apply pq_init_Closed].
Qed.

Lemma enoughFuel_cells (m : Map) :
  enoughFuel m = (Z.to_nat (mapSize m) * Z.to_nat (mapSize m) + 2)%nat.
Proof.
  pose proof (List.length_prod (seqZ 0 (mapSize m)) (seqZ 0 (mapSize m))) as H.
  rewrite !length_seqZ in H.
  assert (length (cells m) = (Z.to_nat (mapSize m) * Z.to_nat (mapSize m))%nat) as Hlen.
  { rewrite <- H. exact (f_equal length (list_cprod_list_prod _ _)). }
  unfold enoughFuel. lia.
Qed.

(** X14.  On a grid of [mapSize] rows of [mapSize] cells every search
    ends within [mapSize * mapSize + 2] runs of its callback.  When the
    exit cell can be reached from the start cell it has popped the exit
    cell by then and the call returns a path; when it cannot, the
    frontier has run dry and the last callback, which calls
    [pathReconstruct], throws a [TypeError]. *)
Theorem searches_end (m : Map) (fuel : nat) :
  wf_map m = true →
  (Z.to_nat (mapSize m) * Z.to_nat (mapSize m) + 2 ≤ fuel)%nat →
  endsAsReachable m (ticks (bfs_tick m) fuel (bfs_init m) Exhausted) (bfs fuel m)
  ∧ endsAsReachable m (ticks (dijkstra_tick m) fuel (pq_init m) Exhausted)
      (dijkstra fuel m)
  ∧ endsAsReachable m (ticks (astar_tick m) fuel (pq_init m) Exhausted)
      (astar fuel m).
Proof.
  rewrite <- enoughFuel_cells. intros _ Hfuel.
  pose proof (pq_init_measure m) as Hm.
  split; [|split].
  - destruct (ticks_foundIffReachable m (bfs_tick m) bfs_frontier bfs_visited
                (λ _, True) (λ _, True) (bfs_tick_spec m) fuel (bfs_init m))
      as [[Hr Ht]|[Hun Ht]];
      [apply bfs_init_Good|eapply Nat.lt_le_trans; [apply (pq_init_measure m)|done]| |].
    + left. split; [done|]. split; [done|].
      destruct (bfs_route m fuel Hr Hfuel) as (l & _ & _ & Hret). eauto.
    + right. split; [done|]. apply (unreachable_throws m fuel Hun Hfuel).
  - destruct (ticks_foundIffReachable m (dijkstra_tick m) cellsOf visited (PqInv m)
                (λ _, True)
                (pq_tick_spec m dijkstra_prio dijkstra_relax (dijkstra_relax_fresh m))
                fuel (pq_init m)) as [[Hr Ht]|[Hun Ht]]; [apply pq_init_Good|lia| |].
    + left. split; [done|]. split; [done|].
      destruct (pq_cost_route m dijkstra_prio dijkstra_relax fuel
                  (dijkstra_relax_fresh m) Hr Hfuel) as (st & l & _ & _ & _ & _ & Hret).
      by exists (pathOf m l).
    + right. split; [done|]. apply (unreachable_throws m fuel Hun Hfuel).
  - destruct (ticks_foundIffReachable m (astar_tick m) cellsOf visited (PqInv m)
                (λ _, True)
                (pq_tick_spec m (astar_prio m) astar_relax (astar_relax_fresh m))
                fuel (pq_init m)) as [[Hr Ht]|[Hun Ht]]; [apply pq_init_Good|lia| |].
    + left. split; [done|]. split; [done|].
      destruct (pq_cost_route m (astar_prio m) astar_relax fuel
                  (astar_relax_fresh m) Hr Hfuel) as (st & l & _ & _ & _ & _ & Hret).
      by exists (pathOf m l).
    + right. split; [done|]. apply (unreachable_throws m fuel Hun Hfuel).
Qed.

Lemma searches_end_witness :
  endsAsReachable walled (ticks (bfs_tick walled) 11 (bfs_init walled) Exhausted)
    (bfs 11 walled)
  ∧ endsAsReachable walled (ticks (dijkstra_tick walled) 11 (pq_init walled) Exhausted)
      (dijkstra 11 walled)
  ∧ endsAsReachable walled (ticks (astar_tick walled) 11 (pq_init walled) Exhausted)
      (astar 11 walled).
Proof. apply (searches_end walled 11); [reflexivity|simpl; lia]. Defined.

(** X15.  When the start cell is also the exit cell, each search returns
    the path made of that one cell, after two runs of its callback,
    whatever the grid holds there. *)
Theorem start_is_goal (m : Map) (fuel : nat) :
  startCell m = endCell m → (2 ≤ fuel)%nat →
  bfs fuel m = Some (Return [arr (startCell m)])
  ∧ dijkstra fuel m = Some (Return [arr (startCell m)])
  ∧ astar fuel m = Some (Return [arr (startCell m)]).
Proof.
  intros Heq Hfuel. destruct fuel as [|[|fuel]]; try lia.
  assert (∀ visited, pathReconstruct (S (S fuel)) visited m
                     = Some (Return [arr (startCell m)])) as Hpath.
  { intros visited. unfold pathReconstruct. simpl.
    by rewrite (proj2 (equals_arr _ _) (eq_sym Heq)). }
  assert (∀ relax, finish visited (S (S fuel)) m
            (ticks (pq_tick relax m) (S (S fuel)) (pq_init m) Exhausted)
          = Some (Return [arr (startCell m)])) as Hpq.
  { intros relax. cbn [ticks].
    rewrite (pq_tick_GoalPopped m relax (pq_init m) (PQ.mkElement (startCell m) 0) []
               eq_refl Heq).
    rewrite pq_tick_Exit by done. apply Hpath. }
  split; [|split; apply Hpq].
  unfold bfs. cbn [ticks].
  rewrite (bfs_tick_GoalPopped m (bfs_init m) []) by (simpl; by rewrite Heq).
  rewrite bfs_tick_Exit by done. apply Hpath.
Qed.

Lemma start_is_goal_witness :
  bfs 2 (mkMap 3 (1, 2) (1, 2) (grid walled)) = Some (Return [[1; 2]])
  ∧ dijkstra 2 (mkMap 3 (1, 2) (1, 2) (grid walled)) = Some (Return [[1; 2]])
  ∧ astar 2 (mkMap 3 (1, 2) (1, 2) (grid walled)) = Some (Return [[1; 2]]).
Proof. apply (start_is_goal (mkMap 3 (1, 2) (1, 2) (grid walled)) 2); [reflexivity|lia]. Defined.

(** X16.  At every moment of every search, a cell with a key in the
    visited map can be walked to from the start cell; so the searches
    never visit an obstacle or a coordinate outside the grid, the start
    cell apart, which is never tested. *)
Theorem visited_are_reachable (m : Map) (n : nat) :
  onlyReachable m (bfs_visited (after (bfs_tick m) n (bfs_init m)))
  ∧ onlyReachable m (visited (after (dijkstra_tick m) n (pq_init m)))
  ∧ onlyReachable m (visited (after (astar_tick m) n (pq_init m))).
Proof.
  assert (∀ v, (∀ c, key c ∈ dom v → Reachable m (startCell m) c) → onlyReachable m v)
    as Hall.
  { intros v Hv c Hc. split; [by apply Hv|by apply Reachable_valid, Hv]. }
  split; [|split]; apply Hall.
  - apply (after_reach m (bfs_tick m) bfs_frontier bfs_visited (λ _, True) (λ _, True)
             (bfs_tick_spec m)), bfs_init_Good.
  - apply (after_reach m (dijkstra_tick m) cellsOf visited (PqInv m) (λ _, True)
             (pq_tick_spec m dijkstra_prio dijkstra_relax (dijkstra_relax_fresh m))),
      pq_init_Good.
  - apply (after_reach m (astar_tick m) cellsOf visited (PqInv m) (λ _, True)
             (pq_tick_spec m (astar_prio m) astar_relax (astar_relax_fresh m))),
      pq_init_Good.
Qed.

(** X17.  When the exit cell cannot be reached, each search stops with
    the frontier empty after visiting exactly the cells one can walk to
    from the start cell: its visited map is the flood fill of the start
    cell. *)
Theorem exhausted_visits_all (m : Map) (fuel : nat) :
  ¬ Reachable m (startCell m) (endCell m) → (enoughFuel m ≤ fuel)%nat →
  (∃ st, ticks (bfs_tick m) fuel (bfs_init m) Exhausted = Some (Return (Exhausted, st))
         ∧ bfs_frontier st = [] ∧ floods m (bfs_visited st))
  ∧ (∃ st, ticks (dijkstra_tick m) fuel (pq_init m) Exhausted
           = Some (Return (Exhausted, st))
           ∧ cellsOf st = [] ∧ floods m (visited st))
  ∧ (∃ st, ticks (astar_tick m) fuel (pq_init m) Exhausted
           = Some (Return (Exhausted, st))
           ∧ cellsOf st = [] ∧ floods m (visited st)).
Proof.
  intros Hun Hfuel. pose proof (pq_init_measure m) as Hm.
  split; [|split].
  - apply (ticks_exhausted m (bfs_tick m) bfs_frontier bfs_visited (λ _, True)
             (λ _, True) (bfs_tick_spec m) fuel (bfs_init m) Exhausted);
      [apply bfs_init_Good|eapply Nat.lt_le_trans; [apply (pq_init_measure m)|done]|done].
  - apply (ticks_exhausted m (dijkstra_tick m) cellsOf visited (PqInv m) (λ _, True)
             (pq_tick_spec m dijkstra_prio dijkstra_relax (dijkstra_relax_fresh m))
             fuel (pq_init m) Exhausted); [apply pq_init_Good|lia|done].
  - apply (ticks_exhausted m (astar_tick m) cellsOf visited (PqInv m) (λ _, True)
             (pq_tick_spec m (astar_prio m) astar_relax (astar_relax_fresh m))
             fuel (pq_init m) Exhausted); [apply pq_init_Good|lia|done].
Qed.

Lemma exhausted_visits_all_witness :
  (∃ st, ticks (bfs_tick walled) (enoughFuel walled) (bfs_init walled) Exhausted
         = Some (Return (Exhausted, st))
         ∧ bfs_frontier st = [] ∧ floods walled (bfs_visited st))
  ∧ (∃ st, ticks (dijkstra_tick walled) (enoughFuel walled) (pq_init walled) Exhausted
           = Some (Return (Exhausted, st))
           ∧ cellsOf st = [] ∧ floods walled (visited st))
  ∧ (∃ st, ticks (astar_tick walled) (enoughFuel walled) (pq_init walled) Exhausted
           = Some (Return (Exhausted, st))
           ∧ cellsOf st = [] ∧ floods walled (visited st)).
Proof.
  apply (exhausted_visits_all walled (enoughFuel walled)).
  - apply (encloses_unreachable walled walledRegion). reflexivity.
  - reflexivity.
Defined.

(* ================================================================== *)
(** ** Dijkstra: every recorded cost is the least one                   *)
(* ================================================================== *)

Section DijkstraRuns.
Variable m : Map.
Hypothesis weights : ∀ c, validate m c.1 c.2 = true → 0 ≤ findCost (grid m) c.
Implicit Types (st : PqState).

Lemma dijkstra_Good_least st :
  Good m cellsOf visited (λ st, PqInv m st ∧ DijkstraInv m st) st →
  ∀ c d, cumulatedCost st !! key c = Some d → leastCost m c d.
Proof.
  intros ([(_ & _ & _ & Hach) [_ Hopt]] & _) c d Hc.
  split; [by apply Hach|by apply Hopt].
Qed.

Lemma dijkstra_init_Good :
  Good m cellsOf visited (λ st, PqInv m st ∧ DijkstraInv m st) (pq_init m).
Proof.
  destruct (PqInv_init m) as [Hinv Hview].
  split; [split; [done|by apply DijkstraInv_init]|].
  split; [done|apply pq_init_Closed].
Qed.

Lemma dijkstra_Good_Expanded st st' :
  Good m cellsOf visited (λ st, PqInv m st ∧ DijkstraInv m st) st →
  dijkstra_tick m st = Expanded st' →
  Good m cellsOf visited (λ st, PqInv m st ∧ DijkstraInv m st) st'.
Proof.
  apply (Good_Expanded m (dijkstra_tick m) cellsOf visited
           (λ st, PqInv m st ∧ DijkstraInv m st) (costMinimal m)
           (dijkstra_tick_spec m weights)).
Qed.

Lemma dijkstra_after_least n : ∀ st,
  Good m cellsOf visited (λ st, PqInv m st ∧ DijkstraInv m st) st →
  ∀ c d, cumulatedCost (after (dijkstra_tick m) n st) !! key c = Some d →
    leastCost m c d.
Proof.
  induction n as [|n IH]; intros st Hg; [by apply dijkstra_Good_least|].
  cbn [after]. unfold dijkstra_tick at 1.
  destruct (PQ.queue (frontier st)) as [|item rest] eqn:Hq.
  { rewrite (pq_tick_Exit m dijkstra_relax st Hq). by apply dijkstra_Good_least. }
  destruct (decide (PQ.element item = endCell m)) as [Hgoal|Hne].
  - rewrite (pq_tick_GoalPopped m dijkstra_relax st item rest Hq Hgoal).
    rewrite after_stuck by (left; by apply pq_tick_Exit).
    intros c d Hc. by apply (dijkstra_Good_least st Hg).
  - pose proof (pq_tick_Expanded m dijkstra_relax st item rest Hq Hne) as Ht.
    rewrite Ht. apply IH. by eapply dijkstra_Good_Expanded.
Qed.


End DijkstraRuns.

(** X18.  On a grid whose passable cells have no negative weight, every
    cost [dijkstra] records is final when it is recorded: at every moment
    of the run, the cost in [cumulatedCost] for a cell is the cost of a
    walk from the start cell to it, and no such walk is cheaper.  (This
    is why the lost re-admission of C2 does no harm to [dijkstra].) *)
Theorem dijkstra_records_least_costs (m : Map) (n : nat) (c : Coord) (d : Z) :
  (∀ c, validate m c.1 c.2 = true → 0 ≤ findCost (grid m) c) →
  cumulatedCost (after (dijkstra_tick m) n (pq_init m)) !! key c = Some d →
  leastCost m c d.
Proof.
  intros Hw. by apply dijkstra_after_least, dijkstra_init_Good.
Qed.

Lemma dijkstra_records_least_costs_witness : leastCost hills (2, 1) 5.
Proof.
  apply (dijkstra_records_least_costs hills 5 (2, 1) 5).
  - apply (weightsAtLeast_spec 0). reflexivity.
  - reflexivity.
Defined.



Lemma walkWeight_reverse m l : walkWeight m (reverse l) = walkWeight m l.
Proof.
  induction l as [|c l IH]; [done|].
  rewrite reverse_cons, walkWeight_snoc, IH. unfold walkWeight. simpl. lia.
Qed.

Lemma pathWeight_pathOf m l : pathWeight m (pathOf m l) = walkWeight m l.
Proof.
  assert (∀ r, foldr (λ a s, match a with [x; y] => weightOf m (x, y) + s | _ => s end)
                 0 (arr <$> r) = walkWeight m r) as Hsum.
  { unfold walkWeight. induction r as [|[x y] r IH]; [done|].
    rewrite fmap_cons. cbn [foldr arr fst snd]. by rewrite IH. }
  unfold pathWeight, pathOf. rewrite reverse_cons, fmap_app. simpl.
  by rewrite List.removelast_last, Hsum, walkWeight_reverse.
Qed.

(** X20.  The three answers compared, on a grid whose exit cell can be
    reached.  Whatever the weights, the path of [bfs] has no more cells
    than the paths of [dijkstra] and [astar].  When no passable cell has
    a negative weight in the grid, the weights the grid holds along the
    path of [dijkstra] sum to no more than along the paths of [bfs] and
    [astar]: [astar] may return a dearer path than [dijkstra] (C8), never
    a cheaper one. *)
Theorem paths_compared (m : Map) (fuel : nat) :
  Reachable m (startCell m) (endCell m) → (enoughFuel m ≤ fuel)%nat →
  ∃ pb pd pa,
    bfs fuel m = Some (Return pb) ∧ dijkstra fuel m = Some (Return pd)
    ∧ astar fuel m = Some (Return pa)
    ∧ (length pb ≤ length pd)%nat ∧ (length pb ≤ length pa)%nat
    ∧ ((∀ c, validate m c.1 c.2 = true → 0 ≤ weightOf m c) →
       pathWeight m pd ≤ pathWeight m pb ∧ pathWeight m pd ≤ pathWeight m pa).
Proof.
  intros Hreach Hfuel.
  destruct (bfs_shortest m fuel Hreach Hfuel) as (lb & Hb & Hwb & Hshort).
  destruct (pq_cost_route m dijkstra_prio dijkstra_relax fuel (dijkstra_relax_fresh m)
              Hreach Hfuel) as (std & ld & _ & Hwd & _ & _ & Hd).
  destruct (pq_cost_route m (astar_prio m) astar_relax fuel (astar_relax_fresh m)
              Hreach Hfuel) as (sta & la & _ & Hwa & _ & _ & Ha).
  exists (pathOf m lb), (pathOf m ld), (pathOf m la).
  rewrite !length_pathOf.
  split; [done|]. split; [done|]. split; [done|].
  split; [apply le_n_S; by apply Hshort|]. split; [apply le_n_S; by apply Hshort|].
  intros Hw.
  assert (∀ c, validate m c.1 c.2 = true → 0 ≤ findCost (grid m) c) as Hw0.
  { intros c Hc. rewrite findCost_weightOf by done. by apply Hw. }
  destruct (dijkstra_cheapest m fuel Hw0 Hreach Hfuel) as (ld' & Hd' & Hwd' & _ & Hcheap).
  assert (pathOf m ld = pathOf m ld') as ->.
  { unfold dijkstra, dijkstra_tick in Hd'. rewrite Hd in Hd'. by injection Hd'. }
  rewrite !pathWeight_pathOf.
  rewrite <- (pathCost_walkWeight m _ _ _ Hwd'), <- (pathCost_walkWeight m _ _ _ Hwb),
    <- (pathCost_walkWeight m _ _ _ Hwa).
  split; by apply Hcheap.
Qed.

Lemma paths_compared_witness :
  ∃ pb pd pa,
    bfs (enoughFuel hills) hills = Some (Return pb)
    ∧ dijkstra (enoughFuel hills) hills = Some (Return pd)
    ∧ astar (enoughFuel hills) hills = Some (Return pa)
    ∧ (length pb ≤ length pd)%nat ∧ (length pb ≤ length pa)%nat
    ∧ pathWeight hills pd ≤ pathWeight hills pb
    ∧ pathWeight hills pd ≤ pathWeight hills pa.
Proof.
  destruct (paths_compared hills (enoughFuel hills))
    as (pb & pd & pa & Hb & Hd & Ha & Hlen & Hlen' & Hcost).
  - exists [(1, 2); (1, 1); (1, 0)]. apply walkEnd_Walk. reflexivity.
  - reflexivity.
  - exists pb, pd, pa.
    split; [exact Hb|]. split; [exact Hd|]. split; [exact Ha|].
    split; [exact Hlen|]. split; [exact Hlen'|].
    apply Hcost, weighsAtLeast_spec. reflexivity.
Defined.

(* ================================================================== *)
(** ** Painting an obstacle, then searching                             *)
(* ================================================================== *)

Lemma setTerrain_obstacle (m m' : Map) (x y : Z) :
  setTerrain m x y "obstacle" = Return m' →
  startCell m' = startCell m ∧ validate m' x y = false.
Proof.
  unfold setTerrain. destruct (isBound m x y) eqn:Hb; [|done].
  destruct (gridAt (grid m) x y) as [cell|] eqn:Hcell; [|done].
  destruct (gridAt_Some_nonneg _ _ _ _ Hcell) as [Hx Hy].
  intros [= <-]. split; [done|]. unfold validate. simpl.
  rewrite gridAt_gridUpdate, decide_True, Hcell by done. simpl.
  apply andb_false_r.
Qed.

(** X21.  A cell painted as an obstacle with [setTerrain] is never
    visited by a search run afterwards, unless it is the start cell. *)
Theorem painted_obstacle_not_visited (m m' : Map) (x y : Z) (n : nat) :
  setTerrain m x y "obstacle" = Return m' → (x, y) ≠ startCell m →
  (key (x, y) ∉ dom (bfs_visited (after (bfs_tick m') n (bfs_init m'))))
  ∧ (key (x, y) ∉ dom (visited (after (dijkstra_tick m') n (pq_init m'))))
  ∧ (key (x, y) ∉ dom (visited (after (astar_tick m') n (pq_init m')))).
Proof.
  intros [Hstart Hv]%setTerrain_obstacle Hne.
  assert (¬ Reachable m' (startCell m') (x, y)) as Hun.
  { intros [Heq|Hval]%Reachable_valid; [by rewrite Hstart in Heq|].
    simpl in Hval. by rewrite Hv in Hval. }
  split; [|split]; intros Hin; apply Hun.
  - by apply (after_reach m' (bfs_tick m') bfs_frontier bfs_visited (λ _, True) (λ _, True)
                (bfs_tick_spec m') n (bfs_init m') (bfs_init_Good m')).
  - by apply (after_reach m' (dijkstra_tick m') cellsOf visited (PqInv m') (λ _, True)
                (pq_tick_spec m' dijkstra_prio dijkstra_relax (dijkstra_relax_fresh m'))
                n (pq_init m') (pq_init_Good m')).
  - by apply (after_reach m' (astar_tick m') cellsOf visited (PqInv m') (λ _, True)
                (pq_tick_spec m' (astar_prio m') astar_relax (astar_relax_fresh m'))
                n (pq_init m') (pq_init_Good m')).
Qed.

Lemma painted_obstacle_not_visited_witness :
  let m' := withGrid hills
              (gridUpdate (λ c, mkCell "obstacle" (weight c)) (grid hills) 1 1) in
  (key (1, 1) ∉ dom (bfs_visited (after (bfs_tick m') 18 (bfs_init m'))))
  ∧ (key (1, 1) ∉ dom (visited (after (dijkstra_tick m') 18 (pq_init m'))))
  ∧ (key (1, 1) ∉ dom (visited (after (astar_tick m') 18 (pq_init m')))).
Proof.
  intros m'. apply (painted_obstacle_not_visited hills m' 1 1 18); [reflexivity|done].
Defined.

(* ================================================================== *)
(** ** What [pathReconstruct] can answer                                *)
(* ================================================================== *)

Lemma pathReconstruct_loop_Return_bound visited m fuel :
  ∀ current endPath p,
    pathReconstruct_loop fuel visited m current endPath = Some (Return p) →
    ∃ l, p = endPath ++ l ++ [arr (startCell m)]
         ∧ Chain visited (arr (startCell m)) current l ∧ (length l < fuel)%nat.
Proof.
  induction fuel as [|fuel IH]; intros current endPath p; simpl; [done|].
  destruct (equals current (arr (startCell m))) eqn:Heq.
  - intros [= <-]. exists []. split; [done|]. split; [by constructor|simpl; lia].
  - destruct (visited !! toString current) as [previous|] eqn:Hlk; [|done].
    intros (l & -> & Hl & Hlen)%IH. exists (current :: l).
    split; [by rewrite <- app_assoc|]. split; [by econstructor|simpl; lia].
Qed.

Lemma Chain_ends visited (s e : Coord) l :
  Chain visited (arr s) (arr e) l →
  head (l ++ [arr s]) = Some (arr e) ∧ last (l ++ [arr s]) = Some (arr s).
Proof.
  intros Hc. split; [|by rewrite last_snoc].
  inversion Hc as [c Heq|c prev l' Hne Hlk Hl]; subst; simpl; [|done].
  apply equals_arr in Heq. by subst.
Qed.

Lemma pathReconstruct_loop_more visited m fuel current endPath r k :
  pathReconstruct_loop fuel visited m current endPath = Some r →
  pathReconstruct_loop (fuel + k) visited m current endPath = Some r.
Proof.
  intros H. induction k as [|k IH]; [by rewrite Nat.add_0_r|].
  rewrite Nat.add_succ_r. by apply pathReconstruct_loop_mono.
Qed.

(** X22.  What [pathReconstruct] returns is always a chain of links of
    the visited map: it returns a path exactly if following the links
    from the exit cell reaches the start cell, and the path is then the
    cells passed, beginning with the exit cell and ending with the start
    cell.  The only thing it throws is a [TypeError]; and an answer does
    not depend on how long the loop is let run afterwards. *)
Theorem pathReconstruct_sound (visited : gmap string (list Z)) (m : Map) (fuel : nat) :
  (∀ path, pathReconstruct fuel visited m = Some (Return path) ↔
     ∃ l, Chain visited (arr (startCell m)) (arr (endCell m)) l
          ∧ path = l ++ [arr (startCell m)] ∧ (length l < fuel)%nat)
  ∧ (∀ path, pathReconstruct fuel visited m = Some (Return path) →
       head path = Some (arr (endCell m)) ∧ last path = Some (arr (startCell m)))
  ∧ (∀ e, pathReconstruct fuel visited m = Some (Throw e) → e = TypeError)
  ∧ (∀ r k, pathReconstruct fuel visited m = Some r →
       pathReconstruct (fuel + k) visited m = Some r).
Proof.
  unfold pathReconstruct. split; [|split; [|split]].
  - intros path. split.
    + intros (l & -> & Hl & Hlen)%pathReconstruct_loop_Return_bound. by exists l.
    + intros (l & Hl & -> & Hlen).
      by rewrite (pathReconstruct_loop_Chain _ _ _ _ Hl).
  - intros path (l & -> & Hl & _)%pathReconstruct_loop_Return_bound. simpl.
    apply (Chain_ends visited _ _ _ Hl).
  - intros e. apply pathReconstruct_loop_Throw.
  - intros r k. apply pathReconstruct_loop_more.
Qed.

(* ================================================================== *)
(** ** The visited map is a tree                                        *)
(* ================================================================== *)

Lemma bfs_init_Good_tree (m : Map) :
  Good m bfs_frontier bfs_visited
    (λ st, True ∧ TreeInv m (bfs_visited st) (λ _ _, True)) (bfs_init m).
Proof.
  destruct (PqInv_init m) as [_ Hview].
  split; [split; [done|by apply TreeInv_init]|].
  split; [exact Hview|apply pq_init_Closed].
Qed.

Lemma pq_init_Good_tree (m : Map) :
  Good m cellsOf visited
    (λ st, PqInv m st ∧ TreeInv m (visited st) (recorded m st)) (pq_init m).
Proof.
  destruct (PqInv_init m) as [Hinv Hview].
  split; [split; [done|]|split; [done|apply pq_init_Closed]].
  apply TreeInv_init. unfold recorded. simpl. by rewrite lookup_insert_eq.
Qed.

Lemma pq_after_tree (m : Map) (prio : Z → Coord → Z)
    (relax : Map → Coord → PqState → Coord → PqState) (n : nat) :
  (∀ cur st n, key n ∉ dom (cumulatedCost st) →
     relax m cur st n = admit_with prio m cur st n) →
  TreeInv m (visited (after (pq_tick relax m) n (pq_init m)))
    (recorded m (after (pq_tick relax m) n (pq_init m))).
Proof.
  intros relax_fresh.
  apply (after_tree m (pq_tick relax m) cellsOf visited (PqInv m) (λ _, True)
           (recorded m) (pq_tick_spec m prio relax relax_fresh)); [|apply pq_init_Good_tree].
  intros st st' (Hinv & Hview & _).
  apply (pq_tick_tree m prio relax relax_fresh st st' Hinv Hview).
Qed.

(** X23.  At every moment of a search the visited map is a tree rooted
    at the start cell: from every visited cell the recorded origins lead
    back to the start cell along a walk that enters no cell twice; in
    [dijkstra] and [astar] the cost recorded for the cell is the cost of
    that walk.  On such a map the links followed from any visited cell
    reach the start cell within as many steps as the grid has cells: the
    endless loop [pathReconstruct] can fall into on other maps never
    happens on a map a search has built. *)
Theorem visited_is_tree (m : Map) (n : nat) :
  TreeInv m (bfs_visited (after (bfs_tick m) n (bfs_init m))) (λ _ _, True)
  ∧ TreeInv m (visited (after (dijkstra_tick m) n (pq_init m)))
      (recorded m (after (dijkstra_tick m) n (pq_init m)))
  ∧ TreeInv m (visited (after (astar_tick m) n (pq_init m)))
      (recorded m (after (astar_tick m) n (pq_init m)))
  ∧ ∀ visited P, TreeInv m visited P →
      ∀ c, key c ∈ dom visited →
        ∃ l, Chain visited (arr (startCell m)) (arr c) l
             ∧ (length l ≤ length (cells m))%nat.
Proof.
  split; [|split; [|split]]; cycle 3.
  { intros visited P Ht c Hc. destruct (Ht c Hc) as (l & Hr & Hnd & _).
    exists (arr <$> reverse l). split; [by apply Route_Chain|].
    rewrite length_fmap, length_reverse. by eapply Route_length. }
  - apply (after_tree m (bfs_tick m) bfs_frontier bfs_visited (λ _, True) (λ _, True)
             (λ _ _ _, True) (bfs_tick_spec m)); [|apply bfs_init_Good_tree].
    intros st st' (_ & Hinv & _). by apply bfs_tick_tree.
  - apply (pq_after_tree m dijkstra_prio dijkstra_relax n (dijkstra_relax_fresh m)).
  - apply (pq_after_tree m (astar_prio m) astar_relax n (astar_relax_fresh m)).
Qed.
